(** * The hyperdrive web-API gateway (app/bg/web-apis/bg/hyperdrive.js)

    A shallow embedding of the gateway that mediates filesystem-style calls
    from web content to hyperdrives, and the properties of its permission,
    quota, path, audit and query logic.

    Conventions of the embedding.
    - A JavaScript string is a Rocq [string] holding its UTF-8 bytes; all the
      literals the gateway compares against are ASCII.
    - JavaScript numbers that count bytes or milliseconds are integers [Z].
    - An [async] function is a computation in the monad [M]: it threads the
      [World] (permission store, audit log, trace of collaborator calls) and
      either resolves with a value or rejects with an [Error].
    - Modules imported by the file but defined elsewhere (lib/const, lib/urls,
      hyper/drives, hyper/dns, dbs/archives, pauls-dat-api2, ...) are the
      fields of an environment record [Env].
    - [timer] runs its body; the wall-clock deadline itself is outside the
      embedding, which therefore describes the runs in which the deadline
      does not elapse. *)

From Stdlib Require Import ZArith Ascii String List Lia Bool Sorted Permutation.
From stdpp Require Import base strings gmap list pretty.

Set Warnings "-register-all".
Local Open Scope Z_scope.

(** ** Errors and results *)

Inductive Error :=
| PermissionsError
| UserDeniedError
| QuotaExceededError
| ArchiveNotWritableError
| InvalidURLError
| ProtectedFileNotWritableError
| InvalidPathError
| URIError                     (* thrown by decodeURIComponent *)
| TypeError                    (* thrown by the URL constructor *)
| GenericError (msg : string)  (* new Error(msg) *)
| CollaboratorError (msg : string). (* any rejection coming from a collaborator *)

Inductive Result (A : Type) :=
| Ok (a : A)
| Err (e : Error).
Arguments Ok {A} a.
Arguments Err {A} e.

Definition isOk {A} (r : Result A) : bool :=
  match r with Ok _ => true | Err _ => false end.

(** [e.name === 'Error']: a plain [Error], not one of the named classes. *)
Definition isPlainError (e : Error) : bool :=
  match e with GenericError _ => true | _ => false end.

(** ** JavaScript string primitives used by the gateway *)

Module JsString.

(** [s.startsWith(p)] *)
Definition startsWith (s p : string) : bool := String.prefix p s.

(** [s.includes(p)] *)
Fixpoint includes (s p : string) : bool :=
  String.prefix p s ||
  match s with
  | EmptyString => false
  | String _ s' => includes s' p
  end.

(** [s.charAt(0) !== '/'] *)
Definition charAt0_is (s : string) (c : ascii) : bool :=
  match s with
  | String d _ => if decide (c = d) then true else false
  | EmptyString => false
  end.

(** [s.slice(-1)] *)
Fixpoint lastChar (s : string) : option ascii :=
  match s with
  | EmptyString => None
  | String c EmptyString => Some c
  | String _ s' => lastChar s'
  end.

End JsString.

(** ** decodeURIComponent (ECMA-262, Decode with an empty preserved set) *)

Module Uri.

Definition hexDigit (c : ascii) : option N :=
  let n := N_of_ascii c in
  if ((48 <=? n) && (n <=? 57))%N then Some (n - 48)%N
  else if ((65 <=? n) && (n <=? 70))%N then Some (n - 55)%N
  else if ((97 <=? n) && (n <=? 102))%N then Some (n - 87)%N
  else None.

Definition ParseHexOctet (h1 h2 : ascii) : option N :=
  match hexDigit h1, hexDigit h2 with
  | Some a, Some b => Some (16 * a + b)%N
  | _, _ => None
  end.

(** The number of leading 1 bits of an octet (5 stands for "more than 4"). *)
Definition leadingOnes (B : N) : nat :=
  if (B <? 0x80)%N then 0%nat
  else if (B <? 0xC0)%N then 1%nat
  else if (B <? 0xE0)%N then 2%nat
  else if (B <? 0xF0)%N then 3%nat
  else if (B <? 0xF8)%N then 4%nat
  else 5%nat.

Definition between (lo hi b : N) : bool := ((lo <=? b) && (b <=? hi))%N.
Definition cont (b : N) : bool := between 0x80 0xBF b.

(** Well-formed UTF-8 byte sequences of length 2 to 4 (Unicode, table 3-7):
    no overlong forms, no surrogates, nothing above U+10FFFF. *)
Definition validUtf8 (octets : list N) : bool :=
  match octets with
  | [a; b] => between 0xC2 0xDF a && cont b
  | [a; b; c] =>
      (if (a =? 0xE0)%N then between 0xA0 0xBF b
       else if (a =? 0xED)%N then between 0x80 0x9F b
       else between 0xE1 0xEF a && cont b) && cont c
  | [a; b; c; d] =>
      (if (a =? 0xF0)%N then between 0x90 0xBF b
       else if (a =? 0xF4)%N then between 0x80 0x8F b
       else between 0xF1 0xF3 a && cont b) && cont c && cont d
  | _ => false
  end.

Definition emit (octets : list N) (rest : string) : string :=
  fold_right (fun b s => String (ascii_of_N b) s) rest octets.

(** The scanning loop of Decode.  [need] is the number of continuation
    escapes still owed to the multi-byte sequence collected in [octets];
    it is 0 between characters.  Every failure is a URIError. *)
Fixpoint Decode (s : string) (need : nat) (octets : list N) {struct s}
  : option string :=
  match s with
  | EmptyString =>
      match need with
      | O => Some EmptyString
      | S _ => None              (* k + 3*(n-1) >= len *)
      end
  | String c s1 =>
      if decide (c = "%"%char) then
        match s1 with
        | String h1 (String h2 s2) =>
            match ParseHexOctet h1 h2 with
            | None => None
            | Some B =>
                match need with
                | O =>
                    match leadingOnes B with
                    | 0%nat => option_map (String (ascii_of_N B)) (Decode s2 0 [])
                    | 1%nat => None
                    | 2%nat => Decode s2 1 [B]
                    | 3%nat => Decode s2 2 [B]
                    | 4%nat => Decode s2 3 [B]
                    | _ => None
                    end
                | S O =>
                    let o := octets ++ [B] in
                    if validUtf8 o then option_map (emit o) (Decode s2 0 [])
                    else None
                | S m => Decode s2 m (octets ++ [B])
                end
            end
        | _ => None              (* k + 2 >= len *)
        end
      else
        match need with
        | O => option_map (String c) (Decode s1 0 [])
        | S _ => None            (* the code unit at k is not % *)
        end
  end.

Definition decodeURIComponent (s : string) : Result string :=
  match Decode s 0 [] with
  | Some r => Ok r
  | None => Err URIError
  end.

End Uri.

(** ** Path normalisation *)

(** [function normalizeFilepath (str)] *)
Definition normalizeFilepath (str : string) : Result string :=
  match Uri.decodeURIComponent str with
  | Err e => Err e
  | Ok str =>
      if negb (JsString.includes str "://") && negb (JsString.charAt0_is str "/")
      then Ok ("/" +:+ str)
      else Ok str
  end.

(** ** The privileged-sender test *)

Record Sender := { getURL : string }.

Module SenderRegex.

Definition u2028 : string :=
  String (ascii_of_N 0xE2) (String (ascii_of_N 0x80) (String (ascii_of_N 0xA8) EmptyString)).
Definition u2029 : string :=
  String (ascii_of_N 0xE2) (String (ascii_of_N 0x80) (String (ascii_of_N 0xA9) EmptyString)).

(** A line terminator starts here: the characters [.] does not match. *)
Definition lineTerminatorAt (s : string) : bool :=
  String.prefix (String (ascii_of_N 10) EmptyString) s ||
  String.prefix (String (ascii_of_N 13) EmptyString) s ||
  String.prefix u2028 s || String.prefix u2029 s.

(** [hyperdrive\.network(:|\/)] anchored at the head of [s]. *)
Definition hostTail (s : string) : bool :=
  String.prefix "hyperdrive.network:" s || String.prefix "hyperdrive.network/" s.

(** [.*\.] followed by [hostTail], anchored at the head of [s]. *)
Fixpoint dotStarDot (s : string) : bool :=
  match s with
  | EmptyString => false
  | String c s' =>
      (if decide (c = "."%char) then hostTail s' else false) ||
      (negb (lineTerminatorAt s) && dotStarDot s')
  end.

(** [(.*\.)?hyperdrive\.network(:|\/)] anchored at the head of [s]. *)
Definition hostPart (s : string) : bool := hostTail s || dotStarDot s.

Fixpoint dropPrefix (p s : string) : option string :=
  match p, s with
  | EmptyString, _ => Some s
  | String a p', String b s' => if decide (a = b) then dropPrefix p' s' else None
  | String _ _, EmptyString => None
  end.

(** [/^(beaker:|https?:\/\/(.*\.)?hyperdrive\.network(:|\/))/.test(url)] *)
Definition test (url : string) : bool :=
  String.prefix "beaker:" url ||
  match dropPrefix "https://" url with
  | Some rest => hostPart rest
  | None =>
      match dropPrefix "http://" url with
      | Some rest => hostPart rest
      | None => false
      end
  end.

End SenderRegex.

(** [const isSenderBeaker = (sender) => /^(beaker:|...)/.test(sender.getURL())] *)
Definition isSenderBeaker (sender : Sender) : bool :=
  SenderRegex.test (getURL sender).

(** ** Values, drives and URLs *)

(** The JavaScript values that cross the gateway without being inspected. *)
Inductive Value :=
| VUndefined
| VNull
| VBool (b : bool)
| VNum (n : Z)
| VStr (s : string)
| VArr (items : list Value)
| VObj (fields : list (string * Value)).

(** A loaded drive; [key] is [drive.key.toString('hex')]. *)
Record Drive := { key : string; writable : bool }.

(** The [checkoutFS] handle returned by [drives.getDriveCheckout]: the drive
    it views and the version it is pinned to ([None] for the live tip). *)
Record Checkout := { co_key : string; co_version : option string }.

(** The fields of [parseDriveUrl(url)] the gateway reads. *)
Record UrlParts := {
  up_protocol : string;
  up_origin : string;
  up_host : string;
  up_hostname : string;
  up_pathname : string;           (* '' when absent: [urlp.pathname || ''] *)
  up_version : option string
}.

(** The options object of an operation; [None] fields are [undefined]. *)
Record Opts := {
  timeout : option Z;
  encoding : option string;
  includeStats : bool
}.

Definition noOpts : Opts :=
  {| timeout := None; encoding := None; includeStats := false |}.

(** The result of [lookupDrive]. *)
Record Lookup := {
  drive : Drive;
  version : option string;
  isHistoric : bool;
  checkoutFS : Checkout
}.

(** A match record of the query engine. *)
Record Stat := { mtime : Z; ctime : Z }.
Module Entry.
Record t := { path : string; stat : Stat }.
End Entry.
Definition QEntry : Type := Entry.t.

(** The [opts.drive] field of [query]: absent, null, one URL or an array. *)
Inductive DriveOpt :=
| DriveAbsent
| DriveNull
| DriveString (url : string)
| DriveArray (urls : list string).

Record QueryOpts := {
  q_drive : DriveOpt;
  q_filter : Value;               (* path patterns, type, mount, metadata *)
  q_sort : option string;
  q_reverse : bool;
  q_offset : option Z;
  q_limit : option Z;
  q_timeout : option Z
}.

(** ** Calls to the file primitives of pauls-dat-api2 *)

Inductive PrimCall :=
| PdaUpdateManifest (co : Checkout) (updates : list (string * Value))
| PdaDiff (co : Checkout) (other : Value) (prefix : string)
| PdaStat (co : Checkout) (filepath : string)
| PdaReadFile (co : Checkout) (filepath : string) (opts : Opts)
| PdaWriteFile (co : Checkout) (filepath data : string) (opts : Opts)
| PdaUnlink (co : Checkout) (filepath : string)
| PdaReadSize (d : Drive) (srcpath : string)
| PdaCopy (src : Checkout) (srcpath : string) (dst : Checkout) (dstpath : string)
| PdaRename (src : Checkout) (srcpath : string) (dst : Checkout) (dstpath : string)
| PdaUpdateMetadata (co : Checkout) (filepath : string) (metadata : Value)
| PdaDeleteMetadata (co : Checkout) (filepath : string) (keys : Value)
| PdaReaddir (co : Checkout) (filepath : string) (opts : Opts)
| PdaMkdir (co : Checkout) (filepath : string) (opts : option Opts)
| PdaRmdir (co : Checkout) (filepath : string) (opts : Opts)
| PdaSymlink (co : Checkout) (target linkname : string)
| PdaMount (co : Checkout) (filepath : string) (mount : Value)
| PdaUnmount (co : Checkout) (filepath : string)
| PdaWatch (d : Drive) (pathPattern : Value)
| PdaCreateNetworkActivityStream (d : Drive)
| PdaDiffTrees (src dst : Checkout) (opts : Value)
| PdaMerge (src dst : Checkout) (opts : Value)
| PdaExportFilesystemToArchive (dst : Checkout) (opts : Value)
| PdaExportArchiveToFilesystem (src : Checkout) (opts : Value)
| PdaExportArchiveToArchive (src dst : Checkout) (opts : Value).

(** The primitives that change drive content. *)
Definition mutates (c : PrimCall) : bool :=
  match c with
  | PdaUpdateManifest _ _ | PdaWriteFile _ _ _ _ | PdaUnlink _ _
  | PdaCopy _ _ _ _ | PdaRename _ _ _ _ | PdaUpdateMetadata _ _ _
  | PdaDeleteMetadata _ _ _ | PdaMkdir _ _ _ | PdaRmdir _ _ _
  | PdaSymlink _ _ _ | PdaMount _ _ _ | PdaUnmount _ _
  | PdaMerge _ _ _ | PdaExportFilesystemToArchive _ _
  | PdaExportArchiveToArchive _ _ _ => true
  | _ => false
  end.

(** ** The world: permission store, audit log and trace *)

(** Every call that leaves the file is logged, oldest first. *)
Inductive Event :=
| EvTimer (ms : Z)
| EvCheckin (label : string)
| EvPause
| EvResume
| EvGetDrive (driveKey : string)
| EvLoadDrive (driveKey : string)
| EvGetOrLoadDrive (url : string)
| EvGetDriveCheckout (driveKey : string) (version : option string)
| EvGetDriveInfo (driveKey : string)
| EvPullLatestDriveMeta (driveKey : string)
| EvResolveName (name : string)
| EvQueryPermission (perm url : string)
| EvRequestPermission (perm url : string) (title : Value)
| EvGrantPermission (perm url : string)
| EvModal (kind : string) (fields : list (string * Value))
| EvCreateNewDrive (manifest : list (string * Value))
| EvForkDrive (parent : option string) (opts : list (string * Value))
| EvGetForks (url : string)
| EvGetDriveConfig (driveKey : option string)
| EvConfigDrive (url : option string) (settings : list (string * Value))
| EvGetMeta (driveKey : string)
| EvQuery (co : Checkout)
| EvPda (c : PrimCall).

(** Modelled from the spec: the Audit Entry of dbs/audit-log, which is not
    part of this file: actor, action name, target descriptor, optional byte
    size and outcome (the timestamp is left out). *)
Record AuditEntry := {
  ae_caller : string;
  ae_method : string;
  ae_target : list (string * Value);
  ae_writeSize : option Z;
  ae_success : bool
}.

Record World := {
  w_grants : gmap (string * string) bool;  (* (origin, permission) -> decision *)
  w_audit : list AuditEntry;
  w_trace : list Event
}.

Definition emptyWorld : World :=
  {| w_grants := ∅; w_audit := []; w_trace := [] |}.

(** ** The environment: what the imported modules answer *)

(** The string built-ins behind the name comparator of [query]. *)
Record StringOps := {
  toLowerCase : string -> string;
  localeCompare : string -> string -> Z;
  path_basename : string -> string
}.

Record Env := {
  (* lib/const *)
  DRIVE_MANIFEST_FILENAME : string;
  DRIVE_CONFIGURABLE_FIELDS : list string;
  DAT_QUOTA_DEFAULT_BYTES_ALLOWED : Z;
  DEFAULT_DRIVE_API_TIMEOUT : Z;
  HYPERDRIVE_HASH_REGEX_test : string -> bool;
  DRIVE_VALID_PATH_REGEX_test : string -> bool;
  (* lib/urls, URL, Buffer, JSON, String, path *)
  parseDriveUrl : string -> Result UrlParts;
  URL_pathname : string -> Result string;
  Buffer_byteLength : string -> option string -> Z;
  JSON_stringify : list (string * Value) -> string;
  stringOps : StringOps;
  (* hyper/dns *)
  resolveName : string -> Result string;
  (* hyper/drives *)
  getDrive : string -> option Drive;
  drives_loadDrive : string -> Result Drive;
  getOrLoadDrive : string -> Result Drive;
  getDriveCheckout : Drive -> option string -> Result (Checkout * bool);
  getDriveInfo : string -> Result (list (string * Value));
  pullLatestDriveMeta : Drive -> Result unit;
  createNewDrive : list (string * Value) -> Result string;   (* newDrive.url *)
  drives_forkDrive : option string -> list (string * Value) -> Result string;
  (* filesystem/index, web-apis/bg/drives, ui/subwindows/modals *)
  configDrive : option string -> list (string * Value) -> Result unit;
  getDriveConfig : option string -> bool;
  getForks : string -> Result Value;
  modals_create : string -> list (string * Value) -> Result (option string);
  (* dbs/archives; the accounted size may depend on what happened so far *)
  extractOrigin : string -> string;
  getMeta_size : list Event -> string -> Result Z;
  (* ui/permissions: what the user answers to a prompt *)
  userApproves : string -> string -> bool;
  (* pauls-dat-api2 and filesystem/query; [None] from [modals_create]
     above is a result without a url *)
  pda : list Event -> PrimCall -> Result Value;
  pda_readSize : list Event -> Drive -> string -> Result Z;
  fs_query : Checkout -> QueryOpts -> Result (list QEntry)
}.

(** ** The monad of asynchronous gateway code *)

Definition M (A : Type) : Type := World -> Result A * World.

Definition ret {A} (a : A) : M A := fun w => (Ok a, w).
Definition throw {A} (e : Error) : M A := fun w => (Err e, w).
Definition bind {A B} (m : M A) (k : A -> M B) : M B :=
  fun w => match m w with
           | (Ok a, w') => k a w'
           | (Err e, w') => (Err e, w')
           end.
Definition liftR {A} (r : Result A) : M A := fun w => (r, w).

Declare Scope gw_scope.
Delimit Scope gw_scope with gw.
Notation "x <- m ;; k" := (bind m (fun x => k))
  (at level 100, m at next level, right associativity) : gw_scope.
Notation "m ;; k" := (bind m (fun _ => k))
  (at level 100, right associativity) : gw_scope.
Local Open Scope gw_scope.

Definition logEvent (e : Event) : M unit :=
  fun w => (Ok tt, {| w_grants := w_grants w; w_audit := w_audit w;
                      w_trace := w_trace w ++ [e] |}).

(** An awaited call to a collaborator: logged, then answered. *)
Definition call {A} (e : Event) (answer : Result A) : M A :=
  logEvent e ;; liftR answer.

(** A call whose answer depends on what happened before it. *)
Definition callH {A} (e : Event) (answer : list Event -> Result A) : M A :=
  fun w => call e (answer (w_trace w)) w.

(** [try { return await m } catch (e) { return fallback }] *)
Definition tryCatch {A} (m : M A) (fallback : A) : M A :=
  fun w => match m w with
           | (Ok a, w') => (Ok a, w')
           | (Err _, w') => (Ok fallback, w')
           end.

(** The file primitives reached in a trace. *)
Definition prims (t : list Event) : list PrimCall :=
  omap (fun e => match e with EvPda c => Some c | _ => None end) t.

(** The drive-changing primitives reached in a trace. *)
Definition mutations (t : list Event) : list PrimCall :=
  List.filter mutates (prims t).

(** The consent prompts shown in a trace: (permission, sender URL). *)
Definition prompts (t : list Event) : list (string * string) :=
  omap (fun e => match e with
                 | EvRequestPermission perm url _ => Some (perm, url)
                 | _ => None
                 end) t.

(** ** JavaScript array primitives used by [query] *)

Module JsArray.

(** The relative index of [Array.prototype.slice]. *)
Definition relIndex (len i : Z) : Z :=
  if i <? 0 then Z.max (len + i) 0 else Z.min i len.

(** [l.slice(start, end)]; [None] is an omitted [end]. *)
Definition slice {A} (l : list A) (start : Z) (end_ : option Z) : list A :=
  let len := Z.of_nat (length l) in
  let k := relIndex len start in
  let final := match end_ with Some e => relIndex len e | None => len end in
  take (Z.to_nat (final - k)) (drop (Z.to_nat k) l).

(** [l.sort(cmp)]: a stable sort; [cmp a b <= 0] keeps [a] before [b]. *)
Fixpoint insert {A} (cmp : A -> A -> Z) (x : A) (l : list A) : list A :=
  match l with
  | [] => [x]
  | y :: l' => if cmp x y <=? 0 then x :: y :: l' else y :: insert cmp x l'
  end.

Definition sort {A} (cmp : A -> A -> Z) (l : list A) : list A :=
  fold_right (insert cmp) [] l.

End JsArray.

(** A number used as a condition: [undefined] and 0 are falsy. *)
Definition truthyNum (n : option Z) : option Z :=
  match n with
  | Some z => if z =? 0 then None else Some z
  | None => None
  end.

(** The truthiness of a value. *)
Definition truthy (v : Value) : bool :=
  match v with
  | VUndefined | VNull => false
  | VBool b => b
  | VNum n => negb (n =? 0)
  | VStr s => negb (String.eqb s EmptyString)
  | VArr _ | VObj _ => true
  end.

(** [!opts.drive] is false for a non-empty string and for any array. *)
Definition truthyDrive (d : DriveOpt) : bool :=
  match d with
  | DriveAbsent | DriveNull => false
  | DriveString url => negb (String.eqb url EmptyString)
  | DriveArray _ => true
  end.

(** [obj[k]]; an object is the list of its own properties. *)
Fixpoint field (fields : list (string * Value)) (k : string) : Value :=
  match fields with
  | [] => VUndefined
  | (k', v) :: rest => if String.eqb k k' then v else field rest k
  end.

Definition hasField (fields : list (string * Value)) (k : string) : bool :=
  existsb (fun kv => String.eqb k (fst kv)) fields.

(** [delete obj[k]] *)
Definition deleteField (fields : list (string * Value)) (k : string)
  : list (string * Value) :=
  List.filter (fun kv => negb (String.eqb k (fst kv))) fields.

(** lodash [pick(obj, keys)] *)
Definition pick (fields : list (string * Value)) (keys : list string)
  : list (string * Value) :=
  List.filter (fun kv => existsb (String.eqb (fst kv)) keys) fields.

(** [{...v}]: the own enumerable properties of an object or an array. *)
Definition spread (v : Value) : list (string * Value) :=
  match v with
  | VObj fields => fields
  | VArr items => imap (fun i item => (pretty i, item)) items
  | _ => []
  end.

Definition optsValue (o : Opts) : Value :=
  VObj [("timeout", match timeout o with Some t => VNum t | None => VUndefined end);
        ("encoding", match encoding o with Some e => VStr e | None => VUndefined end);
        ("includeStats", VBool (includeStats o))].

Definition optOptsValue (o : option Opts) : Value :=
  match o with Some o => optsValue o | None => VUndefined end.

Definition numValue (n : option Z) : Value :=
  match n with Some z => VNum z | None => VUndefined end.

Definition queryTarget (o : QueryOpts) : list (string * Value) :=
  [("drive", match q_drive o with
             | DriveAbsent => VUndefined
             | DriveNull => VNull
             | DriveString url => VArr [VStr url]
             | DriveArray urls => VArr (map VStr urls)
             end);
   ("filter", q_filter o);
   ("sort", match q_sort o with Some s => VStr s | None => VUndefined end);
   ("reverse", VBool (q_reverse o));
   ("offset", numValue (q_offset o));
   ("limit", numValue (q_limit o));
   ("timeout", numValue (q_timeout o))].

Definition entryValue (e : QEntry) : Value :=
  VObj [("path", VStr (Entry.path e));
        ("stat", VObj [("mtime", VNum (mtime (Entry.stat e)));
                       ("ctime", VNum (ctime (Entry.stat e)))])].

(** ** The re-sort and re-slice of [query] *)

Section Resort.

Variable ops : StringOps.

(** The comparators handed to [results.sort] by [query]. *)
Definition compareName (reverse : bool) (a b : QEntry) : Z :=
  let na := toLowerCase ops (path_basename ops (Entry.path a)) in
  let nb := toLowerCase ops (path_basename ops (Entry.path b)) in
  if reverse then localeCompare ops nb na else localeCompare ops na nb.

Definition compareMtime (reverse : bool) (a b : QEntry) : Z :=
  if reverse then mtime (Entry.stat b) - mtime (Entry.stat a)
  else mtime (Entry.stat a) - mtime (Entry.stat b).

Definition compareCtime (reverse : bool) (a b : QEntry) : Z :=
  if reverse then ctime (Entry.stat b) - ctime (Entry.stat a)
  else ctime (Entry.stat a) - ctime (Entry.stat b).

(** [if (opts.sort === 'name') ... else if (opts.sort === 'mtime') ...] *)
Definition resort (opts : QueryOpts) (results : list QEntry) : list QEntry :=
  if decide (q_sort opts = Some "name")
  then JsArray.sort (compareName (q_reverse opts)) results
  else if decide (q_sort opts = Some "mtime")
  then JsArray.sort (compareMtime (q_reverse opts)) results
  else if decide (q_sort opts = Some "ctime")
  then JsArray.sort (compareCtime (q_reverse opts)) results
  else results.

(** [if (opts.offset && opts.limit) ... else if (opts.offset) ... else if (opts.limit) ...] *)
Definition reslice (opts : QueryOpts) (results : list QEntry) : list QEntry :=
  match truthyNum (q_offset opts), truthyNum (q_limit opts) with
  | Some offset, Some limit => JsArray.slice results offset (Some (offset + limit))
  | Some offset, None => JsArray.slice results offset None
  | None, Some limit => JsArray.slice results 0 (Some limit)
  | None, None => results
  end.

End Resort.

(** ** The gateway *)

Section Gateway.

Variable E : Env.

(** [const to = (opts) => (opts && typeof opts.timeout !== 'undefined') ? opts.timeout : DEFAULT_DRIVE_API_TIMEOUT] *)
Definition to (opts : option Opts) : Z :=
  match opts with
  | Some o =>
      match timeout o with
      | Some t => t
      | None => DEFAULT_DRIVE_API_TIMEOUT E
      end
  | None => DEFAULT_DRIVE_API_TIMEOUT E
  end.

(** Modelled from the spec: [timer] of lib/time, which is not part of this
    file.  It starts a deadline clock and runs the operation, handing it
    [checkin], [pause] and [resume]; the clock itself is not modelled. *)
Definition timer {A} (ms : Z) (fn : M A) : M A :=
  logEvent (EvTimer ms) ;; fn.

Definition checkin (label : string) : M unit := logEvent (EvCheckin label).
Definition pause : M unit := logEvent EvPause.
Definition resume : M unit := logEvent EvResume.

(** Modelled from the spec: [auditLog.record] of dbs/audit-log, which is not
    part of this file.  It runs the operation, appends exactly one Audit
    Entry capturing the attempt, success or failure, and hands back the
    operation's own result or error. *)
Definition record {A} (caller method : string) (target : list (string * Value))
    (writeSize : option Z) (fn : M A) : M A :=
  fun w =>
    match fn w with
    | (r, w') =>
        (r, {| w_grants := w_grants w';
               w_audit := w_audit w' ++
                 [{| ae_caller := caller; ae_method := method;
                     ae_target := target; ae_writeSize := writeSize;
                     ae_success := isOk r |}];
               w_trace := w_trace w' |})
    end.

(** Modelled from the spec: [permissions.queryPermission] of ui/permissions,
    which is not part of this file.  It reads the cached Permission Grant of
    (actor origin, permission), if any. *)
Definition queryPermission (perm : string) (sender : Sender) : M (option bool) :=
  fun w =>
    call (EvQueryPermission perm (getURL sender))
         (Ok (w_grants w !! (extractOrigin E (getURL sender), perm))) w.

(** Modelled from the spec: [permissions.requestPermission] of
    ui/permissions, which is not part of this file.  It puts the consent
    request to the user; an approval becomes a new cached Grant. *)
Definition requestPermission (perm : string) (sender : Sender) (title : Value)
  : M bool :=
  logEvent (EvRequestPermission perm (getURL sender) title) ;;
  if userApproves E perm (getURL sender)
  then fun w =>
         (Ok true,
          {| w_grants := <[(extractOrigin E (getURL sender), perm) := true]> (w_grants w);
             w_audit := w_audit w; w_trace := w_trace w |})
  else ret false.

(** Modelled from the spec: [permissions.grantPermission] of
    ui/permissions, which is not part of this file.  It stores a Grant. *)
Definition grantPermission (perm url : string) : M unit :=
  fun w =>
    (Ok tt,
     {| w_grants := <[(extractOrigin E url, perm) := true]> (w_grants w);
        w_audit := w_audit w;
        w_trace := w_trace w ++ [EvGrantPermission perm url] |}).

(** [archivesDb.getMeta(drive.key)], of which only [meta.size] is read. *)
Definition getMeta (driveKey : string) : M Z :=
  callH (EvGetMeta driveKey) (fun h => getMeta_size E h driveKey).

(** A file primitive of the checkout. *)
Definition pdaCall (c : PrimCall) : M Value :=
  callH (EvPda c) (fun h => pda E h c).

(** *** Internal helpers *)

(** [function assertUnprotectedFilePath (filepath, sender)] *)
Definition assertUnprotectedFilePath (filepath : string) (sender : Sender)
  : M unit :=
  if isSenderBeaker sender then ret tt  (* can write any file *)
  else if String.eqb filepath ("/" +:+ DRIVE_MANIFEST_FILENAME E)
       then throw ProtectedFileNotWritableError
       else ret tt.

(** [function assertBeakerOnly (sender)] *)
Definition assertBeakerOnly (sender : Sender) : M unit :=
  if negb (isSenderBeaker sender) then throw PermissionsError else ret tt.

(** [async function lookupUrlDriveKey (url)]; [None] is the [false] returned
    for a sender that is not a drive site. *)
Definition lookupUrlDriveKey (url : string) : M (option string) :=
  if HYPERDRIVE_HASH_REGEX_test E url then ret (Some url)
  else if negb (JsString.startsWith url "hyper://") then ret None
  else
    urlp <- liftR (parseDriveUrl E url) ;;
    tryCatch
      (k <- call (EvResolveName (up_hostname urlp)) (resolveName E (up_hostname urlp)) ;;
       ret (Some k))
      None.

(** [async function assertCreateDrivePermission (sender)] *)
Definition assertCreateDrivePermission (sender : Sender) : M unit :=
  (* beaker: always allowed *)
  if isSenderBeaker sender then ret tt
  else
    (* ask the user *)
    allowed <- requestPermission "createDrive" sender VUndefined ;;
    if negb allowed then throw UserDeniedError
    else ret tt.

(** [async function assertWritePermission (drive, sender)] *)
Definition assertWritePermission (d : Drive) (sender : Sender) : M bool :=
  let newDriveKey := key d in
  details <- call (EvGetDriveInfo newDriveKey) (getDriveInfo E newDriveKey) ;;
  let perm := "modifyDrive:" +:+ newDriveKey in
  (* beaker: always allowed *)
  if isSenderBeaker sender then ret true
  else
    (* self-modification ALWAYS allowed *)
    senderDatKey <- lookupUrlDriveKey (getURL sender) ;;
    if decide (senderDatKey = Some newDriveKey) then ret true
    else
      (* ensure the sender is allowed to write *)
      allowed <- queryPermission perm sender ;;
      if decide (allowed = Some true) then ret true
      else
        (* ask the user *)
        allowed <- requestPermission perm sender (field details "title") ;;
        if negb allowed then throw UserDeniedError
        else ret true.

(** [async function assertQuotaPermission (drive, senderOrigin, byteLength)] *)
Definition assertQuotaPermission (d : Drive) (senderOrigin : string)
    (byteLength : Z) : M unit :=
  (* beaker: always allowed *)
  if JsString.startsWith senderOrigin "beaker:" then ret tt
  else
    (* fetch the drive meta *)
    size <- getMeta (key d) ;;
    (* fallback to default quota *)
    let bytesAllowed := DAT_QUOTA_DEFAULT_BYTES_ALLOWED E in
    (* check the new size *)
    let newSize := size + byteLength in
    if newSize >? bytesAllowed then throw QuotaExceededError
    else ret tt.

(** [function assertValidPath (fileOrFolderPath)] *)
Definition assertValidPath (fileOrFolderPath : string) : M unit :=
  if negb (DRIVE_VALID_PATH_REGEX_test E fileOrFolderPath)
  then throw InvalidPathError
  else ret tt.

(** [function assertValidFilePath (filepath)] *)
Definition assertValidFilePath (filepath : string) : M unit :=
  if decide (JsString.lastChar filepath = Some "/"%char)
  then throw InvalidPathError
  else assertValidPath filepath.

(** [export async function lookupDrive (sender, driveKey, version)] *)
Definition lookupDrive (sender : Sender) (driveKey : string)
    (version : option string) : M Lookup :=
  found <- call (EvGetDrive driveKey) (Ok (getDrive E driveKey)) ;;
  d <- match found with
       | Some d => ret d
       | None => call (EvLoadDrive driveKey) (drives_loadDrive E driveKey)
       end ;;
  co <- call (EvGetDriveCheckout (key d) version) (getDriveCheckout E d version) ;;
  ret {| drive := d; version := version;
         isHistoric := snd co; checkoutFS := fst co |}.

(** *** The exported API; [sender] is [this.sender] *)

(** [try { res = await modals.create(...) } catch (e) { if (e.name !== 'Error') throw e }]
    followed by [if (!res || !res.url) throw new UserDeniedError()]. *)
Definition runModal (kind : string) (fields : list (string * Value))
  : M string :=
  res <- (fun w =>
            match call (EvModal kind fields) (modals_create E kind fields) w with
            | (Err e, w') =>
                if isPlainError e then (Ok None, w') else (Err e, w')
            | ok => ok
            end) ;;
  match res with
  | Some url => if String.eqb url EmptyString then throw UserDeniedError else ret url
  | None => throw UserDeniedError
  end.

(** [prompt !== false] *)
Definition wantsPrompt (prompt : option bool) : bool :=
  match prompt with Some false => false | _ => true end.

(** ['...' + key], where [key] may be the [false] of [lookupUrlDriveKey]. *)
Definition keyText (k : option string) : string :=
  match k with Some k => k | None => "false" end.

Definition keyValue (k : option string) : Value :=
  match k with Some k => VStr k | None => VBool false end.

(** [async createDrive ({title, description, author, visibility, prompt} = {})] *)
Definition createDrive (sender : Sender)
    (title description author visibility : Value) (prompt : option bool)
  : M string :=
  (* only allow these vars to be set by beaker, for now *)
  let visibility := if negb (isSenderBeaker sender) then VUndefined else visibility in
  let author := if negb (isSenderBeaker sender) then VUndefined else author in
  newDriveUrl <-
    (if wantsPrompt prompt
     then
       (* run the creation modal *)
       runModal "create-drive"
         [("title", title); ("description", description);
          ("author", author); ("visibility", visibility)]
     else
       (* no modal, ask for permission *)
       assertCreateDrivePermission sender ;;
       (* create *)
       let manifest := [("title", title); ("description", description)] in
       url <- call (EvCreateNewDrive manifest) (createNewDrive E manifest) ;;
       call (EvConfigDrive (Some url) [("seeding", VBool true)])
            (configDrive E (Some url) [("seeding", VBool true)]) ;;
       ret url) ;;
  newDriveKey <- lookupUrlDriveKey newDriveUrl ;;
  (if negb (isSenderBeaker sender)
   then
     (* grant write permissions to the creating app *)
     grantPermission ("modifyDrive:" +:+ keyText newDriveKey) (getURL sender)
   else ret tt) ;;
  ret newDriveUrl.

(** [async forkDrive (url, {detached, title, description, label, prompt} = {})] *)
Definition forkDrive (sender : Sender) (url : string)
    (detached title description label : Value) (prompt : option bool)
  : M string :=
  (* only allow these vars to be set by beaker, for now *)
  let beaker := isSenderBeaker sender in
  let title := if beaker then title else VUndefined in
  let description := if beaker then description else VUndefined in
  let detached := if beaker then detached else VUndefined in
  let label := if beaker then label else VUndefined in
  let prompt := if beaker then prompt else None in
  if wantsPrompt prompt
  then
    (* run the fork modal *)
    forks <- call (EvGetForks url) (getForks E url) ;;
    runModal "fork-drive"
      [("url", VStr url); ("forks", forks); ("detached", detached);
       ("label", label)]
  else
    (* no modal, ask for permission *)
    assertCreateDrivePermission sender ;;
    k <- lookupUrlDriveKey url ;;
    (* save the parent if needed *)
    configured <- call (EvGetDriveConfig k) (Ok (getDriveConfig E k)) ;;
    (if negb configured
     then call (EvConfigDrive k []) (configDrive E k [])
     else ret tt) ;;
    (* create *)
    let forkOpts :=
      [("title", if truthy detached then title else VUndefined);
       ("description", if truthy detached then description else VUndefined);
       ("detached", detached)] in
    newUrl <- call (EvForkDrive k forkOpts) (drives_forkDrive E k forkOpts) ;;
    let settings :=
      [("seeding", VBool true);
       ("forkOf", if truthy detached then VUndefined
                  else VObj [("key", keyValue k); ("label", label)])] in
    call (EvConfigDrive (Some newUrl) settings)
         (configDrive E (Some newUrl) settings) ;;
    ret newUrl.

(** [async loadDrive (url)] *)
Definition loadDrive (sender : Sender) (url : Value) : M bool :=
  match url with
  | VStr u =>
      if String.eqb u EmptyString then throw InvalidURLError
      else
        call (EvGetOrLoadDrive u) (getOrLoadDrive E u) ;;
        ret true
  | _ => throw InvalidURLError
  end.

(** [async getInfo (url, opts = {})] *)
Definition getInfo (sender : Sender) (url : string) (opts : Opts) : M Value :=
  record (getURL sender) "getInfo" [("url", VStr url)] None (
    timer (to (Some opts)) (
      info <- call (EvGetDriveInfo url) (getDriveInfo E url) ;;
      (* request from beaker internal sites: give all data *)
      if isSenderBeaker sender then ret (VObj info)
      else
        (* request from userland: return a subset of the data *)
        ret (VObj [("key", field info "key");
                   ("url", field info "url");
                   ("writable", field info "writable");
                   ("version", field info "version");
                   ("peers", field info "peers");
                   ("title", field info "title");
                   ("description", field info "description")]))).

(** [async configure (url, settings, opts)] *)
Definition configure (sender : Sender) (url : string) (settings : Value)
    (opts : option Opts) : M Value :=
  record (getURL sender) "configure"
    (("url", VStr url) :: spread settings) None (
    timer (to opts) (
      checkin "looking up drive" ;;
      urlp <- liftR (parseDriveUrl E url) ;;
      l <- lookupDrive sender (up_hostname urlp) (up_version urlp) ;;
      if isHistoric l then throw ArchiveNotWritableError
      else
        match settings with
        | VObj _ | VArr _ =>
            let fields := match settings with VObj f => f | _ => [] end in
            (* only allow beaker to set these manifest updates for now *)
            let fields :=
              if negb (isSenderBeaker sender) then deleteField fields "author"
              else fields in
            (* manifest updates *)
            let manifestUpdates := pick fields (DRIVE_CONFIGURABLE_FIELDS E) in
            match manifestUpdates with
            | [] => ret VUndefined  (* no manifest updates *)
            | _ =>
                pause ;;
                let senderOrigin := extractOrigin E (getURL sender) in
                assertWritePermission (drive l) sender ;;
                assertQuotaPermission (drive l) senderOrigin
                  (Buffer_byteLength E (JSON_stringify E fields) (Some "utf8")) ;;
                resume ;;
                checkin "updating drive" ;;
                pdaCall (PdaUpdateManifest (checkoutFS l) manifestUpdates) ;;
                call (EvPullLatestDriveMeta (key (drive l)))
                     (pullLatestDriveMeta E (drive l)) ;;
                ret VUndefined
            end
        | _ => throw (GenericError "Invalid argument")
        end)).

(** [async diff (url, other, opts = {})] *)
Definition diff (sender : Sender) (url : string) (other : Value) (opts : Opts)
  : M Value :=
  urlp <- liftR (parseDriveUrl E url) ;;
  let url := up_origin urlp in
  let prefix := up_pathname urlp in
  record (getURL sender) "diff"
    [("url", VStr url); ("other", other); ("prefix", VStr prefix)] None (
    timer (to (Some opts)) (
      checkin "looking up drive" ;;
      l <- lookupDrive sender url (up_version urlp) ;;
      checkin "diffing" ;;
      pdaCall (PdaDiff (checkoutFS l) other prefix))).

(** [async stat (url, opts = {})] *)
Definition stat (sender : Sender) (url : string) (opts : Opts) : M Value :=
  urlp <- liftR (parseDriveUrl E url) ;;
  let url := up_origin urlp in
  filepath <- liftR (normalizeFilepath (up_pathname urlp)) ;;
  record (getURL sender) "stat"
    [("url", VStr url); ("filepath", VStr filepath)] None (
    timer (to (Some opts)) (
      checkin "looking up drive" ;;
      l <- lookupDrive sender (up_hostname urlp) (up_version urlp) ;;
      checkin "stating file" ;;
      pdaCall (PdaStat (checkoutFS l) filepath))).

(** [async readFile (url, opts = {})] *)
Definition readFile (sender : Sender) (url : string) (opts : Opts) : M Value :=
  urlp <- liftR (parseDriveUrl E url) ;;
  let url := up_origin urlp in
  filepath <- liftR (normalizeFilepath (up_pathname urlp)) ;;
  record (getURL sender) "readFile"
    [("url", VStr url); ("filepath", VStr filepath); ("opts", optsValue opts)]
    None (
    timer (to (Some opts)) (
      checkin "looking up drive" ;;
      l <- lookupDrive sender (up_hostname urlp) (up_version urlp) ;;
      checkin "reading file" ;;
      pdaCall (PdaReadFile (checkoutFS l) filepath opts))).

(** [async writeFile (url, data, opts = {})] *)
Definition writeFile (sender : Sender) (url data : string) (opts : Opts)
  : M Value :=
  urlp <- liftR (parseDriveUrl E url) ;;
  let url := up_origin urlp in
  filepath <- liftR (normalizeFilepath (up_pathname urlp)) ;;
  let sourceSize := Buffer_byteLength E data (encoding opts) in
  record (getURL sender) "writeFile"
    [("url", VStr url); ("filepath", VStr filepath)] (Some sourceSize) (
    timer (to (Some opts)) (
      checkin "looking up drive" ;;
      l <- lookupDrive sender (up_hostname urlp) (up_version urlp) ;;
      if isHistoric l then throw ArchiveNotWritableError
      else
        pause ;;  (* dont count against timeout, there may be user prompts *)
        let senderOrigin := extractOrigin E (getURL sender) in
        assertWritePermission (drive l) sender ;;
        assertQuotaPermission (drive l) senderOrigin sourceSize ;;
        assertValidFilePath filepath ;;
        assertUnprotectedFilePath filepath sender ;;
        resume ;;
        checkin "writing file" ;;
        pdaCall (PdaWriteFile (checkoutFS l) filepath data opts))).

(** [async unlink (url, opts = {})] *)
Definition unlink (sender : Sender) (url : string) (opts : Opts) : M Value :=
  urlp <- liftR (parseDriveUrl E url) ;;
  let url := up_origin urlp in
  filepath <- liftR (normalizeFilepath (up_pathname urlp)) ;;
  record (getURL sender) "unlink"
    [("url", VStr url); ("filepath", VStr filepath)] None (
    timer (to (Some opts)) (
      checkin "looking up drive" ;;
      l <- lookupDrive sender (up_hostname urlp) (up_version urlp) ;;
      if isHistoric l then throw ArchiveNotWritableError
      else
        pause ;;
        assertWritePermission (drive l) sender ;;
        assertUnprotectedFilePath filepath sender ;;
        resume ;;
        checkin "deleting file" ;;
        pdaCall (PdaUnlink (checkoutFS l) filepath))).

(** [(new URL(p)).pathname] when [p] is a foreign-scheme reference. *)
Definition stripScheme (p : string) : M string :=
  if JsString.includes p "://" then liftR (URL_pathname E p) else ret p.

(** [async copy (url, dstpath, opts = {})]; [dstpath] is [''] when absent. *)
Definition copy (sender : Sender) (url dstpath : string) (opts : Opts)
  : M Value :=
  urlp <- liftR (parseDriveUrl E url) ;;
  let url := up_origin urlp in
  srcpath <- liftR (normalizeFilepath (up_pathname urlp)) ;;
  dstpath <- liftR (normalizeFilepath dstpath) ;;
  src <- lookupDrive sender (up_hostname urlp) (up_version urlp) ;;
  sourceSize <- callH (EvPda (PdaReadSize (drive src) srcpath))
                  (fun h => pda_readSize E h (drive src) srcpath) ;;
  record (getURL sender) "copy"
    [("url", VStr url); ("srcpath", VStr srcpath); ("dstpath", VStr dstpath)]
    (Some sourceSize) (
    timer (to (Some opts)) (
      checkin "searching for drive" ;;
      dst <- lookupDrive sender
               (if JsString.includes dstpath "://" then dstpath else url) None ;;
      srcpath <- stripScheme srcpath ;;
      dstpath <- stripScheme dstpath ;;
      pause ;;
      let senderOrigin := extractOrigin E (getURL sender) in
      assertWritePermission (drive dst) sender ;;
      assertUnprotectedFilePath dstpath sender ;;
      assertQuotaPermission (drive dst) senderOrigin sourceSize ;;
      resume ;;
      checkin "copying" ;;
      pdaCall (PdaCopy (checkoutFS src) srcpath (checkoutFS dst) dstpath))).

(** [async rename (url, dstpath, opts = {})] *)
Definition rename (sender : Sender) (url dstpath : string) (opts : Opts)
  : M Value :=
  urlp <- liftR (parseDriveUrl E url) ;;
  let url := up_origin urlp in
  srcpath <- liftR (normalizeFilepath (up_pathname urlp)) ;;
  dstpath <- liftR (normalizeFilepath dstpath) ;;
  record (getURL sender) "rename"
    [("url", VStr url); ("srcpath", VStr srcpath); ("dstpath", VStr dstpath)]
    None (
    timer (to (Some opts)) (
      checkin "searching for drive" ;;
      src <- lookupDrive sender (up_hostname urlp) (up_version urlp) ;;
      dst <- lookupDrive sender
               (if JsString.includes dstpath "://" then dstpath else url) None ;;
      srcpath <- stripScheme srcpath ;;
      dstpath <- stripScheme dstpath ;;
      pause ;;
      assertWritePermission (drive dst) sender ;;
      assertValidPath dstpath ;;
      assertUnprotectedFilePath srcpath sender ;;
      assertUnprotectedFilePath dstpath sender ;;
      resume ;;
      checkin "renaming file" ;;
      pdaCall (PdaRename (checkoutFS src) srcpath (checkoutFS dst) dstpath))).

(** [async updateMetadata (url, metadata, opts = {})] *)
Definition updateMetadata (sender : Sender) (url : string) (metadata : Value)
    (opts : Opts) : M Value :=
  urlp <- liftR (parseDriveUrl E url) ;;
  let url := up_origin urlp in
  filepath <- liftR (normalizeFilepath (up_pathname urlp)) ;;
  record (getURL sender) "updateMetadata"
    [("url", VStr url); ("filepath", VStr filepath); ("metadata", metadata)]
    None (
    timer (to (Some opts)) (
      checkin "looking up drive" ;;
      l <- lookupDrive sender (up_hostname urlp) (up_version urlp) ;;
      if isHistoric l then throw ArchiveNotWritableError
      else
        pause ;;
        assertWritePermission (drive l) sender ;;
        assertValidPath filepath ;;
        resume ;;
        checkin "updating metadata" ;;
        pdaCall (PdaUpdateMetadata (checkoutFS l) filepath metadata))).

(** [async deleteMetadata (url, keys, opts = {})] *)
Definition deleteMetadata (sender : Sender) (url : string) (keys : Value)
    (opts : Opts) : M Value :=
  urlp <- liftR (parseDriveUrl E url) ;;
  let url := up_origin urlp in
  filepath <- liftR (normalizeFilepath (up_pathname urlp)) ;;
  record (getURL sender) "deleteMetadata"
    [("url", VStr url); ("filepath", VStr filepath); ("keys", keys)] None (
    timer (to (Some opts)) (
      checkin "looking up drive" ;;
      l <- lookupDrive sender (up_hostname urlp) (up_version urlp) ;;
      if isHistoric l then throw ArchiveNotWritableError
      else
        pause ;;
        assertWritePermission (drive l) sender ;;
        assertValidPath filepath ;;
        resume ;;
        checkin "updating metadata" ;;
        pdaCall (PdaDeleteMetadata (checkoutFS l) filepath keys))).

(** [names.map(obj => ({name: obj.name, stat: obj.stat}))] *)
Definition nameAndStat (names : Value) : Result Value :=
  match names with
  | VArr items =>
      if existsb (fun v => match v with VUndefined | VNull => true | _ => false end) items
      then Err TypeError
      else Ok (VArr (map (fun v =>
             match v with
             | VObj f => VObj [("name", field f "name"); ("stat", field f "stat")]
             | _ => VObj [("name", VUndefined); ("stat", VUndefined)]
             end) items))
  | _ => Err TypeError
  end.

(** [async readdir (url, opts = {})] *)
Definition readdir (sender : Sender) (url : string) (opts : Opts) : M Value :=
  urlp <- liftR (parseDriveUrl E url) ;;
  let url := up_origin urlp in
  filepath <- liftR (normalizeFilepath (up_pathname urlp)) ;;
  record (getURL sender) "readdir"
    [("url", VStr url); ("filepath", VStr filepath); ("opts", optsValue opts)]
    None (
    timer (to (Some opts)) (
      checkin "searching for drive" ;;
      l <- lookupDrive sender (up_hostname urlp) (up_version urlp) ;;
      checkin "reading directory" ;;
      names <- pdaCall (PdaReaddir (checkoutFS l) filepath opts) ;;
      if includeStats opts then liftR (nameAndStat names) else ret names)).

(** [async mkdir (url, opts)] *)
Definition mkdir (sender : Sender) (url : string) (opts : option Opts)
  : M Value :=
  urlp <- liftR (parseDriveUrl E url) ;;
  let url := up_origin urlp in
  filepath <- liftR (normalizeFilepath (up_pathname urlp)) ;;
  record (getURL sender) "mkdir"
    [("url", VStr url); ("filepath", VStr filepath); ("opts", optOptsValue opts)]
    None (
    timer (to opts) (
      checkin "searching for drive" ;;
      l <- lookupDrive sender (up_hostname urlp) (up_version urlp) ;;
      if isHistoric l then throw ArchiveNotWritableError
      else
        pause ;;
        assertWritePermission (drive l) sender ;;
        assertValidPath filepath ;;
        assertUnprotectedFilePath filepath sender ;;
        resume ;;
        checkin "making directory" ;;
        pdaCall (PdaMkdir (checkoutFS l) filepath opts))).

(** [async rmdir (url, opts = {})] *)
Definition rmdir (sender : Sender) (url : string) (opts : Opts) : M Value :=
  urlp <- liftR (parseDriveUrl E url) ;;
  let url := up_origin urlp in
  filepath <- liftR (normalizeFilepath (up_pathname urlp)) ;;
  record (getURL sender) "rmdir"
    [("url", VStr url); ("filepath", VStr filepath); ("opts", optsValue opts)]
    None (
    timer (to (Some opts)) (
      checkin "searching for drive" ;;
      l <- lookupDrive sender (up_hostname urlp) (up_version urlp) ;;
      if isHistoric l then throw ArchiveNotWritableError
      else
        pause ;;
        assertWritePermission (drive l) sender ;;
        assertUnprotectedFilePath filepath sender ;;
        resume ;;
        checkin "removing directory" ;;
        pdaCall (PdaRmdir (checkoutFS l) filepath opts))).

(** [async symlink (url, linkname, opts)]; [linkname] is [''] when absent. *)
Definition symlink (sender : Sender) (url linkname : string)
    (opts : option Opts) : M Value :=
  urlp <- liftR (parseDriveUrl E url) ;;
  let url := up_origin urlp in
  target <- liftR (normalizeFilepath (up_pathname urlp)) ;;
  linkname <- liftR (normalizeFilepath linkname) ;;
  record (getURL sender) "symlink"
    [("url", VStr url); ("target", VStr target); ("linkname", VStr linkname)]
    None (
    timer (to opts) (
      checkin "searching for drive" ;;
      l <- lookupDrive sender (up_hostname urlp) (up_version urlp) ;;
      if isHistoric l then throw ArchiveNotWritableError
      else
        pause ;;
        assertWritePermission (drive l) sender ;;
        assertValidPath linkname ;;
        assertUnprotectedFilePath linkname sender ;;
        resume ;;
        checkin "symlinking" ;;
        pdaCall (PdaSymlink (checkoutFS l) target linkname))).

(** [async mount (url, mount, opts)] *)
Definition mount (sender : Sender) (url : string) (mnt : Value)
    (opts : option Opts) : M Value :=
  urlp <- liftR (parseDriveUrl E url) ;;
  let url := up_origin urlp in
  filepath <- liftR (normalizeFilepath (up_pathname urlp)) ;;
  record (getURL sender) "mount"
    [("url", VStr url); ("filepath", VStr filepath); ("opts", optOptsValue opts)]
    None (
    timer (to opts) (
      checkin "searching for drive" ;;
      l <- lookupDrive sender (up_hostname urlp) (up_version urlp) ;;
      if isHistoric l then throw ArchiveNotWritableError
      else
        pause ;;
        assertWritePermission (drive l) sender ;;
        assertValidPath filepath ;;
        assertUnprotectedFilePath filepath sender ;;
        resume ;;
        checkin "mounting drive" ;;
        pdaCall (PdaMount (checkoutFS l) filepath mnt))).

(** [async unmount (url, opts = {})] *)
Definition unmount (sender : Sender) (url : string) (opts : Opts) : M Value :=
  urlp <- liftR (parseDriveUrl E url) ;;
  let url := up_origin urlp in
  filepath <- liftR (normalizeFilepath (up_pathname urlp)) ;;
  record (getURL sender) "unmount"
    [("url", VStr url); ("filepath", VStr filepath); ("opts", optsValue opts)]
    None (
    timer (to (Some opts)) (
      checkin "searching for drive" ;;
      l <- lookupDrive sender (up_hostname urlp) (up_version urlp) ;;
      if isHistoric l then throw ArchiveNotWritableError
      else
        pause ;;
        assertWritePermission (drive l) sender ;;
        assertUnprotectedFilePath filepath sender ;;
        resume ;;
        checkin "unmounting drive" ;;
        pdaCall (PdaUnmount (checkoutFS l) filepath))).

(** The loop that replaces every [opts.drive[i]] by its checkout. *)
Fixpoint resolveDrives (sender : Sender) (urls : list string)
  : M (list Checkout) :=
  match urls with
  | [] => ret []
  | u :: rest =>
      urlp <- liftR (parseDriveUrl E u) ;;
      l <- lookupDrive sender (up_hostname urlp) (up_version urlp) ;;
      cos <- resolveDrives sender rest ;;
      ret (checkoutFS l :: cos)
  end.

(** [Promise.all]: the first rejection, or every result. *)
Fixpoint promiseAll {A} (rs : list (Result A)) : Result (list A) :=
  match rs with
  | [] => Ok []
  | Err e :: _ => Err e
  | Ok a :: rest =>
      match promiseAll rest with
      | Ok l => Ok (a :: l)
      | Err e => Err e
      end
  end.

(** [opts.drive.map(drive => query(drive, opts))]: every query is started. *)
Fixpoint startQueries (opts : QueryOpts) (cos : list Checkout)
  : M (list (Result (list QEntry))) :=
  match cos with
  | [] => ret []
  | co :: rest =>
      logEvent (EvQuery co) ;;
      rs <- startQueries opts rest ;;
      ret (fs_query E co opts :: rs)
  end.

(** [async query (opts)] *)
Definition query (sender : Sender) (opts : QueryOpts) : M (list QEntry) :=
  if negb (truthyDrive (q_drive opts)) then ret []
  else
    let urls := match q_drive opts with
                | DriveArray urls => urls
                | DriveString url => [url]
                | _ => []
                end in
    record (getURL sender) "query" (queryTarget opts) None (
      timer (match q_timeout opts with
             | Some t => t
             | None => DEFAULT_DRIVE_API_TIMEOUT E
             end) (
        checkin "looking up drives" ;;
        cos <- resolveDrives sender urls ;;
        checkin "running query" ;;
        started <- startQueries opts cos ;;
        queriesResults <- liftR (promiseAll started) ;;
        let results := concat queriesResults in
        if 1 <? Z.of_nat (length urls)
        then
          (* HACK resort and slice here because each query was run separately *)
          ret (reslice opts (resort (stringOps E) opts results))
        else ret results)).

(** [async watch (url, pathPattern)] *)
Definition watch (sender : Sender) (url : string) (pathPattern : Value)
  : M Value :=
  l <- lookupDrive sender url None ;;
  pdaCall (PdaWatch (drive l) pathPattern).

(** [async createNetworkActivityStream (url)] *)
Definition createNetworkActivityStream (sender : Sender) (url : string)
  : M Value :=
  l <- lookupDrive sender url None ;;
  pdaCall (PdaCreateNetworkActivityStream (drive l)).

(** [Promise.all([a, b])]: both are started; the first rejection wins. *)
Definition both {A B} (a : M A) (b : M B) : M (A * B) :=
  fun w =>
    match a w with
    | (ra, w1) =>
        match b w1 with
        | (rb, w2) =>
            (match ra, rb with
             | Ok x, Ok y => Ok (x, y)
             | Err e, _ => Err e
             | Ok _, Err e => Err e
             end, w2)
        end
    end.

(** [!url || typeof url !== 'string'] *)
Definition urlArgument (url : Value) : M string :=
  match url with
  | VStr u => if String.eqb u EmptyString then throw InvalidURLError else ret u
  | _ => throw InvalidURLError
  end.

(** [async beakerDiff (srcUrl, dstUrl, opts)] *)
Definition beakerDiff (sender : Sender) (srcUrl dstUrl opts : Value)
  : M Value :=
  assertBeakerOnly sender ;;
  srcUrl <- urlArgument srcUrl ;;
  dstUrl <- urlArgument dstUrl ;;
  sd <- both (lookupDrive sender srcUrl None) (lookupDrive sender dstUrl None) ;;
  pdaCall (PdaDiffTrees (checkoutFS (fst sd)) (checkoutFS (snd sd)) opts).

(** [async beakerMerge (srcUrl, dstUrl, opts)] *)
Definition beakerMerge (sender : Sender) (srcUrl dstUrl opts : Value)
  : M Value :=
  assertBeakerOnly sender ;;
  srcUrl <- urlArgument srcUrl ;;
  dstUrl <- urlArgument dstUrl ;;
  sd <- both (lookupDrive sender srcUrl None) (lookupDrive sender dstUrl None) ;;
  if negb (writable (drive (snd sd))) then throw ArchiveNotWritableError
  else if isHistoric (snd sd) then throw ArchiveNotWritableError
  else pdaCall (PdaMerge (checkoutFS (fst sd)) (checkoutFS (snd sd)) opts).

(** [async importFromFilesystem (opts)]; [dst] is [opts.dst]. *)
Definition importFromFilesystem (sender : Sender) (dst : string) (opts : Value)
  : M Value :=
  assertBeakerOnly sender ;;
  l <- lookupDrive sender dst None ;;
  if isHistoric l then throw ArchiveNotWritableError
  else pdaCall (PdaExportFilesystemToArchive (checkoutFS l) opts).

(** [async exportToFilesystem (opts)]; [src] is [opts.src]. *)
Definition exportToFilesystem (sender : Sender) (src : string) (opts : Value)
  : M Value :=
  assertBeakerOnly sender ;;
  l <- lookupDrive sender src None ;;
  pdaCall (PdaExportArchiveToFilesystem (checkoutFS l) opts).

(** [async exportToDrive (opts)]; [src] and [dst] are [opts.src], [opts.dst]. *)
Definition exportToDrive (sender : Sender) (src dst : string) (opts : Value)
  : M Value :=
  assertBeakerOnly sender ;;
  s <- lookupDrive sender src None ;;
  d <- lookupDrive sender dst None ;;
  if isHistoric d then throw ArchiveNotWritableError
  else pdaCall (PdaExportArchiveToArchive (checkoutFS s) (checkoutFS d) opts).

(** *** The calls a sender can make *)

Inductive ApiCall :=
| CreateDrive (title description author visibility : Value) (prompt : option bool)
| ForkDrive (url : string) (detached title description label : Value)
    (prompt : option bool)
| LoadDrive (url : Value)
| GetInfo (url : string) (opts : Opts)
| Configure (url : string) (settings : Value) (opts : option Opts)
| Diff (url : string) (other : Value) (opts : Opts)
| StatOf (url : string) (opts : Opts)
| ReadFile (url : string) (opts : Opts)
| WriteFile (url data : string) (opts : Opts)
| Unlink (url : string) (opts : Opts)
| Copy (url dstpath : string) (opts : Opts)
| Rename (url dstpath : string) (opts : Opts)
| UpdateMetadata (url : string) (metadata : Value) (opts : Opts)
| DeleteMetadata (url : string) (keys : Value) (opts : Opts)
| Readdir (url : string) (opts : Opts)
| Mkdir (url : string) (opts : option Opts)
| Rmdir (url : string) (opts : Opts)
| Symlink (url linkname : string) (opts : option Opts)
| Mount (url : string) (mnt : Value) (opts : option Opts)
| Unmount (url : string) (opts : Opts)
| Query (opts : QueryOpts)
| Watch (url : string) (pathPattern : Value)
| CreateNetworkActivityStream (url : string)
| BeakerDiff (srcUrl dstUrl opts : Value)
| BeakerMerge (srcUrl dstUrl opts : Value)
| ImportFromFilesystem (dst : string) (opts : Value)
| ExportToFilesystem (src : string) (opts : Value)
| ExportToDrive (src dst : string) (opts : Value).

Definition invoke (sender : Sender) (c : ApiCall) : M Value :=
  match c with
  | CreateDrive title description author visibility prompt =>
      u <- createDrive sender title description author visibility prompt ;;
      ret (VStr u)
  | ForkDrive url detached title description label prompt =>
      u <- forkDrive sender url detached title description label prompt ;;
      ret (VStr u)
  | LoadDrive url => b <- loadDrive sender url ;; ret (VBool b)
  | GetInfo url opts => getInfo sender url opts
  | Configure url settings opts => configure sender url settings opts
  | Diff url other opts => diff sender url other opts
  | StatOf url opts => stat sender url opts
  | ReadFile url opts => readFile sender url opts
  | WriteFile url data opts => writeFile sender url data opts
  | Unlink url opts => unlink sender url opts
  | Copy url dstpath opts => copy sender url dstpath opts
  | Rename url dstpath opts => rename sender url dstpath opts
  | UpdateMetadata url metadata opts => updateMetadata sender url metadata opts
  | DeleteMetadata url keys opts => deleteMetadata sender url keys opts
  | Readdir url opts => readdir sender url opts
  | Mkdir url opts => mkdir sender url opts
  | Rmdir url opts => rmdir sender url opts
  | Symlink url linkname opts => symlink sender url linkname opts
  | Mount url mnt opts => mount sender url mnt opts
  | Unmount url opts => unmount sender url opts
  | Query opts => r <- query sender opts ;; ret (VArr (map entryValue r))
  | Watch url pathPattern => watch sender url pathPattern
  | CreateNetworkActivityStream url => createNetworkActivityStream sender url
  | BeakerDiff srcUrl dstUrl opts => beakerDiff sender srcUrl dstUrl opts
  | BeakerMerge srcUrl dstUrl opts => beakerMerge sender srcUrl dstUrl opts
  | ImportFromFilesystem dst opts => importFromFilesystem sender dst opts
  | ExportToFilesystem src opts => exportToFilesystem sender src opts
  | ExportToDrive src dst opts => exportToDrive sender src dst opts
  end.

End Gateway.

(** The operations whose body is wrapped in [auditLog.record]. *)
Definition audited (c : ApiCall) : bool :=
  match c with
  | CreateDrive _ _ _ _ _ | ForkDrive _ _ _ _ _ _ | LoadDrive _ | Watch _ _
  | CreateNetworkActivityStream _ | BeakerDiff _ _ _ | BeakerMerge _ _ _
  | ImportFromFilesystem _ _ | ExportToFilesystem _ _ | ExportToDrive _ _ _ =>
      false
  | _ => true
  end.

Definition methodName (c : ApiCall) : string :=
  match c with
  | CreateDrive _ _ _ _ _ => "createDrive"
  | ForkDrive _ _ _ _ _ _ => "forkDrive"
  | LoadDrive _ => "loadDrive"
  | GetInfo _ _ => "getInfo"
  | Configure _ _ _ => "configure"
  | Diff _ _ _ => "diff"
  | StatOf _ _ => "stat"
  | ReadFile _ _ => "readFile"
  | WriteFile _ _ _ => "writeFile"
  | Unlink _ _ => "unlink"
  | Copy _ _ _ => "copy"
  | Rename _ _ _ => "rename"
  | UpdateMetadata _ _ _ => "updateMetadata"
  | DeleteMetadata _ _ _ => "deleteMetadata"
  | Readdir _ _ => "readdir"
  | Mkdir _ _ => "mkdir"
  | Rmdir _ _ => "rmdir"
  | Symlink _ _ _ => "symlink"
  | Mount _ _ _ => "mount"
  | Unmount _ _ => "unmount"
  | Query _ => "query"
  | Watch _ _ => "watch"
  | CreateNetworkActivityStream _ => "createNetworkActivityStream"
  | BeakerDiff _ _ _ => "beakerDiff"
  | BeakerMerge _ _ _ => "beakerMerge"
  | ImportFromFilesystem _ _ => "importFromFilesystem"
  | ExportToFilesystem _ _ => "exportToFilesystem"
  | ExportToDrive _ _ _ => "exportToDrive"
  end.

(** ** Vocabulary of the properties *)

Definition addEvents (w : World) (evs : list Event) : World :=
  {| w_grants := w_grants w; w_audit := w_audit w;
     w_trace := w_trace w ++ evs |}.

(** [w'] is [w] after some events that all satisfy [ok]; the audit log is
    untouched (the permission store may have gained grants). *)
Definition extends (ok : Event -> bool) (w w' : World) : Prop :=
  w_audit w' = w_audit w /\
  exists evs, w_trace w' = w_trace w ++ evs /\ forallb ok evs = true.

(** A computation that only ever [extends] the world. *)
Definition keeps {A} (ok : Event -> bool) (m : M A) : Prop :=
  forall w, extends ok w (snd (m w)).

Definition anyEvent (e : Event) : bool := true.

Definition notTimer (e : Event) : bool :=
  match e with EvTimer _ => false | _ => true end.

Definition notPda (e : Event) : bool :=
  match e with EvPda _ => false | _ => true end.

Definition notMutation (e : Event) : bool :=
  match e with EvPda c => negb (mutates c) | _ => true end.


(** The events of [lookupDrive]. *)
Definition lookupEvent (e : Event) : bool :=
  match e with
  | EvGetDrive _ | EvLoadDrive _ | EvGetDriveCheckout _ _ => true
  | _ => false
  end.

(** The events of the permission and quota checks. *)
Definition checkEvent (e : Event) : bool :=
  match e with
  | EvGetDriveInfo _ | EvResolveName _ | EvQueryPermission _ _
  | EvRequestPermission _ _ _ | EvGetMeta _ => true
  | _ => false
  end.

(** What one call leaves in the audit log: either exactly one new entry
    naming the caller, the method and the outcome, or nothing at all, the
    call having failed before its timer was even started. *)
Definition audits {A} (caller method : string) (m : M A) : Prop :=
  forall w,
    (exists e, w_audit (snd (m w)) = w_audit w ++ [e] /\
               ae_caller e = caller /\ ae_method e = method /\
               ae_success e = isOk (fst (m w))) \/
    (extends notTimer w (snd (m w)) /\ isOk (fst (m w)) = false).

(** The storage engine resolves [driveKey] at [version] to drive [d] and
    checkout [co]. *)
Definition resolvesTo (E : Env) (driveKey : string) (version : option string)
    (d : Drive) (co : Checkout) (historic : bool) : Prop :=
  match getDrive E driveKey with
  | Some d' => d' = d
  | None => drives_loadDrive E driveKey = Ok d
  end /\
  getDriveCheckout E d version = Ok (co, historic).

Definition lookupEvents (E : Env) (driveKey : string) (version : option string)
    (d : Drive) : list Event :=
  EvGetDrive driveKey ::
  match getDrive E driveKey with
  | Some _ => []
  | None => [EvLoadDrive driveKey]
  end ++ [EvGetDriveCheckout (key d) version].


(** A computation that rejects in every world. *)
Definition alwaysFails {A} (m : M A) : Prop :=
  forall w, isOk (fst (m w)) = false.

(** The computation resolves (does not reject) in this world. *)
Definition passes {A} (m : M A) (w : World) : Prop :=
  isOk (fst (m w)) = true.

(** Whatever the computation does, it changes no drive, except possibly by
    one last primitive call, and that call satisfies [Q]. *)
Definition reaches {A} (Q : PrimCall -> Prop) (m : M A) : Prop :=
  forall w, exists evs,
    forallb notMutation evs = true /\
    (w_trace (snd (m w)) = w_trace w ++ evs \/
     exists c, w_trace (snd (m w)) = w_trace w ++ evs ++ [EvPda c] /\ Q c).

(** The operation fails and no file primitive is reached. *)
Definition failsWithoutPrimitive (m : M Value) (w : World) : Prop :=
  isOk (fst (m w)) = false /\
  prims (w_trace (snd (m w))) = prims (w_trace w).

(** The bytes handed to [pda.writeFile] on drive [k] in a trace, counted
    by [len]. *)
Fixpoint written (len : string -> Z) (k : string) (t : list Event) : Z :=
  match t with
  | [] => 0
  | EvPda (PdaWriteFile co _ data _) :: rest =>
      (if String.eqb (co_key co) k then len data else 0) + written len k rest
  | _ :: rest => written len k rest
  end.

(** A sender issuing [writeFile] calls one after the other. *)
Fixpoint writeAll (E : Env) (sender : Sender) (url : string)
    (datas : list string) (w : World) : list (Result Value) * World :=
  match datas with
  | [] => ([], w)
  | data :: rest =>
      match writeFile E sender url data noOpts w with
      | (r, w1) =>
          match writeAll E sender url rest w1 with
          | (rs, w2) => (r :: rs, w2)
          end
      end
  end.

(** The position of the first rejected call. *)
Fixpoint firstRejected {A} (rs : list (Result A)) : option nat :=
  match rs with
  | [] => None
  | Err _ :: _ => Some 0%nat
  | Ok _ :: rest => option_map S (firstRejected rest)
  end.

(** The position of the first write that would take a drive of size [S]
    past the allowance [A], the accepted ones before it adding up. *)
Fixpoint firstCrossing (A S : Z) (Bs : list Z) : option nat :=
  match Bs with
  | [] => None
  | B :: rest =>
      if S + B >? A then Some 0%nat
      else option_map Datatypes.S (firstCrossing A (S + B) rest)
  end.

(** The setting of a sequence of writes: the site of a drive writes to a
    legal, unprotected path of the live checkout of that same drive. *)
Record WriteSetting := {
  ws_url : string;           (* the URL written to *)
  ws_urlp : UrlParts;        (* its parts *)
  ws_path : string;          (* its normalised path *)
  ws_drive : Drive;
  ws_co : Checkout;
  ws_senderp : UrlParts;     (* the parts of the sender's own URL *)
  ws_info : list (string * Value);
  ws_size0 : Z               (* the accounted size before the first write *)
}.

(** The collaborators behave as that setting says, and the accounted size
    of the drive (its "accounted byte size", kept by dbs/archives) is
    [ws_size0] plus the bytes handed to [pda.writeFile] on it so far. *)
Record WritesAccounted (E : Env) (sender : Sender) (s : WriteSetting)
  : Prop := {
  wa_parse : parseDriveUrl E (ws_url s) = Ok (ws_urlp s);
  wa_norm : normalizeFilepath (up_pathname (ws_urlp s)) = Ok (ws_path s);
  wa_resolves : resolvesTo E (up_hostname (ws_urlp s)) (up_version (ws_urlp s))
                  (ws_drive s) (ws_co s) false;
  wa_co_key : co_key (ws_co s) = key (ws_drive s);
  wa_userland : isSenderBeaker sender = false;
  wa_origin : JsString.startsWith (extractOrigin E (getURL sender)) "beaker:" = false;
  wa_info_ok : getDriveInfo E (key (ws_drive s)) = Ok (ws_info s);
  wa_not_hash : HYPERDRIVE_HASH_REGEX_test E (getURL sender) = false;
  wa_hyper : JsString.startsWith (getURL sender) "hyper://" = true;
  wa_sender_parse : parseDriveUrl E (getURL sender) = Ok (ws_senderp s);
  wa_self : resolveName E (up_hostname (ws_senderp s)) = Ok (key (ws_drive s));
  wa_no_slash : JsString.lastChar (ws_path s) <> Some "/"%char;
  wa_valid : DRIVE_VALID_PATH_REGEX_test E (ws_path s) = true;
  wa_unprotected : String.eqb (ws_path s) ("/" +:+ DRIVE_MANIFEST_FILENAME E) = false;
  wa_pda : forall h c, isOk (pda E h c) = true;
  wa_size : forall h, getMeta_size E h (key (ws_drive s)) =
              Ok (ws_size0 s +
                  written (fun data => Buffer_byteLength E data None)
                          (key (ws_drive s)) h)
}.

(** ** A concrete environment

    One instance of the collaborators, on which the gateway can be run:
    drives exist for every 64-digit key and none is loaded yet, only keys
    resolve as names, a checkout is historic exactly when a version is requested, the
    accounted size of a drive is [size0] plus the bytes written through
    [pda.writeFile] so far, and the user answers every prompt with
    [approve]. *)

Module Demo.

(** [Some (before, after)] at the first occurrence of [sep]. *)
Fixpoint splitOn (sep s : string) : option (string * string) :=
  match SenderRegex.dropPrefix sep s with
  | Some rest => Some (EmptyString, rest)
  | None =>
      match s with
      | EmptyString => None
      | String c s' =>
          match splitOn sep s' with
          | Some (a, b) => Some (String c a, b)
          | None => None
          end
      end
  end.

(** A parser for [scheme://key+version/path] URLs, the scheme defaulting to
    hyper as in lib/urls. *)
Definition parseUrl (url : string) : Result UrlParts :=
  let '(scheme, rest) := match splitOn "://" url with
                         | Some (sc, r) => (sc, r)
                         | None => ("hyper", url)
                         end in
  let '(host, pathname) := match splitOn "/" rest with
                           | Some (h, p) => (h, "/" +:+ p)
                           | None => (rest, EmptyString)
                           end in
  let '(hostname, version) := match splitOn "+" host with
                              | Some (h, v) => (h, Some v)
                              | None => (host, None)
                              end in
  if String.eqb hostname EmptyString then Err InvalidURLError
  else Ok {| up_protocol := scheme +:+ ":";
             up_origin := scheme +:+ "://" +:+ hostname +:+ "/";
             up_host := hostname; up_hostname := hostname;
             up_pathname := pathname; up_version := version |}.

Definition pathnameOf (url : string) : Result string :=
  match splitOn "://" url with
  | None => Err TypeError
  | Some _ =>
      match parseUrl url with
      | Ok u => Ok (if String.eqb (up_pathname u) EmptyString then "/" else up_pathname u)
      | Err _ => Err TypeError
      end
  end.

(** [scheme://host] of a URL. *)
Definition originOf (url : string) : string :=
  match parseUrl url with
  | Ok u => up_protocol u +:+ "//" +:+ up_hostname u
  | Err _ => url
  end.

Fixpoint allChars (p : ascii -> bool) (s : string) : bool :=
  match s with
  | EmptyString => true
  | String c s' => p c && allChars p s'
  end.

(** [/^[0-9a-f]{64}$/i] *)
Definition isHash (s : string) : bool :=
  (String.length s =? 64)%nat &&
  allChars (fun c => match Uri.hexDigit c with Some _ => true | None => false end) s.

(** [/^[a-z0-9\-._~!$&'()*+,;=:@\/\s]+$/i], on ASCII *)
Definition validPathChar (c : ascii) : bool :=
  let n := N_of_ascii c in
  (Uri.between 97 122 n || Uri.between 65 90 n || Uri.between 48 57 n ||
   existsb (N.eqb n)
     [45; 46; 95; 126; 33; 36; 38; 39; 40; 41; 42; 43; 44; 59; 61; 58; 64; 47;
      32; 9; 10; 11; 12; 13])%N.

Definition isValidPath (s : string) : bool :=
  negb (String.eqb s EmptyString) && allChars validPathChar s.

Definition lowerChar (c : ascii) : ascii :=
  let n := N_of_ascii c in
  if Uri.between 65 90 n then ascii_of_N (n + 32) else c.

Fixpoint asciiLower (s : string) : string :=
  match s with
  | EmptyString => EmptyString
  | String c s' => String (lowerChar c) (asciiLower s')
  end.

(** Byte order, which is how lower-case ASCII letters and digits collate. *)
Definition byteCompare (a b : string) : Z :=
  match String.compare a b with
  | Eq => 0
  | Lt => -1
  | Gt => 1
  end.

(** The part after the last slash (paths here do not end in one). *)
Fixpoint basename (s : string) : string :=
  match splitOn "/" s with
  | None => s
  | Some (_, rest) =>
      match s with
      | EmptyString => EmptyString
      | String _ s' => if JsString.includes s' "/" then basename s' else rest
      end
  end.

Definition ops : StringOps :=
  {| toLowerCase := asciiLower; localeCompare := byteCompare;
     path_basename := basename |}.

(** Modelled from the spec: the query engine of filesystem/query, which is
    not part of this file.  It "already orders and paginates": the matches
    of one checkout are ordered by the requested key, then offset and limit
    are applied. *)
Definition engineQuery (matches : list QEntry) (opts : QueryOpts)
  : list QEntry :=
  reslice opts (resort ops opts matches).

Definition keyA : string := String.concat EmptyString (repeat "aaaaaaaa" 8).
Definition keyB : string := String.concat EmptyString (repeat "bbbbbbbb" 8).

Definition driveOf (driveKey : string) : Result Drive :=
  match parseUrl driveKey with
  | Ok u =>
      if isHash (up_hostname u)
      then Ok {| key := asciiLower (up_hostname u); writable := false |}
      else Err (CollaboratorError "drive not found")
  | Err e => Err e
  end.

Definition env (size0 : Z) (approve : bool) (files : string -> list QEntry)
  : Env :=
  {| DRIVE_MANIFEST_FILENAME := "index.json";
     DRIVE_CONFIGURABLE_FIELDS := ["title"; "description"; "author"];
     DAT_QUOTA_DEFAULT_BYTES_ALLOWED := 524288000;
     DEFAULT_DRIVE_API_TIMEOUT := 60000;
     HYPERDRIVE_HASH_REGEX_test := isHash;
     DRIVE_VALID_PATH_REGEX_test := isValidPath;
     parseDriveUrl := parseUrl;
     URL_pathname := pathnameOf;
     Buffer_byteLength := fun data _ => Z.of_nat (String.length data);
     JSON_stringify := fun fields =>
       fold_right (fun kv acc => fst kv +:+ "," +:+ acc) EmptyString fields;
     stringOps := ops;
     resolveName := fun name =>
       if isHash name then Ok (asciiLower name)
       else Err (CollaboratorError "name not found");
     getDrive := fun _ => None;
     drives_loadDrive := driveOf;
     getOrLoadDrive := driveOf;
     getDriveCheckout := fun d v =>
       Ok ({| co_key := key d; co_version := v |},
           match v with Some _ => true | None => false end);
     getDriveInfo := fun k => Ok [("key", VStr k); ("title", VStr "Demo drive")];
     pullLatestDriveMeta := fun _ => Ok tt;
     createNewDrive := fun _ => Ok ("hyper://" +:+ keyB +:+ "/");
     drives_forkDrive := fun _ _ => Ok ("hyper://" +:+ keyB +:+ "/");
     configDrive := fun _ _ => Ok tt;
     getDriveConfig := fun _ => false;
     getForks := fun _ => Ok (VArr []);
     modals_create := fun _ _ =>
       if approve then Ok (Some ("hyper://" +:+ keyB +:+ "/")) else Ok None;
     extractOrigin := originOf;
     getMeta_size := fun h k => Ok (size0 + written (fun data => Z.of_nat (String.length data)) k h);
     userApproves := fun _ _ => approve;
     pda := fun _ _ => Ok VUndefined;
     pda_readSize := fun _ _ _ => Ok 0;
     fs_query := fun co opts => Ok (engineQuery (files (co_key co)) opts) |}.

Definition noFiles : string -> list QEntry := fun _ => [].

Definition file (p : string) (m : Z) : QEntry :=
  {| Entry.path := p; Entry.stat := {| mtime := m; ctime := m |} |}.

(** Two drives whose names interleave: a, c on the first and b, d on the
    second. *)
Definition twoDrives (k : string) : list QEntry :=
  if String.eqb k keyA then [file "/a.txt" 1; file "/c.txt" 3]
  else if String.eqb k keyB then [file "/b.txt" 2; file "/d.txt" 4]
  else [].

(** A web page served from some other site, and one served from a drive. *)
Definition webPage : Sender := {| getURL := "https://example.com/app" |}.
Definition driveSite (k : string) : Sender :=
  {| getURL := "hyper://" +:+ k +:+ "/index.html" |}.
Definition beakerPage : Sender := {| getURL := "beaker://library/" |}.
Definition networkPage : Sender := {| getURL := "https://hyperdrive.network/" |}.

End Demo.

(** ** Helpers of the file that no exported operation calls *)

(** [async function assertDeleteDrivePermission (drive, sender)] *)
Definition assertDeleteDrivePermission (E : Env) (d : Drive) (sender : Sender)
  : M bool :=
  let driveKey := key d in
  let perm := "deleteDrive:" +:+ driveKey in
  (* beaker: always allowed *)
  if isSenderBeaker sender then ret true
  else
    (* ask the user *)
    (details <- call (EvGetDriveInfo driveKey) (getDriveInfo E driveKey) ;;
     allowed <- requestPermission E perm sender (field details "title") ;;
     if negb allowed then throw UserDeniedError
     else ret true)%gw.

(** [async function parseUrlParts (url)]; the result is
    [{driveKey, filepath, version}]. *)
Definition parseUrlParts (E : Env) (url : string)
  : M (string * string * option string) :=
  if HYPERDRIVE_HASH_REGEX_test E url
  then
    (* simple case: given the key *)
    ret (url, "/", None)
  else
    (urlp <- liftR (parseDriveUrl E url) ;;
     (* validate *)
     if negb (String.eqb (up_protocol urlp) "hyper:")
     then throw InvalidURLError
     else
       host <- (if negb (HYPERDRIVE_HASH_REGEX_test E (up_host urlp))
                then call (EvResolveName url) (resolveName E url)
                else ret (up_host urlp)) ;;
       decoded <- liftR (Uri.decodeURIComponent (up_pathname urlp)) ;;
       ret (host,
            if String.eqb decoded EmptyString then "/" else decoded,
            up_version urlp))%gw.

(** ** Further vocabulary of the properties *)

(** The deadline clock of one call, as its events drive it. *)
Inductive Clock := NoTimer | Running | Paused.

(** Is this the start of a wait for the user? *)
Definition asksUser (e : Event) : bool :=
  match e with
  | EvRequestPermission _ _ _ | EvModal _ _ => true
  | _ => false
  end.

(** Runs the clock over the events of a call; [None] when the user is asked
    while the clock is running. *)
Fixpoint scanClock (c : Clock) (evs : list Event) : option Clock :=
  match evs with
  | [] => Some c
  | e :: rest =>
      match e with
      | EvTimer _ => scanClock Running rest
      | EvPause => scanClock Paused rest
      | EvResume => scanClock Running rest
      | _ =>
          if asksUser e
          then match c with
               | Running => None
               | _ => scanClock c rest
               end
          else scanClock c rest
      end
  end.

(** From clock state [c] the computation never asks the user while the
    clock runs, and when it resolves the clock state satisfies [Q]. *)
Definition clocked {A} (c : Clock) (Q : Clock -> Prop) (m : M A) : Prop :=
  forall w, exists evs c',
    w_trace (snd (m w)) = w_trace w ++ evs /\
    scanClock c evs = Some c' /\
    (isOk (fst (m w)) = true -> Q c').

(** Events that leave the clock alone and do not ask the user. *)
Definition quietEvent (e : Event) : bool :=
  match e with
  | EvTimer _ | EvPause | EvResume | EvRequestPermission _ _ _
  | EvModal _ _ => false
  | _ => true
  end.

(** Events that leave the clock alone (they may ask the user). *)
Definition steadyEvent (e : Event) : bool :=
  match e with
  | EvTimer _ | EvPause | EvResume => false
  | _ => true
  end.




(** The operations behind [assertBeakerOnly]. *)
Definition privilegedOnly (c : ApiCall) : bool :=
  match c with
  | BeakerDiff _ _ _ | BeakerMerge _ _ _ | ImportFromFilesystem _ _
  | ExportToFilesystem _ _ | ExportToDrive _ _ _ => true
  | _ => false
  end.

(** A string free of the bytes a line terminator can start with. *)
Fixpoint noTerminatorByte (s : string) : bool :=
  match s with
  | EmptyString => true
  | String c s' =>
      negb (N.eqb (N_of_ascii c) 10 || N.eqb (N_of_ascii c) 13 ||
            N.eqb (N_of_ascii c) 0xE2) && noTerminatorByte s'
  end.

(** The events by which the write permission or the quota of a drive other
    than [k] would be consulted are excluded. *)
Definition consultsOnly (k : string) (e : Event) : bool :=
  match e with
  | EvGetDriveInfo k' | EvGetMeta k' => String.eqb k' k
  | EvQueryPermission perm _ | EvRequestPermission perm _ _ =>
      String.eqb perm ("modifyDrive:" +:+ k)
  | _ => true
  end.

(** What [configure] may hand to [pda.updateManifest]: a non-empty set of
    configurable fields, without [author] unless the sender is privileged;
    no other drive-changing primitive. *)
Definition manifestUpdateOk (E : Env) (sender : Sender) (e : Event) : bool :=
  match e with
  | EvPda (PdaUpdateManifest _ updates) =>
      negb (Nat.eqb (length updates) 0) &&
      forallb (fun kv => existsb (String.eqb (fst kv)) (DRIVE_CONFIGURABLE_FIELDS E))
              updates &&
      (isSenderBeaker sender || negb (hasField updates "author"))
  | EvPda c => negb (mutates c)
  | _ => true
  end.

(** The trace grows by events that all satisfy [ok]. *)
Definition emits {A} (ok : Event -> bool) (m : M A) : Prop :=
  forall w, exists evs,
    w_trace (snd (m w)) = w_trace w ++ evs /\ forallb ok evs = true.

(** The operations that parse their URL argument before anything else,
    and among them those that then decode its path. *)
Definition urlParsedFirst (c : ApiCall) : option string :=
  match c with
  | Diff url _ _ | StatOf url _ | ReadFile url _ | WriteFile url _ _
  | Unlink url _ | Copy url _ _ | Rename url _ _ | UpdateMetadata url _ _
  | DeleteMetadata url _ _ | Readdir url _ | Mkdir url _ | Rmdir url _
  | Symlink url _ _ | Mount url _ _ | Unmount url _ => Some url
  | _ => None
  end.

Definition pathDecodedFirst (c : ApiCall) : bool :=
  match c with
  | Diff _ _ _ => false
  | _ => match urlParsedFirst c with Some _ => true | None => false end
  end.


(** The operations that only read. *)
Definition readingCall (c : ApiCall) : bool :=
  match c with
  | LoadDrive _ | GetInfo _ _ | Diff _ _ _ | StatOf _ _ | ReadFile _ _
  | Readdir _ _ | Query _ | Watch _ _ | CreateNetworkActivityStream _ => true
  | _ => false
  end.

(** The events of reading: no permission is queried, asked for or granted,
    no modal is shown, no quota is consulted, no drive is created, forked,
    configured or changed. *)
Definition readEvent (e : Event) : bool :=
  match e with
  | EvQueryPermission _ _ | EvRequestPermission _ _ _ | EvGrantPermission _ _
  | EvModal _ _ | EvCreateNewDrive _ | EvForkDrive _ _ | EvConfigDrive _ _
  | EvGetMeta _ | EvPullLatestDriveMeta _ => false
  | EvPda c => negb (mutates c)
  | _ => true
  end.

(** A computation that leaves the permission store as it is. *)
Definition storeKept {A} (m : M A) : Prop :=
  forall w, w_grants (snd (m w)) = w_grants w.

(** The settings [configure] works on once [author] has been deleted for a
    sender that is not privileged: [None] when the argument is rejected. *)
Definition effectiveSettings (sender : Sender) (settings : Value)
  : option (list (string * Value)) :=
  match settings with
  | VObj fields =>
      Some (if isSenderBeaker sender then fields else deleteField fields "author")
  | VArr _ => Some []
  | _ => None
  end.

(** The seven properties of a drive that [getInfo] hands to userland. *)
Definition userlandInfoKeys : list string :=
  ["key"; "url"; "writable"; "version"; "peers"; "title"; "description"].

Definition isUndefined (v : Value) : bool :=
  match v with VUndefined => true | _ => false end.

(** What [forkDrive] does for a sender that is not privileged: it reads
    the forks of [url] and shows the fork modal, with [detached] and
    [label] undefined. *)
Definition userlandForkEvent (url : string) (e : Event) : bool :=
  match e with
  | EvGetForks u => String.eqb u url
  | EvModal kind fields =>
      String.eqb kind "fork-drive" &&
      isUndefined (field fields "detached") &&
      isUndefined (field fields "label")
  | _ => false
  end.

(** What [createDrive] lets a sender that is not privileged do: the modal
    it shows carries no [author] and no [visibility], the manifest of a
    drive it creates holds neither, and it forks nothing. *)
Definition userlandCreateEvent (e : Event) : bool :=
  match e with
  | EvModal kind fields =>
      String.eqb kind "create-drive" &&
      isUndefined (field fields "author") &&
      isUndefined (field fields "visibility")
  | EvCreateNewDrive manifest =>
      negb (hasField manifest "author") && negb (hasField manifest "visibility")
  | EvForkDrive _ _ | EvGetForks _ | EvPda _ => false
  | _ => true
  end.

(** No quota is consulted. *)
Definition notQuota (e : Event) : bool :=
  match e with EvGetMeta _ => false | _ => true end.

(** The drive-changing operations that make no quota check. *)
Definition quotaFree (c : ApiCall) : bool :=
  match c with
  | Unlink _ _ | Rename _ _ _ | UpdateMetadata _ _ _ | DeleteMetadata _ _ _
  | Mkdir _ _ | Rmdir _ _ | Symlink _ _ _ | Mount _ _ _ | Unmount _ _ => true
  | _ => false
  end.

(** * Properties *)

(** ** The string primitives, run *)

Example decode_plain : Uri.decodeURIComponent "/a%20b" = Ok "/a b".
Proof. reflexivity. Qed.
Example decode_lone_percent : Uri.decodeURIComponent "%" = Err URIError.
Proof. reflexivity. Qed.
Example decode_two_byte : Uri.decodeURIComponent "%C3%A9" =
  Ok (String (ascii_of_N 0xC3) (String (ascii_of_N 0xA9) EmptyString)).
Proof. reflexivity. Qed.
Example decode_overlong : Uri.decodeURIComponent "%C0%80" = Err URIError.
Proof. reflexivity. Qed.
Example decode_truncated : Uri.decodeURIComponent "%E2%82" = Err URIError.
Proof. reflexivity. Qed.
Example beaker_scheme : isSenderBeaker {| getURL := "beaker://library/" |} = true.
Proof. reflexivity. Qed.
Example hyperdrive_network : isSenderBeaker {| getURL := "https://hyperdrive.network/" |} = true.
Proof. reflexivity. Qed.
Example sub_hyperdrive_network : isSenderBeaker {| getURL := "http://a.b.hyperdrive.network:80/x" |} = true.
Proof. reflexivity. Qed.
Example not_hyperdrive_network : isSenderBeaker {| getURL := "https://evilhyperdrive.network/" |} = false.
Proof. reflexivity. Qed.
Example userland_site : isSenderBeaker {| getURL := "hyper://1234/" |} = false.
Proof. reflexivity. Qed.

(** ** Path normalisation *)

Lemma Decode_no_escape s :
  JsString.includes s "%" = false -> Uri.Decode s 0 [] = Some s.
Proof.
  induction s as [|c s IH]; intros H; [reflexivity|].
  simpl in H. apply orb_false_elim in H as [Hc Hs].
  simpl. destruct (decide (c = "%"%char)) as [->|Hne].
  - simpl in Hc. destruct s; discriminate.
  - rewrite (IH Hs). reflexivity.
Qed.

Lemma startsWith_slash s : JsString.startsWith ("/" +:+ s) "/" = true.
Proof. unfold JsString.startsWith. simpl. destruct s; reflexivity. Qed.

Lemma charAt0_startsWith s :
  JsString.charAt0_is s "/" = true -> JsString.startsWith s "/" = true.
Proof.
  destruct s as [|c s]; simpl; [discriminate|].
  destruct (decide ("/"%char = c)) as [<-|]; [|discriminate].
  intros _. unfold JsString.startsWith. simpl. destruct s; reflexivity.
Qed.

(** C9, counterexample: normalisation throws on a malformed escape, and an
    input without [://] whose escapes decode to one is left without the
    leading slash. *)
Lemma normalizeFilepath_fails_or_keeps_scheme :
  normalizeFilepath "%" = Err URIError /\
  JsString.includes "a%3A%2F%2Fb" "://" = false /\
  normalizeFilepath "a%3A%2F%2Fb" = Ok "a://b".
Proof. repeat split. Qed.

(** C9, amended: normalisation is a function that fails exactly when
    percent-decoding does, with a URIError; otherwise it yields the decoded
    string, with [/] put in front unless the decoded string contains [://]
    or already starts with [/], so that a decoded string without [://]
    always comes out with a leading [/]; an input without [%] decodes to
    itself. *)
Theorem normalizeFilepath_decodes_then_roots (str : string) :
  match Uri.decodeURIComponent str with
  | Err e => e = URIError /\ normalizeFilepath str = Err URIError
  | Ok d =>
      normalizeFilepath str =
        Ok (if JsString.includes d "://" || JsString.charAt0_is d "/"
            then d else "/" +:+ d) /\
      (JsString.includes d "://" = false ->
       exists r, normalizeFilepath str = Ok r /\ JsString.startsWith r "/" = true)
  end /\
  (JsString.includes str "%" = false -> Uri.decodeURIComponent str = Ok str).
Proof.
  split.
  - unfold normalizeFilepath, Uri.decodeURIComponent.
    destruct (Uri.Decode str 0 []) as [d|]; [|split; reflexivity].
    destruct (JsString.includes d "://") eqn:Hi; simpl.
    + split; [reflexivity|discriminate].
    + destruct (JsString.charAt0_is d "/") eqn:Hc; simpl.
      * split; [reflexivity|]. intros _. exists d. split; [reflexivity|].
        now apply charAt0_startsWith.
      * split; [reflexivity|]. intros _. exists ("/" +:+ d).
        split; [reflexivity|apply startsWith_slash].
  - intros H. unfold Uri.decodeURIComponent. now rewrite Decode_no_escape.
Qed.

(** ** [query] without a drive *)

Lemma query_no_drive (E : Env) (sender : Sender) (opts : QueryOpts) (w : World) :
  truthyDrive (q_drive opts) = false -> query E sender opts w = (Ok [], w).
Proof. intros H. unfold query. rewrite H. reflexivity. Qed.

(** C10: when [opts.drive] is absent or falsy, [query] resolves with the
    empty array and leaves the world as it was: no drive is resolved, no
    query runs, no timer is started and nothing is recorded. *)
Theorem query_without_drive (E : Env) (sender : Sender) (opts : QueryOpts)
    (w : World) :
  truthyDrive (q_drive opts) = false ->
  query E sender opts w = (Ok [], w).
Proof. apply query_no_drive. Qed.

Lemma query_without_drive_witness :
  truthyDrive (q_drive {| q_drive := DriveString EmptyString; q_filter := VUndefined;
                          q_sort := Some "name"; q_reverse := false;
                          q_offset := None; q_limit := None;
                          q_timeout := None |}) = false /\
  query (Demo.env 0 false Demo.noFiles) Demo.webPage
        {| q_drive := DriveString EmptyString; q_filter := VUndefined;
           q_sort := Some "name"; q_reverse := false;
           q_offset := None; q_limit := None; q_timeout := None |}
        emptyWorld = (Ok [], emptyWorld).
Proof. split; [reflexivity|]. apply query_without_drive. reflexivity. Defined.

(** ** How the helpers change the world *)

Lemma extends_refl ok w : extends ok w w.
Proof. split; [reflexivity|]. exists []. now rewrite app_nil_r. Qed.

Lemma extends_grants ok w g :
  extends ok w {| w_grants := g; w_audit := w_audit w; w_trace := w_trace w |}.
Proof. split; [reflexivity|]. exists []. simpl. now rewrite app_nil_r. Qed.

Lemma extends_trans ok w1 w2 w3 :
  extends ok w1 w2 -> extends ok w2 w3 -> extends ok w1 w3.
Proof.
  intros [Ha (e1 & Ht1 & Ho1)] [Hb (e2 & Ht2 & Ho2)]. split; [congruence|].
  exists (e1 ++ e2). rewrite Ht2, Ht1, <- app_assoc. split; [reflexivity|].
  rewrite forallb_app, Ho1, Ho2. reflexivity.
Qed.

Lemma extends_weaken (ok ok' : Event -> bool) w w' :
  (forall e, ok e = true -> ok' e = true) ->
  extends ok w w' -> extends ok' w w'.
Proof.
  intros Himp [Ha (evs & Ht & Ho)]. split; [exact Ha|]. exists evs.
  split; [exact Ht|]. rewrite forallb_forall in *. auto.
Qed.

Lemma extends_prims w w' : extends notPda w w' -> prims (w_trace w') = prims (w_trace w).
Proof.
  intros [_ (evs & -> & Ho)]. unfold prims. rewrite omap_app.
  assert (Hnil : omap (fun e => match e with EvPda c => Some c | _ => None end) evs = []).
  { induction evs as [|e evs IH]; [reflexivity|]. simpl in Ho.
    apply andb_true_iff in Ho as [He Ho]. destruct e; try discriminate;
      simpl; auto. }
  rewrite Hnil. apply app_nil_r.
Qed.

Lemma keeps_weaken {A} (ok ok' : Event -> bool) (m : M A) :
  (forall e, ok e = true -> ok' e = true) -> keeps ok m -> keeps ok' m.
Proof. intros Himp Hm w. eapply extends_weaken; eauto. Qed.

Lemma keeps_ret {A} ok (a : A) : keeps ok (ret a).
Proof. intros w. apply extends_refl. Qed.

Lemma keeps_throw {A} ok e : keeps ok (@throw A e).
Proof. intros w. apply extends_refl. Qed.

Lemma keeps_liftR {A} ok (r : Result A) : keeps ok (liftR r).
Proof. intros w. apply extends_refl. Qed.

Lemma keeps_bind {A B} ok (m : M A) (k : A -> M B) :
  keeps ok m -> (forall a, keeps ok (k a)) -> keeps ok (bind m k).
Proof.
  intros Hm Hk w. unfold bind. specialize (Hm w).
  destruct (m w) as [[a|e] w1]; simpl in *; [|exact Hm].
  eapply extends_trans; [exact Hm|apply Hk].
Qed.

Lemma keeps_bind_throw {A B} ok e (k : A -> M B) : keeps ok (bind (throw e) k).
Proof. intros w. apply extends_refl. Qed.

Lemma keeps_logEvent ok e : ok e = true -> keeps ok (logEvent e).
Proof.
  intros He w. split; [reflexivity|]. exists [e]. simpl. now rewrite He.
Qed.

Lemma keeps_call {A} ok e (r : Result A) : ok e = true -> keeps ok (call e r).
Proof.
  intros He. apply keeps_bind; [now apply keeps_logEvent|].
  intros _. apply keeps_liftR.
Qed.

Lemma keeps_callH {A} ok e (f : list Event -> Result A) :
  ok e = true -> keeps ok (callH e f).
Proof. intros He w. unfold callH. now apply keeps_call. Qed.

Lemma keeps_tryCatch {A} ok (m : M A) (a : A) :
  keeps ok m -> keeps ok (tryCatch m a).
Proof.
  intros Hm w. unfold tryCatch. specialize (Hm w).
  destruct (m w) as [[b|e] w1]; exact Hm.
Qed.

Ltac event_class :=
  solve [ reflexivity
        | auto
        | let e := fresh "e" in
          intros e; destruct e; simpl; intros; first [reflexivity | congruence | auto] ].

Ltac keeps_step :=
  lazymatch goal with
  | |- keeps _ (bind _ _) => apply keeps_bind; [|intros]
  | |- keeps _ (ret _) => apply keeps_ret
  | |- keeps _ (throw _) => apply keeps_throw
  | |- keeps _ (liftR _) => apply keeps_liftR
  | |- keeps _ (logEvent _) => apply keeps_logEvent; event_class
  | |- keeps _ (call _ _) => apply keeps_call; event_class
  | |- keeps _ (callH _ _) => apply keeps_callH; event_class
  | |- keeps _ (tryCatch _ _) => apply keeps_tryCatch
  | |- keeps _ (if ?b then _ else _) => destruct b
  | |- keeps _ (match ?x with _ => _ end) => destruct x
  end.

Section Helpers.

Variable E : Env.
Variable ok : Event -> bool.

Lemma keeps_timer {A} ms (fn : M A) :
  ok (EvTimer ms) = true -> keeps ok fn -> keeps ok (timer ms fn).
Proof. intros He Hfn. unfold timer. keeps_step; [|exact Hfn]. keeps_step. Qed.

Lemma keeps_checkin label :
  (forall l, ok (EvCheckin l) = true) -> keeps ok (checkin label).
Proof. intros H. unfold checkin. keeps_step. Qed.

Lemma keeps_pause : ok EvPause = true -> keeps ok pause.
Proof. intros H. unfold pause. keeps_step. Qed.

Lemma keeps_resume : ok EvResume = true -> keeps ok resume.
Proof. intros H. unfold resume. keeps_step. Qed.

Lemma keeps_pdaCall c : ok (EvPda c) = true -> keeps ok (pdaCall E c).
Proof. intros H. unfold pdaCall. keeps_step. Qed.

Lemma keeps_lookupDrive sender driveKey version :
  (forall e, lookupEvent e = true -> ok e = true) ->
  keeps ok (lookupDrive E sender driveKey version).
Proof.
  intros H. unfold lookupDrive. repeat keeps_step.
Qed.

Lemma keeps_queryPermission perm sender :
  (forall e, checkEvent e = true -> ok e = true) ->
  keeps ok (queryPermission E perm sender).
Proof. intros H w. unfold queryPermission. apply keeps_call. event_class. Qed.

Lemma keeps_requestPermission perm sender title :
  (forall e, checkEvent e = true -> ok e = true) ->
  keeps ok (requestPermission E perm sender title).
Proof.
  intros H. unfold requestPermission. keeps_step; [keeps_step|].
  keeps_step; [|keeps_step]. intros w. apply extends_grants.
Qed.

Lemma keeps_lookupUrlDriveKey url :
  (forall e, checkEvent e = true -> ok e = true) ->
  keeps ok (lookupUrlDriveKey E url).
Proof. intros H. unfold lookupUrlDriveKey. repeat keeps_step. Qed.

Lemma keeps_assertWritePermission d sender :
  (forall e, checkEvent e = true -> ok e = true) ->
  keeps ok (assertWritePermission E d sender).
Proof.
  intros H. unfold assertWritePermission.
  repeat first [ apply keeps_lookupUrlDriveKey; exact H
               | apply keeps_queryPermission; exact H
               | apply keeps_requestPermission; exact H
               | keeps_step ].
Qed.

Lemma keeps_assertQuotaPermission d origin n :
  (forall e, checkEvent e = true -> ok e = true) ->
  keeps ok (assertQuotaPermission E d origin n).
Proof. intros H. unfold assertQuotaPermission, getMeta. repeat keeps_step. Qed.

Lemma keeps_assertValidPath p : keeps ok (assertValidPath E p).
Proof. unfold assertValidPath. repeat keeps_step. Qed.

Lemma keeps_assertValidFilePath p : keeps ok (assertValidFilePath E p).
Proof. unfold assertValidFilePath. keeps_step; [keeps_step|apply keeps_assertValidPath]. Qed.

Lemma keeps_assertUnprotectedFilePath p sender :
  keeps ok (assertUnprotectedFilePath E p sender).
Proof. unfold assertUnprotectedFilePath. repeat keeps_step. Qed.

Lemma keeps_stripScheme p : keeps ok (stripScheme E p).
Proof. unfold stripScheme. repeat keeps_step. Qed.

Lemma keeps_grantPermission perm url :
  ok (EvGrantPermission perm url) = true -> keeps ok (grantPermission E perm url).
Proof.
  intros H w. split; [reflexivity|]. exists [EvGrantPermission perm url].
  simpl. now rewrite H.
Qed.

Lemma keeps_assertCreateDrivePermission sender :
  (forall e, checkEvent e = true -> ok e = true) ->
  keeps ok (assertCreateDrivePermission E sender).
Proof.
  intros H. unfold assertCreateDrivePermission.
  repeat first [ apply keeps_requestPermission; exact H | keeps_step ].
Qed.

Lemma keeps_assertBeakerOnly sender : keeps ok (assertBeakerOnly sender).
Proof. unfold assertBeakerOnly. repeat keeps_step. Qed.

Lemma keeps_urlArgument url : keeps ok (urlArgument url).
Proof. unfold urlArgument. repeat keeps_step. Qed.

Lemma keeps_runModal kind fields :
  ok (EvModal kind fields) = true -> keeps ok (runModal E kind fields).
Proof.
  intros H. unfold runModal. apply keeps_bind; [|intros; repeat keeps_step].
  intros w. pose proof (keeps_call ok (EvModal kind fields)
                          (modals_create E kind fields) H w) as Hc.
  destruct (call (EvModal kind fields) (modals_create E kind fields) w)
    as [[r|e] w']; [exact Hc|].
  destruct (isPlainError e); exact Hc.
Qed.

Lemma keeps_both {A B} (a : M A) (b : M B) :
  keeps ok a -> keeps ok b -> keeps ok (both a b).
Proof.
  intros Ha Hb w. unfold both. specialize (Ha w).
  destruct (a w) as [ra w1]. specialize (Hb w1).
  destruct (b w1) as [rb w2]. simpl in *. eapply extends_trans; eauto.
Qed.

Lemma keeps_resolveDrives sender urls :
  (forall e, lookupEvent e = true -> ok e = true) ->
  keeps ok (resolveDrives E sender urls).
Proof.
  intros H. induction urls as [|u urls IH]; simpl; [keeps_step|].
  keeps_step; [keeps_step|]. keeps_step; [now apply keeps_lookupDrive|].
  keeps_step; [exact IH|keeps_step].
Qed.

Lemma keeps_startQueries opts cos :
  (forall co, ok (EvQuery co) = true) ->
  keeps ok (startQueries E opts cos).
Proof.
  intros H. induction cos as [|co cos IH]; simpl; [keeps_step|].
  keeps_step; [keeps_step|]. keeps_step; [exact IH|keeps_step].
Qed.

End Helpers.

Ltac keeps_gateway :=
  repeat first
    [ apply keeps_bind_throw
    | apply keeps_timer; [event_class|]
    | apply keeps_checkin; event_class
    | apply keeps_pause; event_class
    | apply keeps_resume; event_class
    | apply keeps_pdaCall; event_class
    | apply keeps_lookupDrive; event_class
    | apply keeps_assertWritePermission; event_class
    | apply keeps_assertQuotaPermission; event_class
    | apply keeps_assertValidFilePath
    | apply keeps_assertValidPath
    | apply keeps_assertUnprotectedFilePath
    | apply keeps_stripScheme
    | apply keeps_resolveDrives; event_class
    | apply keeps_grantPermission; event_class
    | apply keeps_assertCreateDrivePermission; event_class
    | apply keeps_assertBeakerOnly
    | apply keeps_urlArgument
    | apply keeps_runModal; event_class
    | apply keeps_lookupUrlDriveKey; event_class
    | apply keeps_both
    | apply keeps_startQueries; event_class
    | keeps_step ].

(** ** The audit log *)

Lemma record_result {A} caller method target size (fn : M A) w :
  fst (record caller method target size fn w) = fst (fn w) /\
  w_grants (snd (record caller method target size fn w)) = w_grants (snd (fn w)) /\
  w_trace (snd (record caller method target size fn w)) = w_trace (snd (fn w)).
Proof. unfold record. destruct (fn w) as [r w']. repeat split. Qed.

Lemma audits_record {A} caller method target size (fn : M A) :
  keeps anyEvent fn -> audits caller method (record caller method target size fn).
Proof.
  intros Hfn w. left. unfold record. destruct (Hfn w) as [Ha _].
  destruct (fn w) as [r w']. simpl in *.
  eexists. rewrite Ha. repeat split.
Qed.

Lemma audits_bind {A B} caller method (m : M A) (k : A -> M B) :
  keeps notTimer m -> (forall a, audits caller method (k a)) ->
  audits caller method (bind m k).
Proof.
  intros Hm Hk w. unfold bind. specialize (Hm w).
  destruct (m w) as [[a|e] w1]; simpl in *.
  - destruct (Hk a w1) as [(e & He & Hrest)|[Hext Hfail]].
    + left. exists e. destruct Hm as [Ha _]. rewrite He, Ha. auto.
    + right. split; [eapply extends_trans; eauto|exact Hfail].
  - right. auto.
Qed.

Ltac audits_gateway :=
  repeat first
    [ apply audits_record; keeps_gateway
    | apply audits_bind; [keeps_gateway|intros] ].

Section Audit.

Variable E : Env.
Variable sender : Sender.

Lemma audits_getInfo url opts :
  audits (getURL sender) "getInfo" (getInfo E sender url opts).
Proof. unfold getInfo. audits_gateway. Qed.

Lemma audits_configure url settings opts :
  audits (getURL sender) "configure" (configure E sender url settings opts).
Proof. unfold configure. audits_gateway. Qed.

Lemma audits_diff url other opts :
  audits (getURL sender) "diff" (diff E sender url other opts).
Proof. unfold diff. audits_gateway. Qed.

Lemma audits_stat url opts :
  audits (getURL sender) "stat" (stat E sender url opts).
Proof. unfold stat. audits_gateway. Qed.

Lemma audits_readFile url opts :
  audits (getURL sender) "readFile" (readFile E sender url opts).
Proof. unfold readFile. audits_gateway. Qed.

Lemma audits_writeFile url data opts :
  audits (getURL sender) "writeFile" (writeFile E sender url data opts).
Proof. unfold writeFile. audits_gateway. Qed.

Lemma audits_unlink url opts :
  audits (getURL sender) "unlink" (unlink E sender url opts).
Proof. unfold unlink. audits_gateway. Qed.

Lemma audits_copy url dstpath opts :
  audits (getURL sender) "copy" (copy E sender url dstpath opts).
Proof. unfold copy. audits_gateway. Qed.

Lemma audits_rename url dstpath opts :
  audits (getURL sender) "rename" (rename E sender url dstpath opts).
Proof. unfold rename. audits_gateway. Qed.

Lemma audits_updateMetadata url metadata opts :
  audits (getURL sender) "updateMetadata" (updateMetadata E sender url metadata opts).
Proof. unfold updateMetadata. audits_gateway. Qed.

Lemma audits_deleteMetadata url keys opts :
  audits (getURL sender) "deleteMetadata" (deleteMetadata E sender url keys opts).
Proof. unfold deleteMetadata. audits_gateway. Qed.

Lemma audits_readdir url opts :
  audits (getURL sender) "readdir" (readdir E sender url opts).
Proof. unfold readdir. audits_gateway. Qed.

Lemma audits_mkdir url opts :
  audits (getURL sender) "mkdir" (mkdir E sender url opts).
Proof. unfold mkdir. audits_gateway. Qed.

Lemma audits_rmdir url opts :
  audits (getURL sender) "rmdir" (rmdir E sender url opts).
Proof. unfold rmdir. audits_gateway. Qed.

Lemma audits_symlink url linkname opts :
  audits (getURL sender) "symlink" (symlink E sender url linkname opts).
Proof. unfold symlink. audits_gateway. Qed.

Lemma audits_mount url mnt opts :
  audits (getURL sender) "mount" (mount E sender url mnt opts).
Proof. unfold mount. audits_gateway. Qed.

Lemma audits_unmount url opts :
  audits (getURL sender) "unmount" (unmount E sender url opts).
Proof. unfold unmount. audits_gateway. Qed.

Lemma audits_query opts :
  truthyDrive (q_drive opts) = true ->
  audits (getURL sender) "query" (query E sender opts).
Proof. intros H. unfold query. rewrite H. simpl. audits_gateway. Qed.

Lemma keeps_createDrive title description author visibility prompt :
  keeps anyEvent (createDrive E sender title description author visibility prompt).
Proof. unfold createDrive. keeps_gateway. Qed.

Lemma keeps_forkDrive url detached title description label prompt :
  keeps anyEvent (forkDrive E sender url detached title description label prompt).
Proof. unfold forkDrive. keeps_gateway. Qed.

Lemma keeps_beakerDiff srcUrl dstUrl opts :
  keeps anyEvent (beakerDiff E sender srcUrl dstUrl opts).
Proof. unfold beakerDiff. keeps_gateway. Qed.

Lemma keeps_beakerMerge srcUrl dstUrl opts :
  keeps anyEvent (beakerMerge E sender srcUrl dstUrl opts).
Proof. unfold beakerMerge. keeps_gateway. Qed.

Lemma keeps_importFromFilesystem dst opts :
  keeps anyEvent (importFromFilesystem E sender dst opts).
Proof. unfold importFromFilesystem. keeps_gateway. Qed.

Lemma keeps_exportToFilesystem src opts :
  keeps anyEvent (exportToFilesystem E sender src opts).
Proof. unfold exportToFilesystem. keeps_gateway. Qed.

Lemma keeps_exportToDrive src dst opts :
  keeps anyEvent (exportToDrive E sender src dst opts).
Proof. unfold exportToDrive. keeps_gateway. Qed.

Lemma keeps_loadDrive url : keeps anyEvent (loadDrive E sender url).
Proof. unfold loadDrive. keeps_gateway. Qed.

Lemma keeps_watch url pat : keeps anyEvent (watch E sender url pat).
Proof. unfold watch. keeps_gateway. Qed.

Lemma keeps_createNetworkActivityStream url :
  keeps anyEvent (createNetworkActivityStream E sender url).
Proof. unfold createNetworkActivityStream. keeps_gateway. Qed.

End Audit.

(** C6, counterexample: [loadDrive] is a public operation and succeeds
    without anything being appended to the audit log; and a [writeFile]
    whose path cannot be decoded fails without an entry either. *)
Lemma loadDrive_leaves_no_audit_entry :
  fst (invoke (Demo.env 0 false Demo.noFiles) Demo.webPage
         (LoadDrive (VStr Demo.keyA)) emptyWorld) = Ok (VBool true) /\
  w_audit (snd (invoke (Demo.env 0 false Demo.noFiles) Demo.webPage
         (LoadDrive (VStr Demo.keyA)) emptyWorld)) = [] /\
  invoke (Demo.env 0 false Demo.noFiles) Demo.webPage
         (WriteFile ("hyper://" +:+ Demo.keyA +:+ "/%") "hi" noOpts) emptyWorld
    = (Err URIError, emptyWorld).
Proof. repeat split. Qed.

(** C6, amended: getInfo, configure, diff, stat, readFile, writeFile,
    unlink, copy, rename, updateMetadata, deleteMetadata, readdir, mkdir,
    rmdir, symlink, mount, unmount and query run their mediated body inside
    the recorder, so a call leaves exactly one new audit entry, naming the
    caller, the method and whether the body succeeded, and the recorder
    hands back the body's own result or error.  No entry is left when the
    call fails before the recorder is reached (its timer was never
    started), or when query is given no drive.  createDrive, forkDrive,
    loadDrive, watch, createNetworkActivityStream, beakerDiff, beakerMerge,
    importFromFilesystem, exportToFilesystem and exportToDrive never leave
    an entry. *)
Theorem audit_entries_of_a_call (E : Env) (sender : Sender) (c : ApiCall)
    (w : World) :
  (if audited c
   then (exists e,
           w_audit (snd (invoke E sender c w)) = w_audit w ++ [e] /\
           ae_caller e = getURL sender /\ ae_method e = methodName c /\
           ae_success e = isOk (fst (invoke E sender c w))) \/
        (extends notTimer w (snd (invoke E sender c w)) /\
         (isOk (fst (invoke E sender c w)) = false \/
          exists opts, c = Query opts /\ truthyDrive (q_drive opts) = false))
   else w_audit (snd (invoke E sender c w)) = w_audit w) /\
  (forall A caller method target size (fn : M A) w0,
     fst (record caller method target size fn w0) = fst (fn w0)).
Proof.
  split; [|intros; apply record_result].
  assert (Hgen : forall method (m : M Value),
            audits (getURL sender) method m ->
            (exists e, w_audit (snd (m w)) = w_audit w ++ [e] /\
                       ae_caller e = getURL sender /\ ae_method e = method /\
                       ae_success e = isOk (fst (m w))) \/
            (extends notTimer w (snd (m w)) /\
             (isOk (fst (m w)) = false \/
              exists opts, c = Query opts /\ truthyDrive (q_drive opts) = false))).
  { intros method m Hm. destruct (Hm w) as [H|[H1 H2]]; [left; exact H|].
    right. split; [exact H1|left; exact H2]. }
  assert (Hmap : forall A (m : M A) (f : A -> Value),
            keeps anyEvent m ->
            w_audit (snd ((a <- m ;; ret (f a)) w)) = w_audit w).
  { intros A m f Hm.
    assert (Hk : keeps anyEvent (a <- m ;; ret (f a))).
    { apply keeps_bind; [exact Hm|intros; apply keeps_ret]. }
    apply (Hk w). }
  destruct c; simpl audited; cbv iota; simpl invoke; simpl methodName.
  - apply Hmap, keeps_createDrive.
  - apply Hmap, keeps_forkDrive.
  - pose proof (keeps_loadDrive E sender url) as H.
    assert (Hk : keeps anyEvent (b <- loadDrive E sender url ;; ret (VBool b))).
    { apply keeps_bind; [exact H|intros; apply keeps_ret]. }
    apply (Hk w).
  - apply Hgen, audits_getInfo.
  - apply Hgen, audits_configure.
  - apply Hgen, audits_diff.
  - apply Hgen, audits_stat.
  - apply Hgen, audits_readFile.
  - apply Hgen, audits_writeFile.
  - apply Hgen, audits_unlink.
  - apply Hgen, audits_copy.
  - apply Hgen, audits_rename.
  - apply Hgen, audits_updateMetadata.
  - apply Hgen, audits_deleteMetadata.
  - apply Hgen, audits_readdir.
  - apply Hgen, audits_mkdir.
  - apply Hgen, audits_rmdir.
  - apply Hgen, audits_symlink.
  - apply Hgen, audits_mount.
  - apply Hgen, audits_unmount.
  - destruct (truthyDrive (q_drive opts)) eqn:Ht.
    + pose proof (audits_query E sender opts Ht w) as Hq.
      unfold bind. destruct (query E sender opts w) as [[r|e] w1]; simpl in *.
      * destruct Hq as [Hq|[_ Hq]]; [left; exact Hq|discriminate].
      * destruct Hq as [Hq|[Hq1 Hq2]]; [left; exact Hq|right; split; auto].
    + right. unfold bind. rewrite (query_no_drive E sender opts w Ht).
      simpl. split; [apply extends_refl|]. right. exists opts. auto.
  - apply (keeps_watch E sender url pathPattern w).
  - apply (keeps_createNetworkActivityStream E sender url w).
  - apply (keeps_beakerDiff E sender srcUrl dstUrl opts w).
  - apply (keeps_beakerMerge E sender srcUrl dstUrl opts w).
  - apply (keeps_importFromFilesystem E sender dst opts w).
  - apply (keeps_exportToFilesystem E sender src opts w).
  - apply (keeps_exportToDrive E sender src dst opts w).
Qed.

(** ** Write permission *)

Lemma lookupUrlDriveKey_world E url w :
  w_grants (snd (lookupUrlDriveKey E url w)) = w_grants w /\
  prompts (w_trace (snd (lookupUrlDriveKey E url w))) = prompts (w_trace w).
Proof.
  unfold lookupUrlDriveKey.
  destruct (HYPERDRIVE_HASH_REGEX_test E url); [split; reflexivity|].
  destruct (negb (JsString.startsWith url "hyper://")); [split; reflexivity|].
  unfold bind, liftR, tryCatch, call, logEvent, ret; simpl.
  destruct (parseDriveUrl E url) as [urlp|e]; simpl; [|split; reflexivity].
  destruct (resolveName E (up_hostname urlp)); simpl;
    (split; [reflexivity|]); unfold prompts; rewrite omap_app; simpl;
    apply app_nil_r.
Qed.

Lemma prompts_addEvents w evs :
  prompts (w_trace (addEvents w evs)) = prompts (w_trace w) ++ prompts evs.
Proof. unfold prompts, addEvents. simpl. apply omap_app. Qed.

Lemma assertWritePermission_run E d sender w details :
  getDriveInfo E (key d) = Ok details ->
  let perm := "modifyDrive:" +:+ key d in
  let url := getURL sender in
  let origin := extractOrigin E url in
  let w0 := addEvents w [EvGetDriveInfo (key d)] in
  assertWritePermission E d sender w =
  if isSenderBeaker sender then (Ok true, w0)
  else
    match lookupUrlDriveKey E url w0 with
    | (Err e, w1) => (Err e, w1)
    | (Ok senderKey, w1) =>
        if decide (senderKey = Some (key d)) then (Ok true, w1)
        else
          let w2 := addEvents w1 [EvQueryPermission perm url] in
          if decide (w_grants w1 !! (origin, perm) = Some true) then (Ok true, w2)
          else
            let w3 := addEvents w2 [EvRequestPermission perm url (field details "title")] in
            if userApproves E perm url
            then (Ok true,
                  {| w_grants := <[(origin, perm) := true]> (w_grants w1);
                     w_audit := w_audit w3; w_trace := w_trace w3 |})
            else (Err UserDeniedError, w3)
    end.
Proof.
  intros Hinfo perm url origin w0.
  unfold assertWritePermission, bind, call, logEvent, liftR. simpl.
  rewrite Hinfo. fold (addEvents w [EvGetDriveInfo (key d)]). fold w0.
  fold perm. fold url.
  destruct (isSenderBeaker sender); [reflexivity|].
  unfold bind. destruct (lookupUrlDriveKey E url w0) as [[k|e] w1]; [|reflexivity].
  destruct (decide (k = Some (key d))); [reflexivity|].
  unfold queryPermission, call, bind, logEvent, liftR. simpl. fold origin.
  destruct (decide (w_grants w1 !! (origin, perm) = Some true)); [reflexivity|].
  unfold requestPermission, bind, logEvent, ret, throw. simpl. fold url. fold origin.
  destruct (userApproves E perm url); reflexivity.
Qed.



(** ** Historic checkouts *)

Lemma bind_liftR_ok {A B} (a : A) (k : A -> M B) : bind (liftR (Ok a)) k = k a.
Proof. reflexivity. Qed.

Lemma bind_throw {A B} (e : Error) (k : A -> M B) : bind (throw e) k = throw e.
Proof. reflexivity. Qed.

Lemma lookupDrive_run E sender k v d co h w :
  resolvesTo E k v d co h ->
  lookupDrive E sender k v w =
    (Ok {| drive := d; version := v; isHistoric := h; checkoutFS := co |},
     addEvents w (lookupEvents E k v d)).
Proof.
  intros [Hd Hco]. unfold lookupDrive, lookupEvents, bind, call, logEvent, liftR, ret, addEvents.
  simpl. destruct (getDrive E k) as [d'|]; simpl.
  - subst d'. simpl. rewrite Hco. simpl. now rewrite <- app_assoc.
  - rewrite Hd. simpl. rewrite Hco. simpl. now rewrite <- !app_assoc.
Qed.





(** ** The protected manifest *)

Lemma alwaysFails_throw {A} e : alwaysFails (@throw A e).
Proof. intros w. reflexivity. Qed.

Lemma alwaysFails_bind {A B} (m : M A) (k : A -> M B) :
  (forall a, alwaysFails (k a)) -> alwaysFails (bind m k).
Proof.
  intros Hk w. unfold bind. destruct (m w) as [[a|e] w1]; [apply Hk|reflexivity].
Qed.

Lemma assertUnprotected_manifest E sender :
  isSenderBeaker sender = false ->
  assertUnprotectedFilePath E ("/" +:+ DRIVE_MANIFEST_FILENAME E) sender
    = throw ProtectedFileNotWritableError.
Proof.
  intros H. unfold assertUnprotectedFilePath. rewrite H.
  now rewrite String.eqb_refl.
Qed.

Lemma assertUnprotected_privileged E p sender w :
  isSenderBeaker sender = true ->
  assertUnprotectedFilePath E p sender w = (Ok tt, w).
Proof. intros H. unfold assertUnprotectedFilePath. now rewrite H. Qed.

Lemma recorded_failure_without_primitive caller method target size ms
    (fn : M Value) w :
  keeps notPda fn -> alwaysFails fn ->
  failsWithoutPrimitive (record caller method target size (timer ms fn)) w.
Proof.
  intros Hk Hf. unfold failsWithoutPrimitive.
  destruct (record_result caller method target size (timer ms fn) w) as (-> & _ & ->).
  assert (Hk' : keeps notPda (timer ms fn)) by (apply keeps_timer; auto).
  split.
  - unfold timer. apply alwaysFails_bind. intros _. exact Hf.
  - apply extends_prims, Hk'.
Qed.

Lemma alwaysFails_bind_left {A B} (m : M A) (k : A -> M B) :
  alwaysFails m -> alwaysFails (bind m k).
Proof.
  intros Hm w. unfold bind. specialize (Hm w).
  destruct (m w) as [[a|e] w1]; [discriminate|reflexivity].
Qed.

Ltac fails_gateway :=
  repeat first
    [ apply alwaysFails_throw
    | apply alwaysFails_bind_left; solve [apply alwaysFails_throw]
    | apply alwaysFails_bind; intros
    | match goal with
      | |- alwaysFails (if ?b then _ else _) => destruct b
      end ].

(** C3, counterexample: a web page without a grant writes to the manifest
    path and the user turns the prompt down: the call fails with
    UserDenied, not with ProtectedFileNotWritable. *)
Lemma manifest_write_denied_by_user :
  isSenderBeaker Demo.webPage = false /\
  normalizeFilepath "/index.json"
    = Ok ("/" +:+ DRIVE_MANIFEST_FILENAME (Demo.env 0 false Demo.noFiles)) /\
  fst (writeFile (Demo.env 0 false Demo.noFiles) Demo.webPage
         ("hyper://" +:+ Demo.keyA +:+ "/index.json") "{}" noOpts emptyWorld)
    = Err UserDeniedError.
Proof. repeat split. Qed.

(** C3, amended: for a sender that is not privileged and a target path
    equal to the manifest path, [writeFile], [unlink] and [mkdir] always
    fail and never reach a file primitive; the failure is
    ProtectedFileNotWritable whenever the checks that run before the
    protection check pass (the drive resolves to a live checkout, write
    permission is obtained and, where they apply, the quota allows the
    bytes and the path is legal).  The privileged sender is not subject to
    the protection check. *)
Theorem manifest_path_protected (E : Env) (sender : Sender) (url : string)
    (urlp : UrlParts) (w : World) :
  isSenderBeaker sender = false ->
  parseDriveUrl E url = Ok urlp ->
  normalizeFilepath (up_pathname urlp) = Ok ("/" +:+ DRIVE_MANIFEST_FILENAME E) ->
  let manifest := "/" +:+ DRIVE_MANIFEST_FILENAME E in
  let resolved label opts :=
    lookupDrive E sender (up_hostname urlp) (up_version urlp)
      (addEvents w [EvTimer (to E opts); EvCheckin label]) in
  ((forall data opts, failsWithoutPrimitive (writeFile E sender url data opts) w) /\
   (forall opts, failsWithoutPrimitive (unlink E sender url opts) w) /\
   (forall opts, failsWithoutPrimitive (mkdir E sender url opts) w)) /\
  (forall data opts l w1,
     resolved "looking up drive" (Some opts) = (Ok l, w1) ->
     isHistoric l = false ->
     passes (assertWritePermission E (drive l) sender) (addEvents w1 [EvPause]) ->
     passes (assertQuotaPermission E (drive l) (extractOrigin E (getURL sender))
               (Buffer_byteLength E data (encoding opts)))
            (snd (assertWritePermission E (drive l) sender (addEvents w1 [EvPause]))) ->
     passes (assertValidFilePath E manifest) w ->
     fst (writeFile E sender url data opts w) = Err ProtectedFileNotWritableError) /\
  (forall opts l w1,
     resolved "looking up drive" (Some opts) = (Ok l, w1) ->
     isHistoric l = false ->
     passes (assertWritePermission E (drive l) sender) (addEvents w1 [EvPause]) ->
     fst (unlink E sender url opts w) = Err ProtectedFileNotWritableError) /\
  (forall opts l w1,
     resolved "searching for drive" opts = (Ok l, w1) ->
     isHistoric l = false ->
     passes (assertWritePermission E (drive l) sender) (addEvents w1 [EvPause]) ->
     passes (assertValidPath E manifest) w ->
     fst (mkdir E sender url opts w) = Err ProtectedFileNotWritableError) /\
  (forall privileged p w0,
     isSenderBeaker privileged = true ->
     assertUnprotectedFilePath E p privileged w0 = (Ok tt, w0)).
Proof.
  intros Hnp Hparse Hnorm manifest resolved.
  pose proof (assertUnprotected_manifest E sender Hnp) as Hprot. fold manifest in Hprot.
  split; [split; [|split]|split; [|split; [|split]]].
  - intros. unfold writeFile.
    rewrite Hparse, bind_liftR_ok, Hnorm, bind_liftR_ok. fold manifest.
    rewrite Hprot.
    apply recorded_failure_without_primitive; [keeps_gateway|fails_gateway].
  - intros. unfold unlink.
    rewrite Hparse, bind_liftR_ok, Hnorm, bind_liftR_ok. fold manifest.
    rewrite Hprot.
    apply recorded_failure_without_primitive; [keeps_gateway|fails_gateway].
  - intros. unfold mkdir.
    rewrite Hparse, bind_liftR_ok, Hnorm, bind_liftR_ok. fold manifest.
    rewrite Hprot.
    apply recorded_failure_without_primitive; [keeps_gateway|fails_gateway].
  - intros data opts l w1 Hl Hh Hperm Hquota Hvalid. unfold writeFile.
    rewrite Hparse, bind_liftR_ok, Hnorm, bind_liftR_ok. fold manifest.
    rewrite Hprot.
    unfold record, timer, checkin, pause, bind, logEvent. simpl.
    unfold resolved, addEvents in Hl. simpl in Hl.
    rewrite <- app_assoc. simpl. rewrite Hl, Hh.
    unfold passes, addEvents in Hperm, Hquota. simpl in Hperm, Hquota.
    destruct (assertWritePermission E (drive l) sender _) as [[b|e] w2];
      [|discriminate]. simpl in Hquota.
    destruct (assertQuotaPermission E (drive l) _ _ w2) as [[[]|e] w3];
      [|discriminate].
    unfold passes in Hvalid. unfold assertValidFilePath, assertValidPath in *.
    destruct (decide (JsString.lastChar manifest = Some "/"%char)); [discriminate|].
    destruct (negb (DRIVE_VALID_PATH_REGEX_test E manifest)); [discriminate|].
    reflexivity.
  - intros opts l w1 Hl Hh Hperm. unfold unlink.
    rewrite Hparse, bind_liftR_ok, Hnorm, bind_liftR_ok. fold manifest.
    rewrite Hprot.
    unfold record, timer, checkin, pause, bind, logEvent. simpl.
    unfold resolved, addEvents in Hl. simpl in Hl.
    rewrite <- app_assoc. simpl. rewrite Hl, Hh.
    unfold passes, addEvents in Hperm. simpl in Hperm.
    destruct (assertWritePermission E (drive l) sender _) as [[b|e] w2];
      [|discriminate]. reflexivity.
  - intros opts l w1 Hl Hh Hperm Hvalid. unfold mkdir.
    rewrite Hparse, bind_liftR_ok, Hnorm, bind_liftR_ok. fold manifest.
    rewrite Hprot.
    unfold record, timer, checkin, pause, bind, logEvent. simpl.
    unfold resolved, addEvents in Hl. simpl in Hl.
    rewrite <- app_assoc. simpl. rewrite Hl, Hh.
    unfold passes, addEvents in Hperm. simpl in Hperm.
    destruct (assertWritePermission E (drive l) sender _) as [[b|e] w2];
      [|discriminate].
    unfold passes in Hvalid. unfold assertValidPath in *.
    destruct (negb (DRIVE_VALID_PATH_REGEX_test E manifest)); [discriminate|].
    reflexivity.
  - intros. now apply assertUnprotected_privileged.
Qed.

Lemma manifest_path_protected_witness :
  isSenderBeaker Demo.webPage = false /\
  fst (writeFile (Demo.env 0 true Demo.noFiles) Demo.webPage
         ("hyper://" +:+ Demo.keyA +:+ "/index.json") "{}" noOpts emptyWorld)
    = Err ProtectedFileNotWritableError /\
  fst (unlink (Demo.env 0 true Demo.noFiles) Demo.webPage
         ("hyper://" +:+ Demo.keyA +:+ "/index.json") noOpts emptyWorld)
    = Err ProtectedFileNotWritableError /\
  fst (mkdir (Demo.env 0 true Demo.noFiles) Demo.webPage
         ("hyper://" +:+ Demo.keyA +:+ "/index.json") None emptyWorld)
    = Err ProtectedFileNotWritableError.
Proof.
  destruct (manifest_path_protected (Demo.env 0 true Demo.noFiles) Demo.webPage
              ("hyper://" +:+ Demo.keyA +:+ "/index.json")
              {| up_protocol := "hyper:";
                 up_origin := "hyper://" +:+ Demo.keyA +:+ "/";
                 up_host := Demo.keyA; up_hostname := Demo.keyA;
                 up_pathname := "/index.json"; up_version := None |}
              emptyWorld eq_refl eq_refl eq_refl) as (_ & Hw & Hu & Hm & _).
  split; [reflexivity|]. split; [|split].
  - apply (Hw "{}" noOpts _ _ eq_refl); reflexivity.
  - apply (Hu noOpts _ _ eq_refl); reflexivity.
  - apply (Hm None _ _ eq_refl); reflexivity.
Defined.

(** ** The quota *)

Lemma assertQuotaPermission_run E d origin B w :
  assertQuotaPermission E d origin B w =
  if JsString.startsWith origin "beaker:" then (Ok tt, w)
  else
    match getMeta_size E (w_trace w) (key d) with
    | Err e => (Err e, addEvents w [EvGetMeta (key d)])
    | Ok size =>
        if size + B >? DAT_QUOTA_DEFAULT_BYTES_ALLOWED E
        then (Err QuotaExceededError, addEvents w [EvGetMeta (key d)])
        else (Ok tt, addEvents w [EvGetMeta (key d)])
    end.
Proof.
  unfold assertQuotaPermission.
  destruct (JsString.startsWith origin "beaker:"); [reflexivity|].
  unfold getMeta, callH, call, bind, logEvent, liftR. simpl.
  destruct (getMeta_size E (w_trace w) (key d)) as [size|e]; [|reflexivity].
  simpl. destruct (size + B >? DAT_QUOTA_DEFAULT_BYTES_ALLOWED E); reflexivity.
Qed.

(** What the code exempts: origins of the [beaker:] scheme. *)
Lemma quota_exempt_beaker_scheme E d origin B w :
  JsString.startsWith origin "beaker:" = true ->
  assertQuotaPermission E d origin B w = (Ok tt, w).
Proof. intros H. now rewrite assertQuotaPermission_run, H. Qed.

(** C5: the page at https://hyperdrive.network/ passes the privileged-sender
    test, yet its [writeFile] against a drive that is at its allowance
    fails with QuotaExceeded; the same call from a beaker: page resolves. *)
Theorem quota_applies_to_hyperdrive_network :
  isSenderBeaker Demo.networkPage = true /\
  extractOrigin (Demo.env 524288000 false Demo.noFiles) (getURL Demo.networkPage)
    = "https://hyperdrive.network" /\
  fst (writeFile (Demo.env 524288000 false Demo.noFiles) Demo.networkPage
         ("hyper://" +:+ Demo.keyA +:+ "/notes.txt") "hi" noOpts emptyWorld)
    = Err QuotaExceededError /\
  fst (writeFile (Demo.env 524288000 false Demo.noFiles) Demo.beakerPage
         ("hyper://" +:+ Demo.keyA +:+ "/notes.txt") "hi" noOpts emptyWorld)
    = Ok VUndefined.
Proof. repeat split. Qed.

Lemma written_app len k t1 t2 :
  written len k (t1 ++ t2) = written len k t1 + written len k t2.
Proof.
  induction t1 as [|e t1 IH]; simpl; [reflexivity|].
  destruct e; try exact IH. destruct c; try exact IH. rewrite IH. lia.
Qed.

Lemma written_notPda len k t : forallb notPda t = true -> written len k t = 0.
Proof.
  induction t as [|e t IH]; simpl; [reflexivity|]. intros H.
  apply andb_true_iff in H as [He Ht]. destruct e; try discriminate; auto.
Qed.

Lemma lookupEvents_notPda E k v d : forallb notPda (lookupEvents E k v d) = true.
Proof. unfold lookupEvents. destruct (getDrive E k); reflexivity. Qed.

Lemma lookupUrlDriveKey_self E url urlp k w :
  HYPERDRIVE_HASH_REGEX_test E url = false ->
  JsString.startsWith url "hyper://" = true ->
  parseDriveUrl E url = Ok urlp ->
  resolveName E (up_hostname urlp) = Ok k ->
  lookupUrlDriveKey E url w =
    (Ok (Some k), addEvents w [EvResolveName (up_hostname urlp)]).
Proof.
  intros H1 H2 H3 H4. unfold lookupUrlDriveKey. rewrite H1, H2, H3. simpl.
  unfold bind, liftR, tryCatch, call, bind, logEvent, liftR, ret. simpl.
  rewrite H4. reflexivity.
Qed.

Lemma run_bind_ok {A B} (m : M A) (k : A -> M B) w a w1 res :
  m w = (Ok a, w1) -> k a w1 = res -> bind m k w = res.
Proof. intros Hm Hk. unfold bind. now rewrite Hm. Qed.

Lemma run_bind_err {A B} (m : M A) (k : A -> M B) w e w1 :
  m w = (Err e, w1) -> bind m k w = (Err e, w1).
Proof. intros Hm. unfold bind. now rewrite Hm. Qed.

Lemma run_record {A} caller method target size (fn : M A) w r w' :
  fn w = (r, w') ->
  record caller method target size fn w =
    (r, {| w_grants := w_grants w';
           w_audit := w_audit w' ++
             [{| ae_caller := caller; ae_method := method; ae_target := target;
                 ae_writeSize := size; ae_success := isOk r |}];
           w_trace := w_trace w' |}).
Proof. intros Hfn. unfold record. now rewrite Hfn. Qed.

Lemma logEvent_run e w : logEvent e w = (Ok tt, addEvents w [e]).
Proof. reflexivity. Qed.

Lemma addEvents_addEvents w a b :
  addEvents (addEvents w a) b = addEvents w (a ++ b).
Proof. unfold addEvents. simpl. now rewrite <- app_assoc. Qed.

Lemma pdaCall_run E c w :
  pdaCall E c w = (pda E (w_trace w) c, addEvents w [EvPda c]).
Proof. reflexivity. Qed.

(** One accounted write: it is rejected with QuotaExceeded when it would
    take the drive past the allowance, and otherwise reaches
    [pda.writeFile], which adds its bytes to the accounted size. *)
Lemma writeFile_accounted E sender s data w :
  WritesAccounted E sender s ->
  let len := fun data => Buffer_byteLength E data None in
  let k := key (ws_drive s) in
  let size := ws_size0 s + written len k (w_trace w) in
  let r := writeFile E sender (ws_url s) data noOpts w in
  if size + len data >? DAT_QUOTA_DEFAULT_BYTES_ALLOWED E
  then fst r = Err QuotaExceededError /\
       written len k (w_trace (snd r)) = written len k (w_trace w)
  else isOk (fst r) = true /\
       written len k (w_trace (snd r)) = written len k (w_trace w) + len data.
Proof.
  intros [Hparse Hnorm Hres Hco Huser Horigin Hinfo Hnh Hhy Hsp Hself Hns Hval
          Hunp Hpda Hsize] len k size r.
  assert (Hperm : forall w0,
            assertWritePermission E (ws_drive s) sender w0 =
            (Ok true, addEvents (addEvents w0 [EvGetDriveInfo k])
                        [EvResolveName (up_hostname (ws_senderp s))])).
  { intros w0. rewrite (assertWritePermission_run _ _ _ _ _ Hinfo), Huser.
    rewrite (lookupUrlDriveKey_self _ _ _ _ _ Hnh Hhy Hsp Hself).
    now rewrite decide_True by reflexivity. }
  assert (Hlen0 : forall evs, forallb notPda evs = true ->
            written len k (w_trace w ++ evs) = written len k (w_trace w)).
  { intros evs Hev. rewrite written_app, (written_notPda _ _ _ Hev). lia. }
  pose (pre := [EvTimer (to E (Some noOpts)); EvCheckin "looking up drive"] ++
               lookupEvents E (up_hostname (ws_urlp s)) (up_version (ws_urlp s))
                 (ws_drive s) ++
               [EvPause; EvGetDriveInfo k;
                EvResolveName (up_hostname (ws_senderp s))]).
  assert (Hpre : forallb notPda pre = true).
  { unfold pre. rewrite !forallb_app, lookupEvents_notPda. reflexivity. }
  assert (Hbody : exists w1,
            w_trace w1 = w_trace w ++ pre /\
            forall (rest : Lookup -> M Value),
              (timer (to E (Some noOpts))
                 (checkin "looking up drive" ;;
                  l <- lookupDrive E sender (up_hostname (ws_urlp s))
                         (up_version (ws_urlp s)) ;;
                  if isHistoric l then throw ArchiveNotWritableError
                  else
                    pause ;;
                    assertWritePermission E (drive l) sender ;;
                    rest l)) w =
              rest {| drive := ws_drive s; version := up_version (ws_urlp s);
                      isHistoric := false; checkoutFS := ws_co s |} w1).
  { eexists. split; cycle 1.
    - intros rest. unfold timer, checkin, pause.
      eapply run_bind_ok; [apply logEvent_run|].
      eapply run_bind_ok; [apply logEvent_run|].
      eapply run_bind_ok; [apply lookupDrive_run; exact Hres|]. cbn [isHistoric drive].
      eapply run_bind_ok; [apply logEvent_run|].
      eapply run_bind_ok; [apply Hperm|]. reflexivity.
    - unfold pre. cbn [addEvents w_trace]. rewrite <- !app_assoc. reflexivity. }
  destruct Hbody as (w1 & Hw1 & Hbody).
  assert (Hmeta : getMeta_size E (w_trace w1) k = Ok size).
  { unfold k. rewrite Hsize. fold k. fold len. rewrite Hw1, Hlen0 by exact Hpre.
    reflexivity. }
  subst r. unfold writeFile. rewrite Hparse, bind_liftR_ok, Hnorm, bind_liftR_ok.
  cbn [encoding noOpts]. fold (len data).
  destruct (size + len data >? DAT_QUOTA_DEFAULT_BYTES_ALLOWED E) eqn:Hq.
  - erewrite run_record; cycle 1.
    { rewrite Hbody. cbn [drive checkoutFS]. eapply run_bind_err.
      rewrite assertQuotaPermission_run, Horigin. fold k. rewrite Hmeta, Hq.
      reflexivity. }
    simpl. split; [reflexivity|]. rewrite Hw1, <- app_assoc.
    apply Hlen0. rewrite forallb_app, Hpre. reflexivity.
  - pose proof (Hpda (w_trace w1 ++ [EvGetMeta k] ++
                        [EvResume] ++ [EvCheckin "writing file"])
                  (PdaWriteFile (ws_co s) (ws_path s) data noOpts)) as Hv.
    erewrite run_record; cycle 1.
    { rewrite Hbody. cbn [drive checkoutFS].
      eapply run_bind_ok.
      { rewrite assertQuotaPermission_run, Horigin. fold k. rewrite Hmeta, Hq.
        reflexivity. }
      eapply run_bind_ok.
      { unfold assertValidFilePath, assertValidPath.
        rewrite decide_False by exact Hns. rewrite Hval. reflexivity. }
      eapply run_bind_ok.
      { unfold assertUnprotectedFilePath. rewrite Huser, Hunp. reflexivity. }
      unfold resume, checkin.
      eapply run_bind_ok; [apply logEvent_run|].
      eapply run_bind_ok; [apply logEvent_run|].
      apply pdaCall_run. }
    cbn [fst snd w_trace addEvents]. rewrite <- !app_assoc in *.
    split.
    + destruct (pda E _ _); [reflexivity|discriminate].
    + rewrite Hw1, <- !app_assoc, !written_app, (written_notPda _ _ _ Hpre).
      simpl. rewrite Hco. fold k. rewrite String.eqb_refl. fold (len data). lia.
Qed.

Lemma writeAll_first_rejected E sender s :
  WritesAccounted E sender s ->
  forall datas w,
    firstRejected (fst (writeAll E sender (ws_url s) datas w)) =
    firstCrossing (DAT_QUOTA_DEFAULT_BYTES_ALLOWED E)
      (ws_size0 s +
       written (fun data => Buffer_byteLength E data None) (key (ws_drive s))
               (w_trace w))
      (map (fun data => Buffer_byteLength E data None) datas).
Proof.
  intros Hacc datas. induction datas as [|data datas IH]; intros w; [reflexivity|].
  pose proof (writeFile_accounted E sender s data w Hacc) as Hstep.
  cbv zeta in Hstep. simpl.
  destruct (writeFile E sender (ws_url s) data noOpts w) as [r w1].
  specialize (IH w1).
  destruct (writeAll E sender (ws_url s) datas w1) as [rs w2]. simpl in *.
  destruct (_ >? _).
  - destruct Hstep as [-> _]. reflexivity.
  - destruct Hstep as [Hok Hw]. destruct r as [v|e]; [|discriminate].
    rewrite IH, Hw, Z.add_assoc. reflexivity.
Qed.

(** C4: for an origin that the quota check does not exempt, with [S] the
    size just fetched for the drive and [A] the default allowance (the
    only allowance there is), a request for [B] more bytes passes exactly
    when [S + B <= A] and fails with QuotaExceeded exactly when
    [S + B > A].  When the site of a drive writes to it again and again
    and every accepted write adds its bytes to the accounted size, the
    first call rejected is the first write that would cross the
    allowance. *)
Theorem quota_threshold (E : Env) (d : Drive) (origin : string) :
  JsString.startsWith origin "beaker:" = false ->
  let A := DAT_QUOTA_DEFAULT_BYTES_ALLOWED E in
  let len := fun data => Buffer_byteLength E data None in
  (forall B w S,
     getMeta_size E (w_trace w) (key d) = Ok S ->
     (fst (assertQuotaPermission E d origin B w) = Ok tt <-> S + B <= A) /\
     (fst (assertQuotaPermission E d origin B w) = Err QuotaExceededError
      <-> S + B > A)) /\
  (forall sender s datas w,
     WritesAccounted E sender s ->
     ws_drive s = d -> extractOrigin E (getURL sender) = origin ->
     firstRejected (fst (writeAll E sender (ws_url s) datas w)) =
     firstCrossing A (ws_size0 s + written len (key d) (w_trace w))
       (map len datas)).
Proof.
  intros Horigin A len. split.
  - intros B w S Hmeta. rewrite assertQuotaPermission_run, Horigin, Hmeta.
    fold A. destruct (S + B >? A) eqn:Hq; simpl.
    + apply Z.gtb_lt in Hq. split; split; intros H;
        first [discriminate | lia | reflexivity].
    + assert (S + B <= A) by (destruct (Z.gtb_spec (S + B) A); [discriminate|lia]).
      split; split; intros H'; first [discriminate | lia | reflexivity].
  - intros sender s datas w Hacc <- _. now apply writeAll_first_rejected.
Qed.

Lemma quota_threshold_witness :
  JsString.startsWith ("hyper://" +:+ Demo.keyA) "beaker:" = false /\
  (fst (assertQuotaPermission (Demo.env 524287994 false Demo.noFiles)
          {| key := Demo.keyA; writable := false |} ("hyper://" +:+ Demo.keyA) 6
          emptyWorld) = Ok tt <-> 524287994 + 6 <= 524288000) /\
  firstRejected
    (fst (writeAll (Demo.env 524287994 false Demo.noFiles)
            (Demo.driveSite Demo.keyA)
            ("hyper://" +:+ Demo.keyA +:+ "/notes.txt")
            ["four"; "more"; "x"] emptyWorld)) = Some 1%nat.
Proof.
  pose (E := Demo.env 524287994 false Demo.noFiles).
  pose (s := {| ws_url := "hyper://" +:+ Demo.keyA +:+ "/notes.txt";
                ws_urlp := {| up_protocol := "hyper:";
                              up_origin := "hyper://" +:+ Demo.keyA +:+ "/";
                              up_host := Demo.keyA; up_hostname := Demo.keyA;
                              up_pathname := "/notes.txt"; up_version := None |};
                ws_path := "/notes.txt";
                ws_drive := {| key := Demo.keyA; writable := false |};
                ws_co := {| co_key := Demo.keyA; co_version := None |};
                ws_senderp := {| up_protocol := "hyper:";
                                 up_origin := "hyper://" +:+ Demo.keyA +:+ "/";
                                 up_host := Demo.keyA; up_hostname := Demo.keyA;
                                 up_pathname := "/index.html"; up_version := None |};
                ws_info := [("key", VStr Demo.keyA); ("title", VStr "Demo drive")];
                ws_size0 := 524287994 |}).
  assert (Hacc : WritesAccounted E (Demo.driveSite Demo.keyA) s).
  { constructor; try reflexivity.
    - split; reflexivity.
    - discriminate. }
  destruct (quota_threshold E {| key := Demo.keyA; writable := false |}
              ("hyper://" +:+ Demo.keyA) eq_refl) as [Hiff Hseq].
  split; [reflexivity|]. split.
  - apply (Hiff 6 emptyWorld 524287994 eq_refl).
  - assert (Hd : ws_drive s = {| key := Demo.keyA; writable := false |}) by reflexivity.
    exact (Hseq (Demo.driveSite Demo.keyA) s ["four"; "more"; "x"] emptyWorld
             Hacc Hd eq_refl).
Defined.

Example writeAll_rejects_the_crossing_write :
  fst (writeAll (Demo.env 524287994 false Demo.noFiles)
         (Demo.driveSite Demo.keyA)
         ("hyper://" +:+ Demo.keyA +:+ "/notes.txt")
         ["four"; "more"; "x"] emptyWorld)
  = [Ok VUndefined; Err QuotaExceededError; Ok VUndefined].
Proof. reflexivity. Qed.

(** ** Queries over several drives *)

Lemma insert_perm {A} (cmp : A -> A -> Z) x l :
  Permutation (JsArray.insert cmp x l) (x :: l).
Proof.
  induction l as [|y l IH]; simpl; [reflexivity|].
  destruct (cmp x y <=? 0); [reflexivity|].
  rewrite IH. apply perm_swap.
Qed.

(** The re-sort keeps exactly the merged results. *)
Lemma sort_perm {A} (cmp : A -> A -> Z) l : Permutation (JsArray.sort cmp l) l.
Proof.
  induction l as [|x l IH]; simpl; [reflexivity|].
  unfold JsArray.sort in *. simpl. rewrite insert_perm. now constructor.
Qed.

Lemma insert_sorted {A} (cmp : A -> A -> Z) x l :
  (forall a b, cmp a b <= 0 \/ cmp b a <= 0) ->
  (forall a b c, cmp a b <= 0 -> cmp b c <= 0 -> cmp a c <= 0) ->
  StronglySorted (fun a b => cmp a b <= 0) l ->
  StronglySorted (fun a b => cmp a b <= 0) (JsArray.insert cmp x l).
Proof.
  intros Htot Htr Hs. induction Hs as [|y l Hs IH Hall]; simpl.
  - repeat constructor.
  - destruct (Z.leb_spec (cmp x y) 0) as [Hle|Hgt].
    + constructor; [constructor; assumption|].
      constructor; [exact Hle|].
      rewrite List.Forall_forall in *. intros z Hz. eapply Htr; eauto.
    + constructor; [exact IH|].
      assert (Hyx : cmp y x <= 0) by (destruct (Htot x y); [lia|assumption]).
      rewrite List.Forall_forall in *. intros z Hz.
      apply (Permutation_in _ (insert_perm cmp x l)) in Hz.
      destruct Hz as [<-|Hz]; auto.
Qed.

(** With a comparator that is total and transitive, the re-sort orders. *)
Lemma sort_sorted {A} (cmp : A -> A -> Z) l :
  (forall a b, cmp a b <= 0 \/ cmp b a <= 0) ->
  (forall a b c, cmp a b <= 0 -> cmp b c <= 0 -> cmp a c <= 0) ->
  StronglySorted (fun a b => cmp a b <= 0) (JsArray.sort cmp l).
Proof.
  intros Htot Htr. induction l as [|x l IH]; simpl; [constructor|].
  now apply insert_sorted.
Qed.

Lemma resort_mtime_sorted ops opts results :
  q_sort opts = Some "mtime" ->
  StronglySorted (fun a b => compareMtime (q_reverse opts) a b <= 0)
    (resort ops opts results).
Proof.
  intros Hs. unfold resort. rewrite Hs.
  rewrite decide_False by discriminate. rewrite decide_True by reflexivity.
  apply sort_sorted; unfold compareMtime; destruct (q_reverse opts); intros; lia.
Qed.

Lemma startQueries_run E opts cos w :
  startQueries E opts cos w =
    (Ok (map (fun co => fs_query E co opts) cos), addEvents w (map EvQuery cos)).
Proof.
  revert w. induction cos as [|co cos IH]; intros w; simpl.
  - unfold ret, addEvents. simpl. rewrite app_nil_r. now destruct w.
  - unfold bind, logEvent. simpl. rewrite IH. unfold ret, addEvents. simpl.
    now rewrite <- app_assoc.
Qed.

(** What the gateway does with the per-drive results: with more than one
    drive, it re-sorts their concatenation and slices it by the same
    offset and limit that every per-drive query was already given; with
    one drive, it hands the results on untouched. *)
Lemma query_merges E sender opts w urls cos w1 rs :
  truthyDrive (q_drive opts) = true ->
  urls = match q_drive opts with
         | DriveArray urls => urls
         | DriveString url => [url]
         | _ => []
         end ->
  resolveDrives E sender urls
    (addEvents w [EvTimer (match q_timeout opts with
                           | Some t => t
                           | None => DEFAULT_DRIVE_API_TIMEOUT E
                           end);
                  EvCheckin "looking up drives"]) = (Ok cos, w1) ->
  promiseAll (map (fun co => fs_query E co opts) cos) = Ok rs ->
  fst (query E sender opts w) =
    Ok (if 1 <? Z.of_nat (length urls)
        then reslice opts (resort (stringOps E) opts (concat rs))
        else concat rs).
Proof.
  intros Ht Hurls Hres Hall. unfold query. rewrite Ht. cbn [negb]. cbv zeta.
  rewrite <- Hurls.
  destruct (1 <? Z.of_nat (length urls));
    (erewrite run_record; [reflexivity|]);
    unfold timer, checkin;
    (eapply run_bind_ok; [apply logEvent_run|]);
    (eapply run_bind_ok; [apply logEvent_run|]);
    (eapply run_bind_ok; [rewrite addEvents_addEvents; exact Hres|]);
    (eapply run_bind_ok; [apply logEvent_run|]);
    (eapply run_bind_ok; [apply startQueries_run|]);
    rewrite Hall, bind_liftR_ok; reflexivity.
Qed.

(** C7: two drives hold a.txt, c.txt and b.txt, d.txt.  Asked for
    [sort=name, offset=1, limit=1], each per-drive query already skips one
    match and returns one (c.txt, d.txt); the gateway then re-sorts these
    two and skips again, answering d.txt, whereas the second result by name
    across the union is b.txt. *)
Theorem query_offset_applied_twice :
  let opts := {| q_drive := DriveArray [Demo.keyA; Demo.keyB];
                 q_filter := VUndefined; q_sort := Some "name";
                 q_reverse := false; q_offset := Some 1; q_limit := Some 1;
                 q_timeout := None |} in
  let E := Demo.env 0 false Demo.twoDrives in
  fs_query E {| co_key := Demo.keyA; co_version := None |} opts
    = Ok [Demo.file "/c.txt" 3] /\
  fs_query E {| co_key := Demo.keyB; co_version := None |} opts
    = Ok [Demo.file "/d.txt" 4] /\
  fst (query E Demo.webPage opts emptyWorld) = Ok [Demo.file "/d.txt" 4] /\
  reslice opts (resort (stringOps E) opts
                  (Demo.twoDrives Demo.keyA ++ Demo.twoDrives Demo.keyB))
    = [Demo.file "/b.txt" 2].
Proof. repeat split. Qed.

(** ** Rename and copy across drives *)

Lemma mutations_app t1 t2 : mutations (t1 ++ t2) = mutations t1 ++ mutations t2.
Proof. unfold mutations, prims. rewrite omap_app. apply List.filter_app. Qed.

Lemma mutations_notMutation evs : forallb notMutation evs = true -> mutations evs = [].
Proof.
  induction evs as [|e evs IH]; simpl; [reflexivity|]. intros H.
  apply andb_true_iff in H as [He Hevs]. specialize (IH Hevs).
  unfold mutations, prims in *. destruct e; simpl in *; auto.
  apply negb_true_iff in He. now rewrite He.
Qed.

Lemma reaches_keeps {A} Q (m : M A) : keeps notMutation m -> reaches Q m.
Proof.
  intros Hm w. destruct (Hm w) as [_ (evs & Ht & Ho)]. exists evs. auto.
Qed.

Lemma reaches_bind {A B} Q (m : M A) (k : A -> M B) :
  keeps notMutation m -> (forall a, reaches Q (k a)) -> reaches Q (bind m k).
Proof.
  intros Hm Hk w. unfold bind. destruct (Hm w) as [_ (e1 & Ht1 & Ho1)].
  destruct (m w) as [[a|e] w1]; simpl in *; [|exists e1; auto].
  destruct (Hk a w1) as (e2 & Ho2 & Hcase). exists (e1 ++ e2).
  rewrite forallb_app, Ho1, Ho2. split; [reflexivity|].
  destruct Hcase as [Ht2|(c & Ht2 & Hq)].
  - left. now rewrite Ht2, Ht1, <- app_assoc.
  - right. exists c. split; [|exact Hq]. now rewrite Ht2, Ht1, <- !app_assoc.
Qed.

Lemma reaches_pdaCall E Q c : Q c -> reaches Q (pdaCall E c).
Proof.
  intros Hq w. exists []. split; [reflexivity|]. right. exists c.
  split; [reflexivity|exact Hq].
Qed.

Lemma reaches_record {A} Q caller method target size (fn : M A) :
  reaches Q fn -> reaches Q (record caller method target size fn).
Proof.
  intros Hfn w.
  destruct (record_result caller method target size fn w) as (_ & _ & ->).
  apply Hfn.
Qed.

Lemma reaches_timer {A} Q ms (fn : M A) : reaches Q fn -> reaches Q (timer ms fn).
Proof.
  intros Hfn. unfold timer. apply reaches_bind; [|intros; exact Hfn].
  now apply keeps_logEvent.
Qed.

Lemma reaches_mutations {A} Q (m : M A) w :
  reaches Q m ->
  mutations (w_trace (snd (m w))) = mutations (w_trace w) \/
  exists c, mutations (w_trace (snd (m w))) = mutations (w_trace w) ++ [c] /\ Q c.
Proof.
  intros Hm. destruct (Hm w) as (evs & Ho & [Ht|(c & Ht & Hq)]); rewrite Ht.
  - left. rewrite mutations_app, (mutations_notMutation _ Ho). apply app_nil_r.
  - rewrite !mutations_app, (mutations_notMutation _ Ho). simpl.
    assert (Hc : mutations [EvPda c] = if mutates c then [c] else []).
    { unfold mutations, prims. simpl. now destruct (mutates c). }
    rewrite Hc. destruct (mutates c).
    + right. exists c. auto.
    + left. now rewrite app_nil_r.
Qed.

(** Walks down a gateway operation up to its first path check. *)
Ltac reaches_prefix :=
  repeat lazymatch goal with
         | |- reaches _ (bind (assertValidPath _ _) _) => fail
         | |- reaches _ (bind (assertUnprotectedFilePath _ _ _) _) => fail
         | |- reaches _ (record _ _ _ _ _) => apply reaches_record
         | |- reaches _ (timer _ _) => apply reaches_timer
         | |- reaches _ (bind _ _) =>
             apply reaches_bind; [solve [keeps_gateway]|intros]
         end.

(** The protection check of a sender that is not privileged. *)
Ltac protect_case :=
  lazymatch goal with
  | |- reaches _ (bind (if String.eqb ?p ?m then _ else _) _) =>
      let H := fresh "Hp" in
      destruct (String.eqb p m) eqn:H;
      [apply reaches_keeps, keeps_bind_throw
      |apply reaches_bind; [keeps_gateway|intros]]
  end.

Ltac reaches_gateway :=
  repeat first
    [ apply reaches_record
    | apply reaches_pdaCall
    | apply reaches_keeps; solve [keeps_gateway]
    | apply reaches_bind; [solve [keeps_gateway]|intros] ].

(** [rename] changes a drive only by its one [pda.rename], and only for a
    destination path that passed the legality check and, for a sender that
    is not privileged, with neither path being the manifest. *)
Lemma rename_checks_before_mutation E sender url dstpath opts :
  reaches (fun c => exists src sp dst dp,
             c = PdaRename src sp dst dp /\
             DRIVE_VALID_PATH_REGEX_test E dp = true /\
             (isSenderBeaker sender = true \/
              (String.eqb sp ("/" +:+ DRIVE_MANIFEST_FILENAME E) = false /\
               String.eqb dp ("/" +:+ DRIVE_MANIFEST_FILENAME E) = false)))
    (rename E sender url dstpath opts).
Proof.
  unfold rename. reaches_prefix.
  lazymatch goal with
  | |- reaches _ (bind (assertValidPath E ?dp) _) =>
      unfold assertValidPath;
      destruct (DRIVE_VALID_PATH_REGEX_test E dp) eqn:Hv; cbn [negb];
      [|apply reaches_keeps, keeps_bind_throw]
  end.
  apply reaches_bind; [keeps_gateway|intros].
  unfold assertUnprotectedFilePath.
  destruct (isSenderBeaker sender) eqn:Hb.
  - reaches_gateway. eauto 10.
  - protect_case. protect_case. reaches_gateway. eauto 10.
Qed.

(** [copy] changes a drive only by its one [pda.copy], and for a sender
    that is not privileged only when the destination path is not the
    manifest; the legality of the destination path is never looked at. *)
Lemma copy_checks_before_mutation E sender url dstpath opts :
  reaches (fun c => exists src sp dst dp,
             c = PdaCopy src sp dst dp /\
             (isSenderBeaker sender = true \/
              String.eqb dp ("/" +:+ DRIVE_MANIFEST_FILENAME E) = false))
    (copy E sender url dstpath opts).
Proof.
  unfold copy. reaches_prefix.
  unfold assertUnprotectedFilePath.
  destruct (isSenderBeaker sender) eqn:Hb.
  - reaches_gateway. eauto 10.
  - protect_case. reaches_gateway. eauto 10.
Qed.

Lemma rename_mutates_only_after_checks E sender url dstpath opts w :
  mutations (w_trace (snd (rename E sender url dstpath opts w)))
    = mutations (w_trace w) \/
  exists src sp dst dp,
    mutations (w_trace (snd (rename E sender url dstpath opts w)))
      = mutations (w_trace w) ++ [PdaRename src sp dst dp] /\
    DRIVE_VALID_PATH_REGEX_test E dp = true /\
    (isSenderBeaker sender = true \/
     (String.eqb sp ("/" +:+ DRIVE_MANIFEST_FILENAME E) = false /\
      String.eqb dp ("/" +:+ DRIVE_MANIFEST_FILENAME E) = false)).
Proof.
  destruct (reaches_mutations _ _ w
              (rename_checks_before_mutation E sender url dstpath opts))
    as [H|(c & H & src & sp & dst & dp & -> & Hv & Hp)]; [left; exact H|].
  right. exists src, sp, dst, dp. auto.
Qed.

Lemma copy_mutates_only_after_checks E sender url dstpath opts w :
  mutations (w_trace (snd (copy E sender url dstpath opts w)))
    = mutations (w_trace w) \/
  exists src sp dst dp,
    mutations (w_trace (snd (copy E sender url dstpath opts w)))
      = mutations (w_trace w) ++ [PdaCopy src sp dst dp] /\
    (isSenderBeaker sender = true \/
     String.eqb dp ("/" +:+ DRIVE_MANIFEST_FILENAME E) = false).
Proof.
  destruct (reaches_mutations _ _ w
              (copy_checks_before_mutation E sender url dstpath opts))
    as [H|(c & H & src & sp & dst & dp & -> & Hp)]; [left; exact H|].
  right. exists src, sp, dst, dp. auto.
Qed.

(** Without the user's approval neither operation changes a drive. *)
Example cross_drive_denied_changes_nothing :
  let E := Demo.env 0 false Demo.noFiles in
  let src := "hyper://" +:+ Demo.keyA +:+ "/a.txt" in
  let dst := "hyper://" +:+ Demo.keyB +:+ "/b.txt" in
  fst (rename E Demo.webPage src dst noOpts emptyWorld) = Err UserDeniedError /\
  mutations (w_trace (snd (rename E Demo.webPage src dst noOpts emptyWorld))) = [] /\
  fst (copy E Demo.webPage src dst noOpts emptyWorld) = Err UserDeniedError /\
  mutations (w_trace (snd (copy E Demo.webPage src dst noOpts emptyWorld))) = [].
Proof. repeat split. Qed.

(** C8: a web page with the user's approval moves, then copies, a file to
    the path /bad|name of another drive, a path the legality check turns
    down.  [rename] checks the destination path and fails with InvalidPath,
    changing nothing; [copy] has no such check and calls [pda.copy] with
    the illegal destination. *)
Theorem copy_skips_destination_legality :
  let E := Demo.env 0 true Demo.noFiles in
  let src := "hyper://" +:+ Demo.keyA +:+ "/a.txt" in
  let dst := "hyper://" +:+ Demo.keyB +:+ "/bad|name" in
  DRIVE_VALID_PATH_REGEX_test E "/bad|name" = false /\
  fst (rename E Demo.webPage src dst noOpts emptyWorld) = Err InvalidPathError /\
  mutations (w_trace (snd (rename E Demo.webPage src dst noOpts emptyWorld))) = [] /\
  fst (copy E Demo.webPage src dst noOpts emptyWorld) = Ok VUndefined /\
  mutations (w_trace (snd (copy E Demo.webPage src dst noOpts emptyWorld)))
    = [PdaCopy {| co_key := Demo.keyA; co_version := None |} "/a.txt"
               {| co_key := Demo.keyB; co_version := None |} "/bad|name"].
Proof. repeat split. Qed.

(** ** The gateway, run *)

(** A web page writes to a drive it does not own, with no cached grant, and
    the user turns the prompt down: UserDenied, one prompt, one audit entry
    for writeFile recording a failure, and no file primitive. *)
Example denied_write_is_recorded :
  let r := writeFile (Demo.env 0 false Demo.noFiles) Demo.webPage
             ("hyper://" +:+ Demo.keyA +:+ "/notes.txt") "hi" noOpts emptyWorld in
  fst r = Err UserDeniedError /\
  prompts (w_trace (snd r))
    = [("modifyDrive:" +:+ Demo.keyA, "https://example.com/app")] /\
  map (fun e => (ae_method e, ae_success e)) (w_audit (snd r))
    = [("writeFile", false)] /\
  prims (w_trace (snd r)) = [].
Proof. repeat split. Qed.

(** The privileged page sets the title of a drive: the manifest is updated
    without a prompt, and one audit entry records the success. *)
Example privileged_configure_is_recorded :
  let r := configure (Demo.env 0 false Demo.noFiles) Demo.beakerPage
             ("hyper://" +:+ Demo.keyA +:+ "/") (VObj [("title", VStr "x")])
             None emptyWorld in
  fst r = Ok VUndefined /\
  prompts (w_trace (snd r)) = [] /\
  map (fun e => (ae_method e, ae_success e)) (w_audit (snd r))
    = [("configure", true)] /\
  prims (w_trace (snd r))
    = [PdaUpdateManifest {| co_key := Demo.keyA; co_version := None |}
         [("title", VStr "x")]].
Proof. repeat split. Qed.

(** A web page creates a drive through the modal and is granted write
    permission on it. *)
Example created_drive_is_granted :
  let r := createDrive (Demo.env 0 true Demo.noFiles) Demo.webPage
             (VStr "t") VUndefined VUndefined VUndefined None emptyWorld in
  fst r = Ok ("hyper://" +:+ Demo.keyB +:+ "/") /\
  w_grants (snd r) !! ("https://example.com", "modifyDrive:" +:+ Demo.keyB)
    = Some true /\
  w_audit (snd r) = [].
Proof. vm_compute. repeat split. Qed.

(** * Further properties of the gateway *)

(** ** Operations reserved to the privileged sender *)

(** X1: [beakerDiff], [beakerMerge], [importFromFilesystem],
    [exportToFilesystem] and [exportToDrive] called by a sender that is not
    privileged fail with PermissionsError and leave the world as it was:
    no drive is looked up, no primitive is called, nothing is logged. *)
Theorem privileged_operations_refuse_userland (E : Env) (sender : Sender)
    (c : ApiCall) (w : World) :
  isSenderBeaker sender = false ->
  privilegedOnly c = true ->
  invoke E sender c w = (Err PermissionsError, w).
Proof.
  intros Hs Hc.
  destruct c; try discriminate Hc; cbn [invoke];
    unfold beakerDiff, beakerMerge, importFromFilesystem, exportToFilesystem,
      exportToDrive, assertBeakerOnly;
    rewrite Hs; reflexivity.
Qed.

Lemma privileged_operations_refuse_userland_witness :
  isSenderBeaker Demo.webPage = false /\
  invoke (Demo.env 0 true Demo.noFiles) Demo.webPage
    (ExportToDrive Demo.keyA Demo.keyB VUndefined) emptyWorld
  = (Err PermissionsError, emptyWorld).
Proof.
  split; [reflexivity|].
  apply privileged_operations_refuse_userland; reflexivity.
Defined.

(** ** Arguments are parsed before anything happens *)

(** X2: the operations that take a drive URL parse it first, and all of
    them but [diff] then decode its path: when [parseDriveUrl] throws, or
    the path holds a malformed escape, the call fails with that error and
    the world is unchanged: no timer was started, no drive looked up and
    no audit entry written. *)
Theorem malformed_url_rejected_first (E : Env) (sender : Sender) (c : ApiCall)
    (url : string) (w : World) :
  urlParsedFirst c = Some url ->
  (forall e, parseDriveUrl E url = Err e -> invoke E sender c w = (Err e, w)) /\
  (forall urlp e,
     parseDriveUrl E url = Ok urlp ->
     pathDecodedFirst c = true ->
     normalizeFilepath (up_pathname urlp) = Err e ->
     invoke E sender c w = (Err e, w)).
Proof.
  intros Hc. split.
  - intros e He.
    destruct c; try discriminate Hc; injection Hc as ->; cbn [invoke];
      unfold diff, stat, readFile, writeFile, unlink, copy, rename,
        updateMetadata, deleteMetadata, readdir, mkdir, rmdir, symlink,
        mount, unmount;
      rewrite He; reflexivity.
  - intros urlp e Hp Hd He.
    destruct c; try discriminate Hc; try discriminate Hd;
      injection Hc as ->; cbn [invoke];
      unfold stat, readFile, writeFile, unlink, copy, rename,
        updateMetadata, deleteMetadata, readdir, mkdir, rmdir, symlink,
        mount, unmount;
      rewrite Hp, bind_liftR_ok, He; reflexivity.
Qed.

Lemma malformed_url_rejected_first_witness :
  invoke (Demo.env 0 true Demo.noFiles) Demo.beakerPage
    (Rename ("hyper://" +:+ Demo.keyA +:+ "/%E0%A4%A") "/b" noOpts) emptyWorld
  = (Err URIError, emptyWorld).
Proof.
  apply (proj2 (malformed_url_rejected_first (Demo.env 0 true Demo.noFiles)
                  Demo.beakerPage
                  (Rename ("hyper://" +:+ Demo.keyA +:+ "/%E0%A4%A") "/b" noOpts)
                  ("hyper://" +:+ Demo.keyA +:+ "/%E0%A4%A") emptyWorld eq_refl)
          {| up_protocol := "hyper:";
             up_origin := "hyper://" +:+ Demo.keyA +:+ "/";
             up_host := Demo.keyA; up_hostname := Demo.keyA;
             up_pathname := "/%E0%A4%A"; up_version := None |}
          URIError eq_refl eq_refl eq_refl).
Defined.

(** ** Historic checkouts *)



(** ** The write-permission check comes first *)

Lemma addEvents_nil w : addEvents w [] = w.
Proof. destruct w. unfold addEvents. simpl. now rewrite app_nil_r. Qed.

(** What [lookupUrlDriveKey] answers and logs does not depend on the world. *)
Lemma lookupUrlDriveKey_any E url w :
  lookupUrlDriveKey E url w =
    (fst (lookupUrlDriveKey E url emptyWorld),
     addEvents w (w_trace (snd (lookupUrlDriveKey E url emptyWorld)))).
Proof.
  unfold lookupUrlDriveKey.
  destruct (HYPERDRIVE_HASH_REGEX_test E url);
    [cbn; now rewrite addEvents_nil|].
  destruct (negb (JsString.startsWith url "hyper://"));
    [cbn; now rewrite addEvents_nil|].
  unfold bind, liftR, tryCatch, call, logEvent, ret; simpl.
  destruct (parseDriveUrl E url) as [urlp|e]; simpl;
    [|now rewrite addEvents_nil].
  destruct (resolveName E (up_hostname urlp)); reflexivity.
Qed.

Lemma lookupUrlDriveKey_notPda E url w :
  forallb notPda (w_trace (snd (lookupUrlDriveKey E url emptyWorld))) = true /\
  prompts (w_trace (snd (lookupUrlDriveKey E url w))) = prompts (w_trace w).
Proof.
  split; [|apply lookupUrlDriveKey_world].
  unfold lookupUrlDriveKey.
  destruct (HYPERDRIVE_HASH_REGEX_test E url); [reflexivity|].
  destruct (negb (JsString.startsWith url "hyper://")); [reflexivity|].
  unfold bind, liftR, tryCatch, call, logEvent, ret; simpl.
  destruct (parseDriveUrl E url) as [urlp|e]; simpl; [|reflexivity].
  destruct (resolveName E (up_hostname urlp)); reflexivity.
Qed.






(** ** Grants are remembered *)

(** A sender that holds a grant is let through without a prompt. *)
Lemma assertWritePermission_granted E d sender w :
  isOk (getDriveInfo E (key d)) = true ->
  isOk (fst (lookupUrlDriveKey E (getURL sender) emptyWorld)) = true ->
  w_grants w !! (extractOrigin E (getURL sender), "modifyDrive:" +:+ key d)
    = Some true ->
  fst (assertWritePermission E d sender w) = Ok true /\
  w_grants (snd (assertWritePermission E d sender w)) = w_grants w /\
  prompts (w_trace (snd (assertWritePermission E d sender w)))
    = prompts (w_trace w).
Proof.
  intros Hinfo Hkey Hgrant.
  destruct (getDriveInfo E (key d)) as [details|] eqn:Hd; [|discriminate].
  rewrite (assertWritePermission_run _ _ _ _ _ Hd).
  destruct (isSenderBeaker sender).
  { repeat split. cbn [snd]. rewrite prompts_addEvents. apply app_nil_r. }
  rewrite lookupUrlDriveKey_any.
  destruct (lookupUrlDriveKey_notPda E (getURL sender) emptyWorld) as [_ Hq].
  change (prompts (w_trace emptyWorld)) with (@nil (string * string)) in Hq.
  destruct (fst (lookupUrlDriveKey E (getURL sender) emptyWorld)) as [k|];
    [|discriminate].
  rewrite addEvents_addEvents.
  destruct (decide (k = Some (key d))).
  { repeat split. cbn [snd]. rewrite prompts_addEvents.
    unfold prompts in *. rewrite omap_app, Hq. apply app_nil_r. }
  cbv zeta. cbn [w_grants addEvents].
  destruct (decide (w_grants w !! (extractOrigin E (getURL sender),
                                   "modifyDrive:" +:+ key d) = Some true));
    [|contradiction].
  repeat split. cbn [snd]. rewrite !prompts_addEvents.
  unfold prompts in *. rewrite ?omap_app, Hq. cbn. now rewrite !app_nil_r.
Qed.

(** X5: once [assertWritePermission] has let a sender through, it lets the
    same sender through for the same drive in every later world that still
    holds the grants of that moment, and shows no prompt then: an approval
    is asked for at most once. *)
Theorem write_access_is_asked_once (E : Env) (d : Drive) (sender : Sender)
    (w w2 : World) :
  fst (assertWritePermission E d sender w) = Ok true ->
  w_grants (snd (assertWritePermission E d sender w)) ⊆ w_grants w2 ->
  fst (assertWritePermission E d sender w2) = Ok true /\
  prompts (w_trace (snd (assertWritePermission E d sender w2)))
    = prompts (w_trace w2).
Proof.
  intros Hok Hsub.
  destruct (getDriveInfo E (key d)) as [details|e] eqn:Hd.
  2: { exfalso. revert Hok.
       unfold assertWritePermission, bind, call, logEvent, liftR.
       cbn. rewrite Hd. discriminate. }
  rewrite (assertWritePermission_run _ _ _ _ _ Hd) in Hok, Hsub.
  destruct (isSenderBeaker sender) eqn:Hs.
  { rewrite (assertWritePermission_run _ _ _ _ _ Hd), Hs.
    split; [reflexivity|]. cbn [snd]. rewrite prompts_addEvents. apply app_nil_r. }
  rewrite lookupUrlDriveKey_any in Hok, Hsub.
  destruct (fst (lookupUrlDriveKey E (getURL sender) emptyWorld)) as [k|] eqn:Hk;
    [|discriminate].
  destruct (decide (k = Some (key d))) as [->|Hne].
  { rewrite (assertWritePermission_run _ _ _ _ _ Hd), Hs.
    rewrite lookupUrlDriveKey_any, Hk.
    destruct (decide (Some (key d) = Some (key d))); [|contradiction].
    split; [reflexivity|].
    destruct (lookupUrlDriveKey_notPda E (getURL sender) emptyWorld) as [_ Hq].
    change (prompts (w_trace emptyWorld)) with (@nil (string * string)) in Hq.
    cbn [snd]. rewrite !prompts_addEvents, Hq. cbn. now rewrite !app_nil_r. }
  assert (Hgrant : w_grants w2 !! (extractOrigin E (getURL sender),
                                   "modifyDrive:" +:+ key d) = Some true).
  { cbv zeta in Hok, Hsub. cbn [w_grants addEvents] in Hok, Hsub.
    destruct (decide (w_grants w !! (extractOrigin E (getURL sender),
                                     "modifyDrive:" +:+ key d) = Some true))
      as [Hg|_].
    - cbn in Hsub. eapply lookup_weaken; eassumption.
    - destruct (userApproves E _ _); [|discriminate].
      cbn in Hsub. eapply lookup_weaken; [|exact Hsub].
      apply lookup_insert_eq. }
  destruct (assertWritePermission_granted E d sender w2) as (H1 & _ & H3);
    auto; now rewrite ?Hd, ?Hk.
Qed.

Lemma write_access_is_asked_once_witness :
  let E := Demo.env 0 true Demo.noFiles in
  let d := {| key := Demo.keyA; writable := false |} in
  let w1 := snd (assertWritePermission E d Demo.webPage emptyWorld) in
  prompts (w_trace w1) = [("modifyDrive:" +:+ Demo.keyA, "https://example.com/app")] /\
  fst (assertWritePermission E d Demo.webPage w1) = Ok true /\
  prompts (w_trace (snd (assertWritePermission E d Demo.webPage w1)))
    = prompts (w_trace w1).
Proof.
  intros E d w1. split; [reflexivity|].
  apply (write_access_is_asked_once E d Demo.webPage emptyWorld w1);
    reflexivity.
Defined.

(** X6: a drive created by a sender that is not privileged can be written
    by that sender without a prompt: when [createDrive] resolves with a URL
    that names drive [k], the permission store then holds the grant under
    which [assertWritePermission] lets the creator through, in every later
    world that still holds it. *)
Theorem creator_can_write_new_drive (E : Env) (sender : Sender)
    (title description author visibility : Value) (prompt : option bool)
    (w w1 w2 : World) (url k : string) (d : Drive) :
  isSenderBeaker sender = false ->
  createDrive E sender title description author visibility prompt w
    = (Ok url, w1) ->
  fst (lookupUrlDriveKey E url emptyWorld) = Ok (Some k) ->
  key d = k ->
  isOk (getDriveInfo E k) = true ->
  isOk (fst (lookupUrlDriveKey E (getURL sender) emptyWorld)) = true ->
  w_grants w1 ⊆ w_grants w2 ->
  w_grants w1 !! (extractOrigin E (getURL sender), "modifyDrive:" +:+ k)
    = Some true /\
  fst (assertWritePermission E d sender w2) = Ok true /\
  prompts (w_trace (snd (assertWritePermission E d sender w2)))
    = prompts (w_trace w2).
Proof.
  intros Hs Hrun Hk Hd Hinfo Hself Hsub.
  assert (Hgrant : w_grants w1 !! (extractOrigin E (getURL sender),
                                   "modifyDrive:" +:+ k) = Some true).
  { revert Hrun. unfold createDrive. rewrite Hs. cbn [negb]. unfold bind at 1.
    match goal with
    | |- context [match ?m w with _ => _ end] => destruct (m w) as [[u|e] wa]
    end; [|discriminate].
    unfold bind at 1. rewrite lookupUrlDriveKey_any.
    destruct (fst (lookupUrlDriveKey E u emptyWorld)) as [kk|] eqn:Hkk;
      [|discriminate].
    unfold bind, grantPermission, ret. cbn.
    intros Heq. injection Heq as <- <-. cbn.
    rewrite Hkk in Hk. injection Hk as ->. cbn.
    apply lookup_insert_eq. }
  split; [exact Hgrant|].
  subst k.
  destruct (assertWritePermission_granted E d sender w2) as (H1 & _ & H3); auto.
  eapply lookup_weaken; eassumption.
Qed.

Lemma creator_can_write_new_drive_witness :
  let E := Demo.env 0 true Demo.noFiles in
  let d := {| key := Demo.keyB; writable := false |} in
  let r := createDrive E Demo.webPage (VStr "t") VUndefined VUndefined VUndefined
             (Some false) emptyWorld in
  fst r = Ok ("hyper://" +:+ Demo.keyB +:+ "/") /\
  fst (assertWritePermission E d Demo.webPage (snd r)) = Ok true /\
  prompts (w_trace (snd (assertWritePermission E d Demo.webPage (snd r))))
    = prompts (w_trace (snd r)).
Proof.
  intros E d r. split; [reflexivity|].
  apply (creator_can_write_new_drive E Demo.webPage (VStr "t") VUndefined
           VUndefined VUndefined (Some false) emptyWorld (snd r) (snd r)
           ("hyper://" +:+ Demo.keyB +:+ "/") Demo.keyB d
           eq_refl eq_refl eq_refl eq_refl eq_refl eq_refl).
  reflexivity.
Defined.

(** ** The user is never asked while the deadline clock runs *)

Lemma scanClock_app c evs1 evs2 c1 :
  scanClock c evs1 = Some c1 ->
  scanClock c (evs1 ++ evs2) = scanClock c1 evs2.
Proof.
  revert c. induction evs1 as [|e evs1 IH]; intros c H.
  - cbn in H. injection H as ->. reflexivity.
  - destruct e; cbn in *; try (apply IH; exact H);
      destruct c; try discriminate H; apply IH; exact H.
Qed.

Lemma scanClock_quiet c evs :
  forallb quietEvent evs = true -> scanClock c evs = Some c.
Proof.
  induction evs as [|e evs IH]; [reflexivity|]. cbn. intros H.
  apply andb_prop in H as [He Hr].
  destruct e; cbn in *; try discriminate He; auto.
Qed.

Lemma scanClock_steady c evs :
  c <> Running -> forallb steadyEvent evs = true -> scanClock c evs = Some c.
Proof.
  intros Hc. induction evs as [|e evs IH]; [reflexivity|]. cbn. intros H.
  apply andb_prop in H as [He Hr].
  destruct e; cbn in *; try discriminate He; auto;
    destruct c; auto; contradiction.
Qed.

Lemma clocked_keeps_quiet {A} c (Q : Clock -> Prop) (m : M A) :
  keeps quietEvent m -> Q c -> clocked c Q m.
Proof.
  intros Hk Hq w. destruct (Hk w) as (_ & evs & Ht & Hev).
  exists evs, c. auto using scanClock_quiet.
Qed.

Lemma clocked_keeps_steady {A} c (Q : Clock -> Prop) (m : M A) :
  c <> Running -> keeps steadyEvent m -> Q c -> clocked c Q m.
Proof.
  intros Hc Hk Hq w. destruct (Hk w) as (_ & evs & Ht & Hev).
  exists evs, c. auto using scanClock_steady.
Qed.

Lemma clocked_bind {A B} c (Q R : Clock -> Prop) (m : M A) (k : A -> M B) :
  clocked c Q m -> (forall a c1, Q c1 -> clocked c1 R (k a)) ->
  clocked c R (bind m k).
Proof.
  intros Hm Hk w. destruct (Hm w) as (evs1 & c1 & Ht1 & Hs1 & Hq).
  unfold bind. destruct (m w) as [[a|e] w1]; cbn in *.
  - destruct (Hk a c1 (Hq eq_refl) w1) as (evs2 & c2 & Ht2 & Hs2 & Hr).
    exists (evs1 ++ evs2), c2. rewrite Ht2, Ht1, <- app_assoc.
    rewrite (scanClock_app _ _ _ _ Hs1). auto.
  - exists evs1, c1. repeat split; auto. discriminate.
Qed.

Lemma clocked_pause c : clocked c (eq Paused) pause.
Proof. intros w. exists [EvPause], Paused. repeat split. Qed.

Lemma clocked_resume c : clocked c (eq Running) resume.
Proof. intros w. exists [EvResume], Running. repeat split. Qed.

Lemma clocked_timer {A} c Q ms (fn : M A) :
  clocked Running Q fn -> clocked c Q (timer ms fn).
Proof.
  intros H. unfold timer.
  apply (clocked_bind _ (eq Running)); [|intros _ c1 <-; exact H].
  intros w. exists [EvTimer ms], Running. repeat split.
Qed.

Lemma clocked_record {A} c Q caller method target size (fn : M A) :
  clocked c Q fn -> clocked c Q (record caller method target size fn).
Proof.
  intros H w. destruct (H w) as (evs & c' & Ht & Hs & Hq).
  destruct (record_result caller method target size fn w) as (Hr & _ & Htr).
  exists evs, c'. rewrite Htr, Hr. auto.
Qed.

Ltac clocked_gateway :=
  repeat first
    [ apply clocked_record
    | apply clocked_timer
    | lazymatch goal with
      | |- clocked _ _ (bind pause _) =>
          eapply clocked_bind; [apply clocked_pause|intros ? ? <-]
      | |- clocked _ _ (bind resume _) =>
          eapply clocked_bind; [apply clocked_resume|intros ? ? <-]
      end
    | lazymatch goal with
      | |- clocked Running _ _ =>
          apply clocked_keeps_quiet; [solve [keeps_gateway]|exact I]
      | |- clocked _ _ _ =>
          apply clocked_keeps_steady;
          [discriminate|solve [keeps_gateway]|exact I]
      end
    | lazymatch goal with
      | |- clocked Running _ (bind _ _) =>
          apply (clocked_bind _ (eq Running));
          [apply clocked_keeps_quiet; [solve [keeps_gateway]|reflexivity]
          |intros ? ? <-]
      | |- clocked ?c _ (bind _ _) =>
          apply (clocked_bind _ (eq c));
          [apply clocked_keeps_steady;
           [discriminate|solve [keeps_gateway]|reflexivity]
          |intros ? ? <-]
      | |- clocked _ _ (if ?b then _ else _) => destruct b
      | |- clocked _ _ (match ?x with _ => _ end) => destruct x
      end ].

(** X7: in every call of the API, for every sender and world, a consent
    prompt or a modal is put to the user only before a deadline clock was
    started or while it is paused: every operation that may prompt under
    its timer calls [pause] first, and none prompts after [resume]. *)
Theorem user_is_asked_off_the_clock (E : Env) (sender : Sender) (c : ApiCall)
    (w : World) :
  exists evs,
    w_trace (snd (invoke E sender c w)) = w_trace w ++ evs /\
    scanClock NoTimer evs <> None.
Proof.
  assert (H : clocked NoTimer (fun _ => True) (invoke E sender c)).
  { destruct c; cbn [invoke];
      unfold createDrive, forkDrive, loadDrive, getInfo, configure, diff, stat,
        readFile, writeFile, unlink, copy, rename, updateMetadata,
        deleteMetadata, readdir, mkdir, rmdir, symlink, mount, unmount, query,
        watch, createNetworkActivityStream, beakerDiff, beakerMerge,
        importFromFilesystem, exportToFilesystem, exportToDrive;
      cbv zeta; try solve [clocked_gateway].
    apply (clocked_bind _ (fun _ => True)).
    - destruct (negb (truthyDrive (q_drive opts))); clocked_gateway.
    - intros r c1 _ w0. exists [], c1. cbn. now rewrite app_nil_r. }
  destruct (H w) as (evs & c' & Ht & Hs & _).
  exists evs. split; [exact Ht|]. rewrite Hs. discriminate.
Qed.

(** ** Reading is not access-controlled *)

Lemma storeKept_ret {A} (a : A) : storeKept (ret a).
Proof. intros w. reflexivity. Qed.

Lemma storeKept_throw {A} e : storeKept (@throw A e).
Proof. intros w. reflexivity. Qed.

Lemma storeKept_liftR {A} (r : Result A) : storeKept (liftR r).
Proof. intros w. reflexivity. Qed.

Lemma storeKept_bind {A B} (m : M A) (k : A -> M B) :
  storeKept m -> (forall a, storeKept (k a)) -> storeKept (bind m k).
Proof.
  intros Hm Hk w. unfold bind. specialize (Hm w).
  destruct (m w) as [[a|e] w1]; cbn in *; [|exact Hm].
  now rewrite Hk.
Qed.

Lemma storeKept_logEvent e : storeKept (logEvent e).
Proof. intros w. reflexivity. Qed.

Lemma storeKept_call {A} e (r : Result A) : storeKept (call e r).
Proof. intros w. unfold call, bind, logEvent, liftR. reflexivity. Qed.

Lemma storeKept_callH {A} e (f : list Event -> Result A) : storeKept (callH e f).
Proof. intros w. unfold callH. apply storeKept_call. Qed.

Lemma storeKept_record {A} caller method target size (fn : M A) :
  storeKept fn -> storeKept (record caller method target size fn).
Proof.
  intros H w.
  destruct (record_result caller method target size fn w) as (_ & Hg & _).
  now rewrite Hg.
Qed.

Lemma storeKept_timer {A} ms (fn : M A) : storeKept fn -> storeKept (timer ms fn).
Proof.
  intros H. unfold timer. apply storeKept_bind; [apply storeKept_logEvent|auto].
Qed.

Lemma storeKept_lookupDrive E sender k v : storeKept (lookupDrive E sender k v).
Proof.
  unfold lookupDrive.
  repeat first [ apply storeKept_call | apply storeKept_ret
               | apply storeKept_bind; [|intros]
               | match goal with |- storeKept (match ?x with _ => _ end) => destruct x end ].
Qed.

Lemma storeKept_pdaCall E c : storeKept (pdaCall E c).
Proof. apply storeKept_callH. Qed.

Lemma storeKept_resolveDrives E sender urls :
  storeKept (resolveDrives E sender urls).
Proof.
  induction urls as [|u urls IH]; cbn [resolveDrives]; [apply storeKept_ret|].
  repeat first [ apply storeKept_liftR | apply storeKept_lookupDrive
               | apply storeKept_ret | exact IH
               | apply storeKept_bind; [|intros] ].
Qed.

Lemma storeKept_startQueries E opts cos : storeKept (startQueries E opts cos).
Proof.
  induction cos as [|co cos IH]; cbn [startQueries]; [apply storeKept_ret|].
  repeat first [ apply storeKept_logEvent | apply storeKept_ret | exact IH
               | apply storeKept_bind; [|intros] ].
Qed.

Ltac storeKept_gateway :=
  repeat first
    [ apply storeKept_record
    | apply storeKept_timer
    | apply storeKept_lookupDrive
    | apply storeKept_pdaCall
    | apply storeKept_resolveDrives
    | apply storeKept_startQueries
    | apply storeKept_logEvent
    | apply storeKept_call
    | apply storeKept_callH
    | apply storeKept_ret
    | apply storeKept_throw
    | apply storeKept_liftR
    | apply storeKept_bind; [|intros]
    | match goal with
      | |- storeKept (if ?b then _ else _) => destruct b
      | |- storeKept (match ?x with _ => _ end) => destruct x
      end ].

Lemma emits_record {A} ok caller method target size (fn : M A) :
  emits ok fn -> emits ok (record caller method target size fn).
Proof.
  intros H w. destruct (H w) as (evs & Ht & Hev).
  destruct (record_result caller method target size fn w) as (_ & _ & Htr).
  exists evs. now rewrite Htr.
Qed.

Lemma emits_keeps {A} ok (m : M A) : keeps ok m -> emits ok m.
Proof. intros H w. exact (proj2 (H w)). Qed.

Lemma emits_bind {A B} ok (m : M A) (k : A -> M B) :
  emits ok m -> (forall a, emits ok (k a)) -> emits ok (bind m k).
Proof.
  intros Hm Hk w. unfold bind. destruct (Hm w) as (evs1 & Ht1 & He1).
  destruct (m w) as [[a|e] w1]; cbn in *; [|eauto].
  destruct (Hk a w1) as (evs2 & Ht2 & He2).
  exists (evs1 ++ evs2). rewrite Ht2, Ht1, <- app_assoc, forallb_app, He1, He2.
  auto.
Qed.

Ltac emits_gateway :=
  repeat first
    [ apply emits_record
    | apply emits_keeps; solve [keeps_gateway]
    | apply emits_bind; [|intros]
    | match goal with
      | |- emits _ (if ?b then _ else _) => destruct b
      | |- emits _ (match ?x with _ => _ end) => destruct x
      end ].

(** X8: [loadDrive], [getInfo], [diff], [stat], [readFile], [readdir],
    [query], [watch] and [createNetworkActivityStream] make no access
    check: for every sender and world the permission store is left as it
    is, and the call queries no permission, shows no prompt or modal,
    consults no quota and reaches no primitive that changes a drive. *)
Theorem reading_needs_no_permission (E : Env) (sender : Sender) (c : ApiCall)
    (w : World) :
  readingCall c = true ->
  w_grants (snd (invoke E sender c w)) = w_grants w /\
  exists evs,
    w_trace (snd (invoke E sender c w)) = w_trace w ++ evs /\
    forallb readEvent evs = true.
Proof.
  intros Hc. split.
  - revert w. change (storeKept (invoke E sender c)).
    destruct c; try discriminate Hc; cbn [invoke];
      unfold loadDrive, getInfo, diff, stat, readFile, readdir, query, watch,
        createNetworkActivityStream; storeKept_gateway.
  - revert w. change (emits readEvent (invoke E sender c)).
    destruct c; try discriminate Hc; cbn [invoke];
      unfold loadDrive, getInfo, diff, stat, readFile, readdir, query, watch,
        createNetworkActivityStream; emits_gateway.
Qed.

Lemma reading_needs_no_permission_witness :
  let r := invoke (Demo.env 0 false Demo.noFiles) Demo.webPage
             (ReadFile ("hyper://" +:+ Demo.keyA +:+ "/secret.txt") noOpts)
             emptyWorld in
  fst r = Ok VUndefined /\
  w_grants (snd r) = w_grants emptyWorld /\
  exists evs,
    w_trace (snd r) = w_trace emptyWorld ++ evs /\ forallb readEvent evs = true.
Proof.
  intros r. split; [reflexivity|].
  apply (reading_needs_no_permission (Demo.env 0 false Demo.noFiles)
           Demo.webPage
           (ReadFile ("hyper://" +:+ Demo.keyA +:+ "/secret.txt") noOpts)
           emptyWorld eq_refl).
Defined.

(** ** [configure] *)

Lemma pick_configurable fields keys :
  forallb (fun kv => existsb (String.eqb (fst kv)) keys) (pick fields keys) = true.
Proof.
  unfold pick. apply forallb_forall. intros kv Hin.
  apply filter_In in Hin. tauto.
Qed.

Lemma hasField_pick_deleted fields keys k :
  hasField (pick (deleteField fields k) keys) k = false.
Proof.
  unfold hasField, pick, deleteField.
  induction fields as [|kv fields IH]; [reflexivity|]. cbn.
  destruct (String.eqb k (fst kv)) eqn:Hk; cbn; [exact IH|].
  destruct (existsb _ keys); cbn; [|exact IH].
  now rewrite Hk.
Qed.

(** X9: whatever [settings] a sender passes to [configure], the only
    primitive that can change the drive is [pda.updateManifest], and what
    it is handed is a non-empty set of properties all drawn from
    DRIVE_CONFIGURABLE_FIELDS, never holding [author] when the sender is
    not privileged. *)
Theorem configure_updates_only_configurable_fields (E : Env) (sender : Sender)
    (url : string) (settings : Value) (opts : option Opts) (w : World) :
  exists evs,
    w_trace (snd (configure E sender url settings opts w)) = w_trace w ++ evs /\
    forallb (manifestUpdateOk E sender) evs = true.
Proof.
  revert w. change (emits (manifestUpdateOk E sender)
                      (configure E sender url settings opts)).
  unfold configure. apply emits_record, emits_keeps.
  apply keeps_timer; [reflexivity|].
  apply keeps_bind; [keeps_gateway|intros _].
  apply keeps_bind; [keeps_gateway|intros urlp].
  apply keeps_bind; [keeps_gateway|intros l].
  destruct (isHistoric l); [keeps_gateway|].
  destruct settings as [| | | | |items|fields]; try solve [keeps_gateway].
  - cbv zeta. destruct (negb (isSenderBeaker sender)); cbn; keeps_gateway.
  - cbv zeta.
    destruct (pick (if negb (isSenderBeaker sender)
                    then deleteField fields "author" else fields)
                   (DRIVE_CONFIGURABLE_FIELDS E)) as [|kv updates] eqn:Hp;
      [keeps_gateway|].
    do 5 (apply keeps_bind; [solve [keeps_gateway]|intros]).
    apply keeps_bind; [apply keeps_pdaCall|intros; keeps_gateway].
    rewrite <- Hp. unfold manifestUpdateOk.
    rewrite pick_configurable. rewrite Hp at 1. cbn [length Nat.eqb negb andb].
    destruct (isSenderBeaker sender); [reflexivity|].
    cbn [negb orb]. now rewrite hasField_pick_deleted.
Qed.

(** X10: [configure] on a live checkout with settings that name no
    configurable property (after [author] was deleted for a sender that is
    not privileged) resolves at once: the drive was resolved and nothing
    else happened: no permission or quota was consulted, no prompt shown,
    no primitive called.  An argument that is no object is rejected with
    the Error 'Invalid argument', after the drive was resolved. *)
Theorem configure_without_updates (E : Env) (sender : Sender) (url : string)
    (urlp : UrlParts) (d : Drive) (co : Checkout) (settings : Value)
    (opts : option Opts) (w : World) :
  parseDriveUrl E url = Ok urlp ->
  resolvesTo E (up_hostname urlp) (up_version urlp) d co false ->
  match effectiveSettings sender settings with
  | Some fields => pick fields (DRIVE_CONFIGURABLE_FIELDS E) = []
  | None => True
  end ->
  fst (configure E sender url settings opts w) =
    match effectiveSettings sender settings with
    | Some _ => Ok VUndefined
    | None => Err (GenericError "Invalid argument")
    end /\
  w_grants (snd (configure E sender url settings opts w)) = w_grants w /\
  w_trace (snd (configure E sender url settings opts w)) =
    w_trace w ++ [EvTimer (to E opts); EvCheckin "looking up drive"] ++
    lookupEvents E (up_hostname urlp) (up_version urlp) d.
Proof.
  intros Hparse Hres Hpick.
  set (evs := [EvTimer (to E opts); EvCheckin "looking up drive"] ++
              lookupEvents E (up_hostname urlp) (up_version urlp) d).
  unfold configure.
  erewrite run_record with
    (r := match effectiveSettings sender settings with
          | Some _ => Ok VUndefined
          | None => Err (GenericError "Invalid argument")
          end)
    (w' := addEvents w evs); [repeat split|].
  unfold timer, checkin, bind, logEvent.
  rewrite Hparse. cbn [liftR].
  rewrite (lookupDrive_run _ _ _ _ _ _ _ _ Hres). cbn [isHistoric drive].
  match goal with
  | |- context [addEvents ?w0 (lookupEvents ?a ?b ?c ?e)] =>
      replace (addEvents w0 (lookupEvents a b c e)) with (addEvents w evs)
  end.
  2: { unfold addEvents, evs. cbn [w_grants w_audit w_trace].
       f_equal. now rewrite <- !app_assoc. }
  destruct settings as [| | | | |items|fields]; cbn [effectiveSettings] in *;
    try reflexivity.
  - destruct (negb (isSenderBeaker sender)); reflexivity.
  - replace (if negb (isSenderBeaker sender)
             then deleteField fields "author" else fields)
      with (if isSenderBeaker sender then fields
            else deleteField fields "author")
      by (destruct (isSenderBeaker sender); reflexivity).
    cbv zeta. rewrite Hpick. reflexivity.
Qed.

Lemma configure_without_updates_witness :
  let r := configure (Demo.env 0 false Demo.noFiles) Demo.webPage
             ("hyper://" +:+ Demo.keyA +:+ "/")
             (VObj [("author", VStr "me"); ("visibility", VStr "public")])
             None emptyWorld in
  fst r = Ok VUndefined /\
  w_grants (snd r) = w_grants emptyWorld /\
  w_trace (snd r) =
    [EvTimer 60000; EvCheckin "looking up drive"; EvGetDrive Demo.keyA;
     EvLoadDrive Demo.keyA; EvGetDriveCheckout Demo.keyA None].
Proof.
  apply (configure_without_updates (Demo.env 0 false Demo.noFiles) Demo.webPage
           ("hyper://" +:+ Demo.keyA +:+ "/")
           {| up_protocol := "hyper:";
              up_origin := "hyper://" +:+ Demo.keyA +:+ "/";
              up_host := Demo.keyA; up_hostname := Demo.keyA;
              up_pathname := "/"; up_version := None |}
           {| key := Demo.keyA; writable := false |}
           {| co_key := Demo.keyA; co_version := None |}
           (VObj [("author", VStr "me"); ("visibility", VStr "public")])
           None emptyWorld eq_refl (conj eq_refl eq_refl) eq_refl).
Defined.

(** ** [getInfo] *)

(** X11: when the drive's information is available, [getInfo] answers a
    privileged sender with all of it and any other sender with an object
    of exactly the seven properties key, url, writable, version, peers,
    title and description, each as the information holds it; no other
    property of the information reaches userland. *)
Theorem getInfo_userland_subset (E : Env) (sender : Sender) (url : string)
    (opts : Opts) (info : list (string * Value)) (w : World) :
  getDriveInfo E url = Ok info ->
  exists answer,
    fst (getInfo E sender url opts w) = Ok (VObj answer) /\
    if isSenderBeaker sender then answer = info
    else map fst answer = userlandInfoKeys /\
         forall k, field answer k =
                   if existsb (String.eqb k) userlandInfoKeys
                   then field info k else VUndefined.
Proof.
  intros Hinfo.
  unfold getInfo, record, timer, bind, call, logEvent, liftR. cbn.
  rewrite Hinfo.
  destruct (isSenderBeaker sender); cbn; eexists; (split; [reflexivity|]);
    [reflexivity|].
  split; [reflexivity|].
  intros k. cbn [field existsb userlandInfoKeys].
  repeat match goal with
         | |- context [String.eqb k ?s] =>
             let H := fresh "Hk" in
             destruct (String.eqb k s) eqn:H;
             [apply String.eqb_eq in H; subst k; reflexivity|]
         end.
  reflexivity.
Qed.

Lemma getInfo_userland_subset_witness :
  exists answer,
    fst (getInfo (Demo.env 0 false Demo.noFiles) Demo.webPage Demo.keyA noOpts
           emptyWorld) = Ok (VObj answer) /\
    map fst answer = userlandInfoKeys.
Proof.
  destruct (getInfo_userland_subset (Demo.env 0 false Demo.noFiles)
              Demo.webPage Demo.keyA noOpts
              [("key", VStr Demo.keyA); ("title", VStr "Demo drive")]
              emptyWorld eq_refl) as (answer & H1 & H2).
  exists answer. split; [exact H1|]. exact (proj1 H2).
Defined.

(** ** The privileged-sender test *)

Lemma dropPrefix_Some p s r :
  SenderRegex.dropPrefix p s = Some r -> s = p +:+ r.
Proof.
  revert s. induction p as [|a p IH]; intros s H; cbn in *.
  - now injection H as ->.
  - destruct s as [|b s]; [discriminate|].
    destruct (decide (a = b)) as [->|]; [|discriminate].
    change (String b s = String b (p +:+ r)). f_equal. now apply IH.
Qed.

Lemma append_cons a p s : String a p +:+ s = String a (p +:+ s).
Proof. reflexivity. Qed.

Lemma append_nil s : EmptyString +:+ s = s.
Proof. reflexivity. Qed.

Lemma dropPrefix_app p s : SenderRegex.dropPrefix p (p +:+ s) = Some s.
Proof.
  induction p as [|a p IH]; [reflexivity|].
  rewrite append_cons. cbn [SenderRegex.dropPrefix].
  destruct (decide (a = a)); [exact IH|contradiction].
Qed.

Lemma prefix_split p s : String.prefix p s = true -> exists r, s = p +:+ r.
Proof.
  revert s. induction p as [|a p IH]; intros s H.
  - now exists s.
  - destruct s as [|b s]; cbn in H; [discriminate|].
    destruct (ascii_dec a b) as [->|]; [|discriminate].
    destruct (IH _ H) as [r ->]. now exists r.
Qed.

Lemma prefix_app p s : String.prefix p (p +:+ s) = true.
Proof.
  induction p as [|a p IH]; [now destruct s|].
  rewrite append_cons. cbn [String.prefix].
  destruct (ascii_dec a a); [exact IH|contradiction].
Qed.

Lemma hostTail_split s :
  SenderRegex.hostTail s = true ->
  exists sep rest, (sep = ":" \/ sep = "/") /\
                   s = "hyperdrive.network" +:+ sep +:+ rest.
Proof.
  unfold SenderRegex.hostTail. intros H.
  apply orb_prop in H as [H|H]; apply prefix_split in H as [r ->].
  - exists ":", r. split; [now left|reflexivity].
  - exists "/", r. split; [now right|reflexivity].
Qed.

Lemma dotStarDot_split s :
  SenderRegex.dotStarDot s = true ->
  exists q t, s = q +:+ "." +:+ t /\ SenderRegex.hostTail t = true.
Proof.
  induction s as [|c s IH]; [discriminate|]. cbn [SenderRegex.dotStarDot].
  intros H. apply orb_prop in H as [H|H].
  - destruct (decide (c = "."%char)) as [->|]; [|discriminate].
    exists EmptyString, s. split; [reflexivity|exact H].
  - apply andb_prop in H as [_ H].
    destruct (IH H) as (q & t & -> & Ht).
    exists (String c q), t. split; [reflexivity|exact Ht].
Qed.

Lemma hostPart_split s :
  SenderRegex.hostPart s = true ->
  exists p sep rest,
    s = p +:+ "hyperdrive.network" +:+ sep +:+ rest /\
    (sep = ":" \/ sep = "/") /\
    (p = EmptyString \/ exists q, p = q +:+ ".").
Proof.
  unfold SenderRegex.hostPart. intros H. apply orb_prop in H as [H|H].
  - apply hostTail_split in H as (sep & rest & Hsep & ->).
    exists EmptyString, sep, rest. auto.
  - apply dotStarDot_split in H as (q & t & -> & Ht).
    apply hostTail_split in Ht as (sep & rest & Hsep & ->).
    exists (q +:+ "."), sep, rest. repeat split; eauto.
    clear. induction q as [|c q IH]; [reflexivity|].
    rewrite !append_cons. now f_equal.
Qed.

(** X12: the privileged-sender test is anchored at the start of the
    sender's URL: a sender is privileged only if its URL starts with
    [beaker:], or is [http://] or [https://] followed by an optional
    prefix ending in a dot, then [hyperdrive.network], then [:] or [/].
    In particular a drive site ([hyper://...]) is never privileged,
    whatever its host and path are. *)
Theorem privileged_sender_shape (sender : Sender) :
  isSenderBeaker sender = true ->
  ((exists rest, getURL sender = "beaker:" +:+ rest) \/
   (exists scheme p sep rest,
      getURL sender = scheme +:+ p +:+ "hyperdrive.network" +:+ sep +:+ rest /\
      (scheme = "https://" \/ scheme = "http://") /\
      (sep = ":" \/ sep = "/") /\
      (p = EmptyString \/ exists q, p = q +:+ "."))) /\
  JsString.startsWith (getURL sender) "hyper://" = false.
Proof.
  unfold isSenderBeaker, SenderRegex.test. intros H.
  split.
  2: { destruct (JsString.startsWith (getURL sender) "hyper://") eqn:Hh;
         [exfalso|reflexivity].
       apply prefix_split in Hh as [r Hr]. rewrite Hr in H.
       cbv in H. discriminate H. }
  apply orb_prop in H as [H|H]; [left; now apply prefix_split|right].
  destruct (SenderRegex.dropPrefix "https://" (getURL sender)) as [r|] eqn:Hs.
  - apply dropPrefix_Some in Hs.
    apply hostPart_split in H as (p & sep & rest & -> & Hsep & Hp).
    exists "https://", p, sep, rest. auto.
  - destruct (SenderRegex.dropPrefix "http://" (getURL sender)) as [r|] eqn:Hh;
      [|discriminate].
    apply dropPrefix_Some in Hh.
    apply hostPart_split in H as (p & sep & rest & -> & Hsep & Hp).
    exists "http://", p, sep, rest. auto.
Qed.

Lemma privileged_sender_shape_witness :
  ((exists rest, getURL Demo.networkPage = "beaker:" +:+ rest) \/
   (exists scheme p sep rest,
      getURL Demo.networkPage
        = scheme +:+ p +:+ "hyperdrive.network" +:+ sep +:+ rest /\
      (scheme = "https://" \/ scheme = "http://") /\
      (sep = ":" \/ sep = "/") /\
      (p = EmptyString \/ exists q, p = q +:+ "."))) /\
  JsString.startsWith (getURL Demo.networkPage) "hyper://" = false.
Proof. apply (privileged_sender_shape Demo.networkPage). reflexivity. Defined.

Lemma lineTerminatorAt_plain c s :
  negb (N.eqb (N_of_ascii c) 10 || N.eqb (N_of_ascii c) 13 ||
        N.eqb (N_of_ascii c) 0xE2) = true ->
  SenderRegex.lineTerminatorAt (String c s) = false.
Proof.
  intros H. apply negb_true_iff in H.
  apply orb_false_iff in H as [H H3]. apply orb_false_iff in H as [H1 H2].
  apply N.eqb_neq in H1, H2, H3.
  assert (Hne : forall n, (n < 256)%N -> N_of_ascii c <> n ->
                          ascii_of_N n <> c).
  { intros n Hn Hc Heq. apply Hc. rewrite <- Heq.
    apply N_ascii_embedding. exact Hn. }
  unfold SenderRegex.lineTerminatorAt, SenderRegex.u2028, SenderRegex.u2029.
  cbn [String.prefix].
  destruct (ascii_dec (ascii_of_N 10) c) as [e|_];
    [exfalso; revert e; apply Hne; [reflexivity|exact H1]|].
  destruct (ascii_dec (ascii_of_N 13) c) as [e|_];
    [exfalso; revert e; apply Hne; [reflexivity|exact H2]|].
  destruct (ascii_dec (ascii_of_N 226) c) as [e|_];
    [exfalso; revert e; apply Hne; [reflexivity|exact H3]|].
  reflexivity.
Qed.

(** X13: the test accepts every [http://] or [https://] URL in which
    [.hyperdrive.network] followed by [:] or [/] comes after any run of
    characters that holds no line terminator: the run is not required to
    be a host name, so it may hold slashes. *)
Theorem privileged_after_any_prefix (scheme q sep rest : string) :
  scheme = "https://" \/ scheme = "http://" ->
  sep = ":" \/ sep = "/" ->
  noTerminatorByte q = true ->
  isSenderBeaker
    {| getURL := scheme +:+ q +:+ ".hyperdrive.network" +:+ sep +:+ rest |}
  = true.
Proof.
  intros Hscheme Hsep Hq.
  assert (Htail : SenderRegex.hostTail ("hyperdrive.network" +:+ sep +:+ rest) = true).
  { unfold SenderRegex.hostTail. destruct Hsep as [->| ->].
    - change ("hyperdrive.network" +:+ ":" +:+ rest)
        with ("hyperdrive.network:" +:+ rest).
      now rewrite prefix_app.
    - change ("hyperdrive.network" +:+ "/" +:+ rest)
        with ("hyperdrive.network/" +:+ rest).
      rewrite (prefix_app "hyperdrive.network/"). apply orb_true_r. }
  assert (Hdot : SenderRegex.dotStarDot
                   (q +:+ ".hyperdrive.network" +:+ sep +:+ rest) = true).
  { induction q as [|c q IH].
    - change (EmptyString +:+ ".hyperdrive.network" +:+ sep +:+ rest)
        with (String "." ("hyperdrive.network" +:+ sep +:+ rest)).
      cbn [SenderRegex.dotStarDot].
      destruct (decide ("."%char = "."%char)); [|contradiction].
      now rewrite Htail.
    - cbn [noTerminatorByte] in Hq. apply andb_prop in Hq as [Hc Hq].
      change (String c q +:+ ".hyperdrive.network" +:+ sep +:+ rest)
        with (String c (q +:+ ".hyperdrive.network" +:+ sep +:+ rest)).
      cbn [SenderRegex.dotStarDot].
      rewrite (lineTerminatorAt_plain _ _ Hc), (IH Hq). cbn.
      apply orb_true_r. }
  unfold isSenderBeaker, SenderRegex.test. cbn [getURL].
  destruct Hscheme as [->| ->].
  - rewrite dropPrefix_app. unfold SenderRegex.hostPart. rewrite Hdot.
    now rewrite !orb_true_r.
  - replace (SenderRegex.dropPrefix "https://" _) with (@None string)
      by reflexivity.
    rewrite dropPrefix_app. unfold SenderRegex.hostPart. rewrite Hdot.
    now rewrite !orb_true_r.
Qed.

Lemma privileged_after_any_prefix_witness :
  isSenderBeaker
    {| getURL := "https://" +:+ "example.com/x" +:+ ".hyperdrive.network" +:+
                 "/" +:+ "index.html" |} = true.
Proof.
  apply (privileged_after_any_prefix "https://" "example.com/x" "/" "index.html");
    [now left|now right|reflexivity].
Defined.

(** ** The re-sort and re-slice of [query] *)

Lemma slice_window {A} (l : list A) start end_ :
  exists before after, l = before ++ JsArray.slice l start end_ ++ after.
Proof.
  unfold JsArray.slice.
  set (k := Z.to_nat (JsArray.relIndex (Z.of_nat (length l)) start)).
  match goal with |- context [take ?m (drop k l)] => set (n := m) end.
  exists (take k l), (drop n (drop k l)).
  now rewrite take_drop, take_drop.
Qed.

Lemma slice_length {A} (l : list A) start end_ :
  Z.of_nat (length (JsArray.slice l start (Some end_)))
    <= Z.max 0 (JsArray.relIndex (Z.of_nat (length l)) end_ -
                JsArray.relIndex (Z.of_nat (length l)) start).
Proof.
  unfold JsArray.slice. rewrite length_take. lia.
Qed.

Lemma slice_from_start {A} (l : list A) o n :
  0 <= o -> 0 < n ->
  JsArray.slice l o (Some (o + n)) = take (Z.to_nat n) (drop (Z.to_nat o) l).
Proof.
  intros Ho Hn. unfold JsArray.slice, JsArray.relIndex.
  destruct (Z.ltb_spec o 0); [lia|].
  destruct (Z.ltb_spec (o + n) 0); [lia|].
  set (len := Z.of_nat (length l)).
  destruct (Z.le_gt_cases o len) as [Hle|Hgt].
  - rewrite (Z.min_l o len) by lia.
    destruct (Z.le_gt_cases (o + n) len).
    + rewrite (Z.min_l (o + n) len) by lia. f_equal. lia.
    + rewrite (Z.min_r (o + n) len) by lia.
      rewrite !take_ge; [reflexivity| |]; rewrite length_drop; unfold len in *; lia.
  - rewrite (Z.min_r o len), (Z.min_r (o + n) len) by lia.
    rewrite !drop_ge by (unfold len in *; lia).
    now rewrite !take_nil.
Qed.

(** X14: the re-slice of the merged results returns a contiguous window
    of them; with a positive limit the window holds at most that many
    entries, and with a non-negative offset it is the entries from that
    position on, cut at the limit.  A limit of 0 counts as no limit. *)
Theorem reslice_is_a_window (opts : QueryOpts) (results : list QEntry) :
  (exists before after, results = before ++ reslice opts results ++ after) /\
  (forall n, q_limit opts = Some n -> 0 < n ->
     Z.of_nat (length (reslice opts results)) <= n /\
     forall o, q_offset opts = Some o -> 0 <= o ->
       reslice opts results = take (Z.to_nat n) (drop (Z.to_nat o) results)) /\
  (q_limit opts = Some 0 ->
   (q_offset opts = None \/ q_offset opts = Some 0) ->
   reslice opts results = results).
Proof.
  split; [|split].
  - unfold reslice.
    destruct (truthyNum (q_offset opts)), (truthyNum (q_limit opts));
      try apply slice_window.
    exists [], []. now rewrite app_nil_r.
  - intros n Hl Hn. unfold reslice. rewrite Hl. cbn [truthyNum].
    destruct (Z.eqb_spec n 0); [lia|].
    split.
    + destruct (truthyNum (q_offset opts)) as [o|].
      * etransitivity; [apply slice_length|].
        unfold JsArray.relIndex.
        destruct (Z.ltb_spec o 0), (Z.ltb_spec (o + n) 0); lia.
      * etransitivity; [apply slice_length|].
        unfold JsArray.relIndex.
        destruct (Z.ltb_spec 0 0), (Z.ltb_spec n 0); lia.
    + intros o Ho Hpos. rewrite Ho. cbn [truthyNum].
      destruct (Z.eqb_spec o 0) as [->|].
      * apply (slice_from_start results 0 n); lia.
      * apply slice_from_start; lia.
  - intros Hl Ho. unfold reslice. rewrite Hl.
    destruct Ho as [-> | ->]; reflexivity.
Qed.

Lemma reslice_is_a_window_witness :
  let opts := {| q_drive := DriveAbsent; q_filter := VUndefined;
                 q_sort := None; q_reverse := false; q_offset := Some 1;
                 q_limit := Some 2; q_timeout := None |} in
  let l := [Demo.file "/a" 1; Demo.file "/b" 2; Demo.file "/c" 3; Demo.file "/d" 4] in
  reslice opts l = [Demo.file "/b" 2; Demo.file "/c" 3].
Proof.
  intros opts l.
  apply (proj2 (proj1 (proj2 (reslice_is_a_window opts l)) 2 eq_refl eq_refl)
           1 eq_refl).
  discriminate.
Defined.

Lemma StronglySorted_impl {A} (R R' : A -> A -> Prop) l :
  (forall a b, R a b -> R' a b) -> StronglySorted R l -> StronglySorted R' l.
Proof.
  intros HR. induction 1 as [|a l Hs IH Hf]; constructor; [exact IH|].
  eapply List.Forall_impl; [|exact Hf]. auto.
Qed.

Lemma resort_perm ops opts (l : list QEntry) : Permutation (resort ops opts l) l.
Proof.
  unfold resort.
  repeat match goal with
         | |- context [decide ?P] => destruct (decide P)
         end; try apply sort_perm. reflexivity.
Qed.

(** X15: the re-sort of the merged results neither drops nor duplicates
    an entry; by [mtime] or [ctime] the outcome is in ascending order of
    that time, descending when [reverse] is set; with any sort key other
    than name, mtime and ctime the results are left in the order they
    came. *)
Theorem resort_permutes_and_orders (ops : StringOps) (opts : QueryOpts)
    (results : list QEntry) :
  Permutation (resort ops opts results) results /\
  (q_sort opts = Some "mtime" ->
   StronglySorted
     (fun a b => if q_reverse opts
                 then mtime (Entry.stat b) <= mtime (Entry.stat a)
                 else mtime (Entry.stat a) <= mtime (Entry.stat b))
     (resort ops opts results)) /\
  (q_sort opts = Some "ctime" ->
   StronglySorted
     (fun a b => if q_reverse opts
                 then ctime (Entry.stat b) <= ctime (Entry.stat a)
                 else ctime (Entry.stat a) <= ctime (Entry.stat b))
     (resort ops opts results)) /\
  (q_sort opts <> Some "name" -> q_sort opts <> Some "mtime" ->
   q_sort opts <> Some "ctime" -> resort ops opts results = results).
Proof.
  split; [|split; [|split]].
  - apply resort_perm.
  - intros Hs. unfold resort. rewrite Hs.
    destruct (decide (Some "mtime" = Some "name")); [discriminate|].
    destruct (decide (Some "mtime" = Some "mtime")); [|contradiction].
    eapply StronglySorted_impl;
      [|apply (sort_sorted (compareMtime (q_reverse opts)))].
    + intros a b. unfold compareMtime. destruct (q_reverse opts); lia.
    + intros a b. unfold compareMtime. destruct (q_reverse opts); lia.
    + intros a b c. unfold compareMtime. destruct (q_reverse opts); lia.
  - intros Hs. unfold resort. rewrite Hs.
    destruct (decide (Some "ctime" = Some "name")); [discriminate|].
    destruct (decide (Some "ctime" = Some "mtime")); [discriminate|].
    destruct (decide (Some "ctime" = Some "ctime")); [|contradiction].
    eapply StronglySorted_impl;
      [|apply (sort_sorted (compareCtime (q_reverse opts)))].
    + intros a b. unfold compareCtime. destruct (q_reverse opts); lia.
    + intros a b. unfold compareCtime. destruct (q_reverse opts); lia.
    + intros a b c. unfold compareCtime. destruct (q_reverse opts); lia.
  - intros H1 H2 H3. unfold resort.
    repeat match goal with
           | |- context [decide ?P] => destruct (decide P)
           end; try contradiction. reflexivity.
Qed.

Lemma resort_permutes_and_orders_witness :
  let opts := {| q_drive := DriveAbsent; q_filter := VUndefined;
                 q_sort := Some "mtime"; q_reverse := true; q_offset := None;
                 q_limit := None; q_timeout := None |} in
  StronglySorted
    (fun a b => mtime (Entry.stat b) <= mtime (Entry.stat a))
    (resort Demo.ops opts [Demo.file "/a" 1; Demo.file "/c" 3; Demo.file "/b" 2]).
Proof.
  intros opts.
  apply (proj1 (proj2 (resort_permutes_and_orders Demo.ops opts
           [Demo.file "/a" 1; Demo.file "/c" 3; Demo.file "/b" 2])) eq_refl).
Defined.

Lemma reslice_sublist opts (l : list QEntry) : sublist (reslice opts l) l.
Proof.
  unfold reslice.
  assert (H : forall s e, sublist (JsArray.slice l s e) l).
  { intros s e. unfold JsArray.slice.
    etransitivity; [apply sublist_take|apply sublist_drop]. }
  destruct (truthyNum (q_offset opts)), (truthyNum (q_limit opts)); auto.
Qed.

(** X16: when every drive of a query resolves and every per-drive query
    succeeds, [query] resolves with entries that all come from the
    per-drive results, none more often than it occurs there; for a single
    drive the result is that drive's result as it is. *)
Theorem query_returns_only_matches (E : Env) (sender : Sender)
    (opts : QueryOpts) (w w1 : World) (urls : list string)
    (cos : list Checkout) (rs : list (list QEntry)) :
  truthyDrive (q_drive opts) = true ->
  urls = match q_drive opts with
         | DriveArray urls => urls
         | DriveString url => [url]
         | _ => []
         end ->
  resolveDrives E sender urls
    (addEvents w [EvTimer (match q_timeout opts with
                           | Some t => t
                           | None => DEFAULT_DRIVE_API_TIMEOUT E
                           end);
                  EvCheckin "looking up drives"]) = (Ok cos, w1) ->
  promiseAll (map (fun co => fs_query E co opts) cos) = Ok rs ->
  exists result,
    fst (query E sender opts w) = Ok result /\
    result ⊆+ concat rs /\
    ((length urls <= 1)%nat -> result = concat rs).
Proof.
  intros Hd Hu Hres Hall.
  eexists. split; [eapply query_merges; eassumption|].
  destruct (Z.ltb_spec 1 (Z.of_nat (length urls))).
  - split; [|lia].
    etransitivity; [apply sublist_submseteq, reslice_sublist|].
    apply Permutation_submseteq.
    apply resort_perm.
  - split; [reflexivity|auto].
Qed.

Lemma query_returns_only_matches_witness :
  let opts := {| q_drive := DriveArray [Demo.keyA; Demo.keyB];
                 q_filter := VUndefined; q_sort := Some "name";
                 q_reverse := false; q_offset := None; q_limit := Some 3;
                 q_timeout := None |} in
  let E := Demo.env 0 false Demo.twoDrives in
  exists result,
    fst (query E Demo.webPage opts emptyWorld) = Ok result /\
    result ⊆+ concat [Demo.twoDrives Demo.keyA; Demo.twoDrives Demo.keyB] /\
    ((length [Demo.keyA; Demo.keyB] <= 1)%nat ->
     result = concat [Demo.twoDrives Demo.keyA; Demo.twoDrives Demo.keyB]).
Proof.
  intros opts E.
  apply (query_returns_only_matches E Demo.webPage opts emptyWorld
           (snd (resolveDrives E Demo.webPage [Demo.keyA; Demo.keyB]
                   (addEvents emptyWorld
                      [EvTimer 60000; EvCheckin "looking up drives"])))
           [Demo.keyA; Demo.keyB]
           [{| co_key := Demo.keyA; co_version := None |};
            {| co_key := Demo.keyB; co_version := None |}]
           [Demo.twoDrives Demo.keyA; Demo.twoDrives Demo.keyB]
           eq_refl eq_refl eq_refl eq_refl).
Defined.

(** ** Path normalisation, again *)

Lemma startsWith_charAt0 s :
  JsString.startsWith s "/" = true -> JsString.charAt0_is s "/" = true.
Proof.
  unfold JsString.startsWith, JsString.charAt0_is. intros H.
  destruct s as [|c s]; cbn [String.prefix] in H; [discriminate H|].
  destruct (ascii_dec "/" c) as [<-|]; [|discriminate H].
  destruct (decide ("/"%char = "/"%char)); [reflexivity|contradiction].
Qed.

(** X17: a normalised path is never empty and either starts with [/] or
    holds [://]; normalising it again changes nothing, provided it holds
    no [%] (which would be decoded a second time). *)
Theorem normalizeFilepath_stable (str r : string) :
  normalizeFilepath str = Ok r ->
  r <> EmptyString /\
  (JsString.startsWith r "/" = true \/ JsString.includes r "://" = true) /\
  (JsString.includes r "%" = false -> normalizeFilepath r = Ok r).
Proof.
  intros H.
  assert (Hshape : JsString.startsWith r "/" = true \/
                   JsString.includes r "://" = true).
  { revert H. unfold normalizeFilepath.
    destruct (Uri.decodeURIComponent str) as [d|]; [|discriminate].
    destruct (JsString.includes d "://") eqn:Hi; cbn [negb andb].
    - intros [= <-]. now right.
    - destruct (JsString.charAt0_is d "/") eqn:Hc; cbn [negb].
      + intros [= <-]. left. now apply charAt0_startsWith.
      + intros [= <-]. left. apply startsWith_slash. }
  split; [|split; [exact Hshape|]].
  - intros ->. destruct Hshape as [Hs|Hs]; cbv in Hs; discriminate Hs.
  - intros Hp. unfold normalizeFilepath, Uri.decodeURIComponent.
    rewrite (Decode_no_escape _ Hp).
    destruct Hshape as [Hs|Hs].
    + rewrite (startsWith_charAt0 _ Hs). cbn [negb]. now rewrite andb_false_r.
    + now rewrite Hs.
Qed.

Lemma normalizeFilepath_stable_witness :
  normalizeFilepath "a%20b" = Ok "/a b" /\ normalizeFilepath "/a b" = Ok "/a b".
Proof.
  split; [reflexivity|].
  apply (proj2 (proj2 (normalizeFilepath_stable "a%20b" "/a b" eq_refl))).
  reflexivity.
Defined.

(** ** [parseUrlParts] *)

(** X18: [parseUrlParts] answers a bare key with that key and the root
    path without parsing or resolving anything; it rejects a URL of
    another scheme than hyper with InvalidURL before any name is
    resolved; and whenever it resolves, the file path it returns is not
    empty. *)
Theorem parseUrlParts_outcomes (E : Env) (url : string) (w : World) :
  (HYPERDRIVE_HASH_REGEX_test E url = true ->
   parseUrlParts E url w = (Ok (url, "/", None), w)) /\
  (forall urlp,
     HYPERDRIVE_HASH_REGEX_test E url = false ->
     parseDriveUrl E url = Ok urlp ->
     up_protocol urlp <> "hyper:" ->
     parseUrlParts E url w = (Err InvalidURLError, w)) /\
  (forall k p v w',
     parseUrlParts E url w = (Ok (k, p, v), w') -> p <> EmptyString).
Proof.
  unfold parseUrlParts. split; [|split].
  - intros ->. reflexivity.
  - intros urlp -> Hp Hproto. rewrite Hp, bind_liftR_ok.
    destruct (String.eqb_spec (up_protocol urlp) "hyper:"); [contradiction|].
    reflexivity.
  - intros k p v w'.
    destruct (HYPERDRIVE_HASH_REGEX_test E url); [intros [= <- <- <- <-]; discriminate|].
    unfold bind at 1. unfold liftR at 1.
    destruct (parseDriveUrl E url) as [urlp|]; [|discriminate].
    destruct (negb (String.eqb (up_protocol urlp) "hyper:")); [discriminate|].
    unfold bind at 1.
    match goal with
    | |- context [match ?m w with _ => _ end] => destruct (m w) as [[host|] w1]
    end; [|discriminate].
    unfold bind, liftR, ret.
    destruct (Uri.decodeURIComponent (up_pathname urlp)) as [decoded|];
      [|discriminate].
    intros [= <- <- <- <-].
    destruct (String.eqb_spec decoded EmptyString); [discriminate|assumption].
Qed.

Lemma parseUrlParts_outcomes_witness :
  parseUrlParts (Demo.env 0 false Demo.noFiles) "https://example.com/x"
    emptyWorld = (Err InvalidURLError, emptyWorld).
Proof.
  apply (proj1 (proj2 (parseUrlParts_outcomes (Demo.env 0 false Demo.noFiles)
                         "https://example.com/x" emptyWorld))
           {| up_protocol := "https:"; up_origin := "https://example.com/";
              up_host := "example.com"; up_hostname := "example.com";
              up_pathname := "/x"; up_version := None |}
           eq_refl eq_refl).
  discriminate.
Defined.

(** ** [assertDeleteDrivePermission] *)

(** X19: unlike the write check, the delete check knows neither a cached
    grant nor the self-modification rule: a sender that is not privileged
    is put exactly one [deleteDrive:key] prompt whatever the permission
    store holds, and is let through exactly when the user approves; a
    privileged sender is let through with nothing looked up or asked. *)
Theorem delete_permission_always_asks (E : Env) (d : Drive) (sender : Sender)
    (w : World) :
  (isSenderBeaker sender = true ->
   assertDeleteDrivePermission E d sender w = (Ok true, w)) /\
  (isSenderBeaker sender = false ->
   isOk (getDriveInfo E (key d)) = true ->
   let r := assertDeleteDrivePermission E d sender w in
   fst r = (if userApproves E ("deleteDrive:" +:+ key d) (getURL sender)
            then Ok true else Err UserDeniedError) /\
   prompts (w_trace (snd r)) =
     prompts (w_trace w) ++ [("deleteDrive:" +:+ key d, getURL sender)]).
Proof.
  unfold assertDeleteDrivePermission. split; intros Hs.
  - now rewrite Hs.
  - rewrite Hs. intros Hinfo.
    destruct (getDriveInfo E (key d)) as [info|] eqn:Hd; [|discriminate].
    unfold bind, call, logEvent, liftR, requestPermission.
    cbn.
    destruct (userApproves E _ _); cbn;
      (split; [reflexivity|]);
      unfold prompts; rewrite !omap_app; cbn; now rewrite app_nil_r.
Qed.

Lemma delete_permission_always_asks_witness :
  let E := Demo.env 0 false Demo.noFiles in
  let d := {| key := Demo.keyA; writable := false |} in
  let w := {| w_grants := {[ ("hyper://" +:+ Demo.keyA, "deleteDrive:" +:+ Demo.keyA) := true ]};
              w_audit := []; w_trace := [] |} in
  fst (assertDeleteDrivePermission E d (Demo.driveSite Demo.keyA) w)
    = Err UserDeniedError /\
  prompts (w_trace (snd (assertDeleteDrivePermission E d (Demo.driveSite Demo.keyA) w)))
    = [("deleteDrive:" +:+ Demo.keyA, "hyper://" +:+ Demo.keyA +:+ "/index.html")].
Proof.
  intros E d w.
  apply (proj2 (delete_permission_always_asks E d (Demo.driveSite Demo.keyA) w)
           eq_refl eq_refl).
Defined.

(** ** Creating and forking as userland *)

Lemma storeKept_runModal E kind fields : storeKept (runModal E kind fields).
Proof.
  unfold runModal. apply storeKept_bind.
  - intros w. unfold call, bind, logEvent, liftR. cbn.
    destruct (modals_create E kind fields) as [|e]; cbn; [reflexivity|].
    destruct (isPlainError e); reflexivity.
  - intros [u|]; [destruct (String.eqb u EmptyString)|];
      first [apply storeKept_throw | apply storeKept_ret].
Qed.

(** X20: for a sender that is not privileged, [forkDrive] ignores
    [detached], [title], [description], [label] and [prompt]: it reads the
    forks of the URL and shows the fork modal with [detached] and [label]
    undefined, and does nothing else; it never forks a drive directly and
    stores no grant.  Its answer is the URL the modal returns; a modal
    that returns no URL or fails with a plain Error gives UserDenied. *)
Theorem userland_fork_goes_through_modal (E : Env) (sender : Sender)
    (url : string) (detached title description label : Value)
    (prompt : option bool) (w : World) :
  isSenderBeaker sender = false ->
  let r := forkDrive E sender url detached title description label prompt w in
  w_grants (snd r) = w_grants w /\
  (exists evs, w_trace (snd r) = w_trace w ++ evs /\
               forallb (userlandForkEvent url) evs = true) /\
  (forall forks,
     getForks E url = Ok forks ->
     fst r =
       match modals_create E "fork-drive"
               [("url", VStr url); ("forks", forks); ("detached", VUndefined);
                ("label", VUndefined)] with
       | Ok (Some u) =>
           if String.eqb u EmptyString then Err UserDeniedError else Ok u
       | Ok None => Err UserDeniedError
       | Err e => if isPlainError e then Err UserDeniedError else Err e
       end).
Proof.
  intros Hs r. subst r. unfold forkDrive. rewrite Hs. cbn [wantsPrompt].
  split; [|split].
  - revert w. apply storeKept_bind; [apply storeKept_call|intros].
    apply storeKept_runModal.
  - revert w.
    change (emits (userlandForkEvent url)
              (forks <- call (EvGetForks url) (getForks E url) ;;
               runModal E "fork-drive"
                 [("url", VStr url); ("forks", forks); ("detached", VUndefined);
                  ("label", VUndefined)])).
    apply emits_keeps. apply keeps_bind.
    + apply keeps_call. cbn. apply String.eqb_refl.
    + intros forks. apply keeps_runModal. reflexivity.
  - intros forks Hf. unfold bind, call, logEvent, liftR, runModal. cbn.
    rewrite Hf. cbn.
    destruct (modals_create E _ _) as [[u|]|e]; cbn; try reflexivity.
    + destruct (String.eqb u EmptyString); reflexivity.
    + destruct (isPlainError e); reflexivity.
Qed.

Lemma userland_fork_goes_through_modal_witness :
  fst (forkDrive (Demo.env 0 false Demo.noFiles) Demo.webPage Demo.keyA
         (VBool true) (VStr "mine") VUndefined (VStr "x") (Some false)
         emptyWorld) = Err UserDeniedError.
Proof.
  apply (proj2 (proj2 (userland_fork_goes_through_modal
                         (Demo.env 0 false Demo.noFiles) Demo.webPage Demo.keyA
                         (VBool true) (VStr "mine") VUndefined (VStr "x")
                         (Some false) emptyWorld eq_refl))
           (VArr []) eq_refl).
Defined.

(** X21: for a sender that is not privileged, [createDrive] never lets
    [author] or [visibility] through: the creation modal is shown with
    both undefined and the manifest of a drive created without the modal
    holds neither; and without the modal the drive is created only after
    the user approved a [createDrive] prompt: a rejected prompt gives
    UserDenied with nothing created, configured or granted. *)
Theorem userland_create_is_restricted (E : Env) (sender : Sender)
    (title description author visibility : Value) (prompt : option bool)
    (w : World) :
  isSenderBeaker sender = false ->
  (exists evs,
     w_trace (snd (createDrive E sender title description author visibility
                     prompt w)) = w_trace w ++ evs /\
     forallb userlandCreateEvent evs = true) /\
  (prompt = Some false ->
   userApproves E "createDrive" (getURL sender) = false ->
   createDrive E sender title description author visibility prompt w =
     (Err UserDeniedError,
      addEvents w [EvRequestPermission "createDrive" (getURL sender) VUndefined])).
Proof.
  intros Hs. split.
  - revert w.
    change (emits userlandCreateEvent
              (createDrive E sender title description author visibility prompt)).
    unfold createDrive. rewrite Hs. cbn [negb].
    apply emits_keeps. keeps_gateway.
  - intros -> Hno. unfold createDrive, assertCreateDrivePermission.
    rewrite Hs. cbn [negb wantsPrompt].
    unfold requestPermission, bind, logEvent. cbn. rewrite Hno. reflexivity.
Qed.

Lemma userland_create_is_restricted_witness :
  createDrive (Demo.env 0 false Demo.noFiles) Demo.webPage (VStr "t")
    VUndefined (VStr "someone") (VStr "public") (Some false) emptyWorld
  = (Err UserDeniedError,
     addEvents emptyWorld
       [EvRequestPermission "createDrive" "https://example.com/app" VUndefined]).
Proof.
  apply (proj2 (userland_create_is_restricted (Demo.env 0 false Demo.noFiles)
                  Demo.webPage (VStr "t") VUndefined (VStr "someone")
                  (VStr "public") (Some false) emptyWorld eq_refl)
           eq_refl eq_refl).
Defined.

(** ** The manifest and the other operations *)

(** X22: for a sender that is not privileged, the manifest path is also
    out of reach of [rmdir], [unmount] and [mount] (as the path of the URL)
    and of [symlink] (as the link name): these calls always fail and never
    reach a file primitive. *)
Theorem manifest_protected_from_other_mutations (E : Env) (sender : Sender)
    (url : string) (urlp : UrlParts) (filepath : string) (w : World) :
  isSenderBeaker sender = false ->
  parseDriveUrl E url = Ok urlp ->
  normalizeFilepath (up_pathname urlp) = Ok filepath ->
  let manifest := "/" +:+ DRIVE_MANIFEST_FILENAME E in
  (filepath = manifest ->
   (forall opts, failsWithoutPrimitive (rmdir E sender url opts) w) /\
   (forall opts, failsWithoutPrimitive (unmount E sender url opts) w) /\
   (forall mnt opts, failsWithoutPrimitive (mount E sender url mnt opts) w)) /\
  (forall linkname opts,
     normalizeFilepath linkname = Ok manifest ->
     failsWithoutPrimitive (symlink E sender url linkname opts) w).
Proof.
  intros Hnp Hparse Hnorm manifest.
  pose proof (assertUnprotected_manifest E sender Hnp) as Hprot.
  fold manifest in Hprot.
  split.
  - intros ->. refine (conj _ (conj _ _)); intros;
      unfold rmdir, unmount, mount;
      rewrite Hparse, bind_liftR_ok, Hnorm, bind_liftR_ok; fold manifest;
      rewrite Hprot;
      (apply recorded_failure_without_primitive; [keeps_gateway|fails_gateway]).
  - intros linkname opts Hl. unfold symlink.
    rewrite Hparse, bind_liftR_ok, Hnorm, bind_liftR_ok, Hl, bind_liftR_ok.
    rewrite Hprot.
    apply recorded_failure_without_primitive; [keeps_gateway|fails_gateway].
Qed.

Lemma manifest_protected_from_other_mutations_witness :
  failsWithoutPrimitive
    (symlink (Demo.env 0 true Demo.noFiles) Demo.webPage
       ("hyper://" +:+ Demo.keyA +:+ "/evil.json") "index.json" None)
    emptyWorld.
Proof.
  apply (proj2 (manifest_protected_from_other_mutations
                  (Demo.env 0 true Demo.noFiles) Demo.webPage
                  ("hyper://" +:+ Demo.keyA +:+ "/evil.json")
                  {| up_protocol := "hyper:";
                     up_origin := "hyper://" +:+ Demo.keyA +:+ "/";
                     up_host := Demo.keyA; up_hostname := Demo.keyA;
                     up_pathname := "/evil.json"; up_version := None |}
                  "/evil.json" emptyWorld eq_refl eq_refl eq_refl)
           "index.json" None eq_refl).
Defined.

(** X23: for a sender that is not privileged, [rename] and [copy] change
    a drive by at most one primitive call, their last step: a [pda.rename]
    whose destination path is legal and whose two paths are both not the
    manifest, or a [pda.copy] whose destination path is not the manifest.
    Whenever a check fails no drive is changed. *)
Theorem rename_and_copy_spare_the_manifest (E : Env) (sender : Sender)
    (url dstpath : string) (opts : Opts) (w : World) :
  isSenderBeaker sender = false ->
  let manifest := "/" +:+ DRIVE_MANIFEST_FILENAME E in
  (mutations (w_trace (snd (rename E sender url dstpath opts w)))
     = mutations (w_trace w) \/
   exists src sp dst dp,
     mutations (w_trace (snd (rename E sender url dstpath opts w)))
       = mutations (w_trace w) ++ [PdaRename src sp dst dp] /\
     DRIVE_VALID_PATH_REGEX_test E dp = true /\
     sp <> manifest /\ dp <> manifest) /\
  (mutations (w_trace (snd (copy E sender url dstpath opts w)))
     = mutations (w_trace w) \/
   exists src sp dst dp,
     mutations (w_trace (snd (copy E sender url dstpath opts w)))
       = mutations (w_trace w) ++ [PdaCopy src sp dst dp] /\
     dp <> manifest).
Proof.
  intros Hs manifest. split.
  - destruct (rename_mutates_only_after_checks E sender url dstpath opts w)
      as [H|(src & sp & dst & dp & Hm & Hv & Hp)]; [now left|right].
    exists src, sp, dst, dp. split; [exact Hm|]. split; [exact Hv|].
    destruct Hp as [Hp|[H1 H2]]; [congruence|].
    split; intros ->; unfold manifest in *;
      rewrite String.eqb_refl in *; discriminate.
  - destruct (copy_mutates_only_after_checks E sender url dstpath opts w)
      as [H|(src & sp & dst & dp & Hm & Hp)]; [now left|right].
    exists src, sp, dst, dp. split; [exact Hm|].
    destruct Hp as [Hp|H1]; [congruence|].
    intros ->. unfold manifest in *. rewrite String.eqb_refl in *. discriminate.
Qed.

Lemma rename_and_copy_spare_the_manifest_witness :
  let E := Demo.env 0 true Demo.noFiles in
  let r := rename E Demo.webPage ("hyper://" +:+ Demo.keyA +:+ "/a.txt")
             "/index.json" noOpts emptyWorld in
  mutations (w_trace (snd r)) = mutations (w_trace emptyWorld) \/
  exists src sp dst dp,
    mutations (w_trace (snd r))
      = mutations (w_trace emptyWorld) ++ [PdaRename src sp dst dp] /\
    DRIVE_VALID_PATH_REGEX_test E dp = true /\
    sp <> "/index.json" /\ dp <> "/index.json".
Proof.
  intros E r.
  apply (proj1 (rename_and_copy_spare_the_manifest E Demo.webPage
                  ("hyper://" +:+ Demo.keyA +:+ "/a.txt") "/index.json" noOpts
                  emptyWorld eq_refl)).
Defined.

(** ** Bulk operations of the privileged sender *)



(** ** Which drive the checks are about *)

Lemma keeps_assertWritePermission_for E ok d sender :
  ok (EvGetDriveInfo (key d)) = true ->
  (forall n, ok (EvResolveName n) = true) ->
  ok (EvQueryPermission ("modifyDrive:" +:+ key d) (getURL sender)) = true ->
  (forall t, ok (EvRequestPermission ("modifyDrive:" +:+ key d)
                   (getURL sender) t) = true) ->
  keeps ok (assertWritePermission E d sender).
Proof.
  intros H1 H2 H3 H4. unfold assertWritePermission.
  apply keeps_bind; [apply keeps_call; exact H1|intros details].
  destruct (isSenderBeaker sender); [apply keeps_ret|].
  apply keeps_bind.
  { unfold lookupUrlDriveKey.
    destruct (HYPERDRIVE_HASH_REGEX_test E (getURL sender)); [apply keeps_ret|].
    destruct (negb _); [apply keeps_ret|].
    apply keeps_bind; [apply keeps_liftR|intros urlp].
    apply keeps_tryCatch.
    apply keeps_bind; [apply keeps_call; apply H2|intros; apply keeps_ret]. }
  intros k. destruct (decide (k = Some (key d))); [apply keeps_ret|].
  apply keeps_bind.
  { intros w. unfold queryPermission. apply keeps_call. exact H3. }
  intros allowed. destruct (decide (allowed = Some true)); [apply keeps_ret|].
  apply keeps_bind.
  { unfold requestPermission.
    apply keeps_bind; [apply keeps_logEvent; apply H4|intros _].
    destruct (userApproves E _ _); [|apply keeps_ret].
    intros w. apply extends_grants. }
  intros b. destruct (negb b); [apply keeps_throw|apply keeps_ret].
Qed.

Lemma keeps_assertQuotaPermission_for E ok d origin n :
  ok (EvGetMeta (key d)) = true ->
  keeps ok (assertQuotaPermission E d origin n).
Proof.
  intros H. unfold assertQuotaPermission.
  destruct (JsString.startsWith origin "beaker:"); [apply keeps_ret|].
  apply keeps_bind.
  - unfold getMeta. apply keeps_callH. exact H.
  - intros size. cbv zeta. destruct (_ >? _); [apply keeps_throw|apply keeps_ret].
Qed.

Lemma emits_bind_run {A B} ok (m : M A) (k : A -> M B) a evs :
  (forall w, m w = (Ok a, addEvents w evs)) ->
  forallb ok evs = true ->
  emits ok (k a) -> emits ok (bind m k).
Proof.
  intros Hm He Hk w. unfold bind. rewrite Hm.
  destruct (Hk (addEvents w evs)) as (evs2 & Ht & He2).
  exists (evs ++ evs2). rewrite Ht. cbn [addEvents w_trace].
  rewrite <- app_assoc, forallb_app, He, He2. auto.
Qed.

Lemma lookupEvents_consultsOnly E k0 k v d :
  forallb (consultsOnly k0) (lookupEvents E k v d) = true.
Proof. unfold lookupEvents. destruct (getDrive E k); reflexivity. Qed.

Ltac keeps_for_drive :=
  keeps_gateway;
  first [ apply keeps_assertWritePermission_for; cbn [consultsOnly drive];
          intros; first [reflexivity | apply String.eqb_refl]
        | apply keeps_assertQuotaPermission_for; cbn [consultsOnly drive];
          apply String.eqb_refl ].

(** X25: in [rename] and [copy] the checks are about the destination
    drive alone: once the URL and both paths are decoded and the two
    drives resolve, the only drive whose information is fetched, whose
    write permission is queried or asked for and, for [copy], whose quota
    is consulted is the destination drive; the sender's right to change
    the source drive is never looked at. *)
Theorem rename_and_copy_check_destination_only (E : Env) (sender : Sender)
    (url dstpath : string) (opts : Opts) (urlp : UrlParts) (sp dp : string)
    (ds dd : Drive) (cs cd : Checkout) (hs hd : bool) (w : World) :
  parseDriveUrl E url = Ok urlp ->
  normalizeFilepath (up_pathname urlp) = Ok sp ->
  normalizeFilepath dstpath = Ok dp ->
  resolvesTo E (up_hostname urlp) (up_version urlp) ds cs hs ->
  resolvesTo E (if JsString.includes dp "://" then dp else up_origin urlp)
    None dd cd hd ->
  (exists evs,
     w_trace (snd (rename E sender url dstpath opts w)) = w_trace w ++ evs /\
     forallb (consultsOnly (key dd)) evs = true) /\
  (exists evs,
     w_trace (snd (copy E sender url dstpath opts w)) = w_trace w ++ evs /\
     forallb (consultsOnly (key dd)) evs = true).
Proof.
  intros Hparse Hsp Hdp Hsrc Hdst. split; revert w.
  - change (emits (consultsOnly (key dd)) (rename E sender url dstpath opts)).
    unfold rename.
    rewrite Hparse, bind_liftR_ok, Hsp, bind_liftR_ok, Hdp, bind_liftR_ok.
    apply emits_record. unfold timer.
    apply emits_bind; [apply emits_keeps, keeps_logEvent; reflexivity|intros _].
    apply emits_bind; [apply emits_keeps, keeps_checkin; reflexivity|intros _].
    eapply emits_bind_run;
      [intros w; apply (lookupDrive_run _ _ _ _ _ _ _ _ Hsrc)
      |apply lookupEvents_consultsOnly|].
    eapply emits_bind_run;
      [intros w; apply (lookupDrive_run _ _ _ _ _ _ _ _ Hdst)
      |apply lookupEvents_consultsOnly|].
    cbn [drive checkoutFS]. apply emits_keeps. keeps_for_drive.
  - change (emits (consultsOnly (key dd)) (copy E sender url dstpath opts)).
    unfold copy.
    rewrite Hparse, bind_liftR_ok, Hsp, bind_liftR_ok, Hdp, bind_liftR_ok.
    eapply emits_bind_run;
      [intros w; apply (lookupDrive_run _ _ _ _ _ _ _ _ Hsrc)
      |apply lookupEvents_consultsOnly|].
    cbn [drive checkoutFS].
    apply emits_bind; [apply emits_keeps, keeps_callH; reflexivity|intros size].
    apply emits_record. unfold timer.
    apply emits_bind; [apply emits_keeps, keeps_logEvent; reflexivity|intros _].
    apply emits_bind; [apply emits_keeps, keeps_checkin; reflexivity|intros _].
    eapply emits_bind_run;
      [intros w; apply (lookupDrive_run _ _ _ _ _ _ _ _ Hdst)
      |apply lookupEvents_consultsOnly|].
    cbn [drive checkoutFS]. cbv zeta. apply emits_keeps. keeps_for_drive.
Qed.

Lemma rename_and_copy_check_destination_only_witness :
  let E := Demo.env 0 true Demo.noFiles in
  let r := rename E Demo.webPage ("hyper://" +:+ Demo.keyA +:+ "/a.txt")
             ("hyper://" +:+ Demo.keyB +:+ "/b.txt") noOpts emptyWorld in
  fst r = Ok VUndefined /\
  exists evs,
    w_trace (snd r) = w_trace emptyWorld ++ evs /\
    forallb (consultsOnly Demo.keyB) evs = true.
Proof.
  intros E r. split; [reflexivity|].
  apply (proj1 (rename_and_copy_check_destination_only E Demo.webPage
                  ("hyper://" +:+ Demo.keyA +:+ "/a.txt")
                  ("hyper://" +:+ Demo.keyB +:+ "/b.txt") noOpts
                  {| up_protocol := "hyper:";
                     up_origin := "hyper://" +:+ Demo.keyA +:+ "/";
                     up_host := Demo.keyA; up_hostname := Demo.keyA;
                     up_pathname := "/a.txt"; up_version := None |}
                  "/a.txt" ("hyper://" +:+ Demo.keyB +:+ "/b.txt")
                  {| key := Demo.keyA; writable := false |}
                  {| key := Demo.keyB; writable := false |}
                  {| co_key := Demo.keyA; co_version := None |}
                  {| co_key := Demo.keyB; co_version := None |}
                  false false emptyWorld
                  eq_refl eq_refl eq_refl (conj eq_refl eq_refl)
                  (conj eq_refl eq_refl))).
Defined.

(** ** Which operations are charged against the quota *)

Lemma keeps_assertWritePermission_notQuota E d sender :
  keeps notQuota (assertWritePermission E d sender).
Proof. apply keeps_assertWritePermission_for; reflexivity. Qed.

Ltac keeps_quota :=
  repeat first
    [ apply keeps_bind_throw
    | apply keeps_timer; [event_class|]
    | apply keeps_checkin; event_class
    | apply keeps_pause; event_class
    | apply keeps_resume; event_class
    | apply keeps_pdaCall; event_class
    | apply keeps_lookupDrive; event_class
    | apply keeps_assertWritePermission_notQuota
    | apply keeps_assertValidFilePath
    | apply keeps_assertValidPath
    | apply keeps_assertUnprotectedFilePath
    | apply keeps_stripScheme
    | keeps_step ].

Ltac emits_quota :=
  repeat first
    [ apply emits_record
    | apply emits_keeps; solve [keeps_quota]
    | apply emits_bind; [|intros] ].

(** X26: [unlink], [rename], [updateMetadata], [deleteMetadata], [mkdir],
    [rmdir], [symlink], [mount] and [unmount] never consult the size of a
    drive: of the operations that change a drive only [writeFile], [copy]
    and [configure] make the quota check. *)
Theorem quota_not_consulted (E : Env) (sender : Sender) (c : ApiCall)
    (w : World) :
  quotaFree c = true ->
  exists evs,
    w_trace (snd (invoke E sender c w)) = w_trace w ++ evs /\
    forallb notQuota evs = true.
Proof.
  intros Hc. revert w. change (emits notQuota (invoke E sender c)).
  destruct c; try discriminate Hc; cbn [invoke];
    unfold unlink, rename, updateMetadata, deleteMetadata, mkdir, rmdir,
      symlink, mount, unmount;
    emits_quota.
Qed.

Lemma quota_not_consulted_witness :
  let r := invoke (Demo.env 524288000 true Demo.noFiles) Demo.webPage
             (Mkdir ("hyper://" +:+ Demo.keyA +:+ "/dir") None) emptyWorld in
  fst r = Ok VUndefined /\
  exists evs, w_trace (snd r) = w_trace emptyWorld ++ evs /\
              forallb notQuota evs = true.
Proof.
  intros r. split; [reflexivity|].
  apply (quota_not_consulted (Demo.env 524288000 true Demo.noFiles)
           Demo.webPage (Mkdir ("hyper://" +:+ Demo.keyA +:+ "/dir") None)
           emptyWorld eq_refl).
Defined.
